(** * Verification of the self-generating UI core (h6tdf)

    A shallow embedding of the TypeScript sources: the cache-key
    derivation of [cacheService], the component list operations of the
    application store, the five-stage generator of [multiAgentGenerator],
    the event-handler resolution chain of [functionResolver] together with
    [captureContext], and the patch queue of [patchService].

    Conventions.  A JavaScript string is a Rocq [string], one character per
    UTF-16 code unit (code units below 256).  An optional property
    ([x?: T]) is an [option].  An object used as a dictionary is a [gmap]
    on its own keys; the handler registry, which is read under names that
    generated components bring, is an object with its prototype.  A
    function that may throw returns an [Outcome]; code
    that also reads or writes shared state is written in a small
    state-and-exception monad.  Calls to [logger] are kept only where a
    property speaks about them. *)

From Stdlib Require Import ZArith Ascii String.
From stdpp Require Import gmap strings list pretty.

Set Warnings "-register-all".

Open Scope Z_scope.

(** ** JavaScript primitives used by the sources *)
Module Js.

(** Code unit of a character, [String.prototype.charCodeAt]. *)
Definition charCode (a : ascii) : Z := Z.of_N (Ascii.N_of_ascii a).

Definition chr (n : Z) : ascii := Ascii.ascii_of_N (Z.to_N n).

Definition str1 (a : ascii) : string := String a EmptyString.

(** The double quote and the backslash, which a string literal of this
    file does not spell out. *)
Definition DQ : string := str1 (chr 34).
Definition BS : string := str1 (chr 92).

(** Truthiness of a string: every string but the empty one. *)
Definition truthy (s : string) : bool :=
  match s with EmptyString => false | String _ _ => true end.

(** [s || d] for a string [s]. *)
Definition strOr (s d : string) : string := if truthy s then s else d.

(** [o || d] for an optional string [o] ([undefined] is falsy). *)
Definition optOr (o : option string) (d : string) : string :=
  match o with Some s => strOr s d | None => d end.

(** [ToInt32]: reduction modulo 2^32 into [-2^31, 2^31). *)
Definition toInt32 (z : Z) : Z :=
  let m := z mod 2 ^ 32 in
  if m <? 2 ^ 31 then m else m - 2 ^ 32.

(** [a << n] on numbers holding integers. *)
Definition shl (a n : Z) : Z := toInt32 (Z.shiftl (toInt32 a) (n mod 32)).

(** [a | 0]. *)
Definition or0 (a : Z) : Z := toInt32 a.

Definition hexDigit (n : Z) : ascii :=
  if n <? 10 then chr (48 + n) else chr (87 + n).

(** [QuoteJSONString] on one code unit, without the enclosing quotes. *)
Definition quoteChar (a : ascii) : string :=
  let c := charCode a in
  if c =? 8 then BS +:+ "b"
  else if c =? 9 then BS +:+ "t"
  else if c =? 10 then BS +:+ "n"
  else if c =? 12 then BS +:+ "f"
  else if c =? 13 then BS +:+ "r"
  else if c =? 34 then BS +:+ DQ
  else if c =? 92 then BS +:+ BS
  else if c <? 32 then
    BS +:+ "u00" +:+ str1 (hexDigit (c / 16)) +:+ str1 (hexDigit (c mod 16))
  else str1 a.

Fixpoint quoteBody (s : string) : string :=
  match s with
  | EmptyString => EmptyString
  | String a s' => quoteChar a +:+ quoteBody s'
  end.

(** [JSON.stringify(s)] for a string [s]. *)
Definition quoteJSONString (s : string) : string := DQ +:+ quoteBody s +:+ DQ.

(** [JSON.stringify(o)] for an object [o] whose property values are all
    strings, properties in insertion order, no indentation. *)
Fixpoint stringifyMembers (kvs : list (string * string)) : string :=
  match kvs with
  | [] => ""
  | [(k, v)] => quoteJSONString k +:+ ":" +:+ quoteJSONString v
  | (k, v) :: rest =>
      quoteJSONString k +:+ ":" +:+ quoteJSONString v +:+ "," +:+ stringifyMembers rest
  end.

Definition stringifyStringObject (kvs : list (string * string)) : string :=
  "{" +:+ stringifyMembers kvs +:+ "}".

(** [xs.join(sep)] on an array of strings. *)
Fixpoint join (sep : string) (xs : list string) : string :=
  match xs with
  | [] => ""
  | [x] => x
  | x :: rest => x +:+ sep +:+ join sep rest
  end.

(** [String.prototype.toLowerCase] on code units below 256. *)
Definition lowerChar (a : ascii) : ascii :=
  let c := charCode a in
  if ((65 <=? c) && (c <=? 90)) || ((192 <=? c) && (c <=? 222) && negb (c =? 215))
  then chr (c + 32) else a.

Fixpoint toLowerCase (s : string) : string :=
  match s with
  | EmptyString => EmptyString
  | String a s' => String (lowerChar a) (toLowerCase s')
  end.

(** [xs.findIndex(p)]: the first index whose element satisfies [p], or -1. *)
Fixpoint findIndexFrom {A} (p : A → bool) (xs : list A) (i : Z) : Z :=
  match xs with
  | [] => -1
  | x :: rest => if p x then i else findIndexFrom p rest (i + 1)
  end.

Definition findIndex {A} (p : A → bool) (xs : list A) : Z := findIndexFrom p xs 0.

(** [xs.find(p)]. *)
Fixpoint find {A} (p : A → bool) (xs : list A) : option A :=
  match xs with
  | [] => None
  | x :: rest => if p x then Some x else find p rest
  end.

(** [xs.slice(0, n)]. *)
Definition slice0 {A} (n : nat) (xs : list A) : list A := take n xs.

(** [ys = [...xs]; ys.splice(i, 0, x)] for [0 <= i]: insertion before
    index [i], at the end when [i] is past the end. *)
Definition spliceInsert {A} (i : Z) (x : A) (xs : list A) : list A :=
  take (Z.to_nat i) xs ++ x :: drop (Z.to_nat i) xs.

(** A parsed JSON value.  Member order of an object is kept. *)
Inductive JSON :=
| JNull
| JBool (b : bool)
| JNumber (n : Z)
| JString (s : string)
| JArray (xs : list JSON)
| JObject (members : list (string * JSON)).

(** What a [throw] carries: an [Error] with its message, or another value. *)
Inductive Thrown :=
| ErrorObj (message : string)
| NonError.

(** [error instanceof Error ? error.message : fallback]. *)
Definition messageOr (fallback : string) (e : Thrown) : string :=
  match e with ErrorObj m => m | NonError => fallback end.

Inductive Outcome (A : Type) :=
| Ok (a : A)
| Throw (e : Thrown).
Arguments Ok {A} a.
Arguments Throw {A} e.

End Js.
Export Js.

(** ** The component tree, [types/index.ts] *)
Module Types.

Definition Props : Type := list (string * JSON).

Record Metadata := mkMetadata {
  generated_at : string;
  prompt : option string;
  version : option Z
}.

Inductive TriggerType := onClick | onSubmit | onChange.

(** [UIComponent], [UIChild] and [UIPlaceholder] refer to one another. *)
Inductive UIComponent :=
| mkUIComponent (id : string) (type : string) (props : Props)
    (children : option (list UIChild)) (metadata : option Metadata)
with UIChild :=
| ChildComponent (c : UIComponent)
| ChildText (s : string)
| ChildPlaceholder (p : UIPlaceholder)
with UIPlaceholder :=
| mkUIPlaceholder (id : string) (generationPrompt : string)
    (triggerComponent : UIComponent) (triggerType : option TriggerType).

Definition id (c : UIComponent) : string :=
  match c with mkUIComponent i _ _ _ _ => i end.
Definition type (c : UIComponent) : string :=
  match c with mkUIComponent _ t _ _ _ => t end.
Definition props (c : UIComponent) : Props :=
  match c with mkUIComponent _ _ p _ _ => p end.
Definition children (c : UIComponent) : option (list UIChild) :=
  match c with mkUIComponent _ _ _ ch _ => ch end.
Definition metadata (c : UIComponent) : option Metadata :=
  match c with mkUIComponent _ _ _ _ m => m end.

Definition placeholderId (p : UIPlaceholder) : string :=
  match p with mkUIPlaceholder i _ _ _ => i end.
Definition generationPrompt (p : UIPlaceholder) : string :=
  match p with mkUIPlaceholder _ g _ _ => g end.

(** [child.id] of a child that is an object. *)
Definition childId (ch : UIChild) : option string :=
  match ch with
  | ChildComponent c => Some (id c)
  | ChildText _ => None
  | ChildPlaceholder p => Some (placeholderId p)
  end.

(** [Partial<UIComponent>]: every property may be missing. *)
Record PartialUIComponent := mkPartial {
  p_id : option string;
  p_type : option string;
  p_props : option Props;
  p_children : option (list UIChild);
  p_metadata : option Metadata
}.

(** [{ ...c, ...updates }]: a property present in [updates] replaces the
    one of [c]. *)
Definition spread (c : UIComponent) (updates : PartialUIComponent) : UIComponent :=
  mkUIComponent
    (default (id c) (p_id updates))
    (default (type c) (p_type updates))
    (default (props c) (p_props updates))
    (match p_children updates with Some ch => Some ch | None => children c end)
    (match p_metadata updates with Some m => Some m | None => metadata c end).

End Types.
Export Types.

(** ** Context capture, [lib/contextManager.ts] *)
Module ContextManager.

(** The attributes [extractElementProps] reads beyond [id] and
    [className]. *)
Inductive ElementKind :=
| InputElement (inputType value placeholder : string)
| ButtonElement (buttonType : string) (disabled : bool)
| OtherElement.

(** A DOM element, as far as context capture looks at it. *)
Record Element := mkElement {
  el_id : string;
  tagName : string;
  className : string;
  textContent : option string;
  el_kind : ElementKind
}.

(** What the handler reads of the event: [event.target.value] when the
    target has a string [value]. *)
Record Event := mkEvent {
  targetValue : option string
}.

(** [window] and [navigator] as read by [captureFull]. *)
Record Window := mkWindow {
  innerWidth : Z;
  innerHeight : Z;
  userAgent : string
}.

Record Position := mkPosition { index : Z; depth : Z }.

Record TriggerElement := mkTriggerElement {
  te_id : string;
  te_type : string;
  te_props : Props;
  te_textContent : option string;
  te_position : Position
}.

Record AppStateInfo := mkAppStateInfo {
  allComponents : list UIComponent;
  componentCount : Z;
  hasErrors : bool;
  lastUserActions : list string;
  as_metadata : Props
}.

Record Viewport := mkViewport { width : Z; height : Z }.

Record EnvironmentInfo := mkEnvironmentInfo {
  viewport : Viewport;
  env_userAgent : string;
  env_timestamp : string
}.

Inductive ContextTriggerType := trigger_error | user_interaction | recursive_generation.

(** [FullContext]; its [level] is the constant ['full']. *)
Record FullContext := mkFullContext {
  triggerId : string;
  triggerType : ContextTriggerType;
  timestamp : string;
  triggerElement : TriggerElement;
  userInput : option string;
  componentHierarchy : list UIComponent;
  siblingComponents : list UIComponent;
  parentComponent : option UIComponent;
  appState : AppStateInfo;
  environmentInfo : EnvironmentInfo
}.

Definition extractElementProps (element : Element) : Props :=
  (if truthy (el_id element) then [("id", JString (el_id element))] else [])
  ++ (if truthy (className element) then [("className", JString (className element))] else [])
  ++ match el_kind element with
     | InputElement t v p =>
         [("type", JString t); ("value", JString v); ("placeholder", JString p)]
     | ButtonElement t d => [("type", JString t); ("disabled", JBool d)]
     | OtherElement => []
     end.

Definition findSiblingComponents (components : list UIComponent) (targetId : string)
  : list UIComponent :=
  slice0 3 (filter (λ comp, id comp ≠ targetId) components).

Definition hasChild (targetId : string) (comp : UIComponent) : bool :=
  match children comp with
  | Some chs => existsb (λ child, bool_decide (childId child = Some targetId)) chs
  | None => false
  end.

Definition findParentComponent (components : list UIComponent) (targetId : string)
  : option UIComponent :=
  find (hasChild targetId) components.

Definition buildComponentHierarchy (components : list UIComponent) (_targetId : string)
  : list UIComponent :=
  slice0 5 components.

Definition calculateElementPosition (components : list UIComponent) (targetId : string)
  : Position :=
  let index := findIndex (λ comp, bool_decide (id comp = targetId)) components in
  mkPosition (Z.max 0 index) 1.

Definition checkForErrors (_components : list UIComponent) : bool := false.

Definition getRecentUserActions : list string := [].

(** [captureFull]; [now1] and [now2] are the two readings of the clock.
    An empty [textContent] becomes [undefined]. *)
Definition captureFull (now1 now2 : string) (win : Window)
    (element : Element) (components : list UIComponent)
    (userInput : option string) (metadata : option Props) : FullContext :=
  let triggerId := strOr (el_id element) "unknown" in
  let elementType := toLowerCase (tagName element) in
  let siblingComponents := findSiblingComponents components triggerId in
  let parentComponent := findParentComponent components triggerId in
  let componentHierarchy := buildComponentHierarchy components triggerId in
  let position := calculateElementPosition components triggerId in
  {| triggerId := triggerId;
     triggerType := recursive_generation;
     timestamp := now1;
     triggerElement :=
       {| te_id := triggerId;
          te_type := elementType;
          te_props := extractElementProps element;
          te_textContent :=
            match textContent element with
            | Some t => if truthy t then Some t else None
            | None => None
            end;
          te_position := position |};
     userInput := userInput;
     componentHierarchy := componentHierarchy;
     siblingComponents := siblingComponents;
     parentComponent := parentComponent;
     appState :=
       {| allComponents := components;
          componentCount := Z.of_nat (length components);
          hasErrors := checkForErrors components;
          lastUserActions := getRecentUserActions;
          as_metadata := default [] metadata |};
     environmentInfo :=
       {| viewport := {| width := innerWidth win; height := innerHeight win |};
          env_userAgent := userAgent win;
          env_timestamp := now2 |} |}.

End ContextManager.

(** ** The recursive-generation cache key, [services/cacheService.ts] *)
Module CacheService.
Import ContextManager.

Definition CACHE_PREFIX : string := "recursive-cache-".

(** The object [keyParts], as its list of properties. *)
Definition keyParts (context : FullContext) : list (string * string) :=
  [ ("triggerId", te_id (triggerElement context));
    ("triggerType", te_type (triggerElement context));
    ("input", optOr (userInput context) "");
    ("parent", match parentComponent context with
               | Some p => strOr (id p) ""
               | None => ""
               end);
    ("siblings", join "," (map id (siblingComponents context))) ].

(** One turn of the loop: [hash = (hash << 5) - hash + char; hash |= 0]. *)
Definition hashStep (hash : Z) (a : ascii) : Z :=
  or0 (shl hash 5 - hash + charCode a).

Fixpoint hashLoop (keyString : string) (hash : Z) : Z :=
  match keyString with
  | EmptyString => hash
  | String a rest => hashLoop rest (hashStep hash a)
  end.

Definition createCacheKey (context : FullContext) : string :=
  let keyString := stringifyStringObject (keyParts context) in
  let hash := hashLoop keyString 0 in
  CACHE_PREFIX +:+ pretty (Z.abs hash).

(** The projection the specification names: trigger element id, trigger
    kind, user input or the empty string, parent id or the empty string,
    and the ids of the captured siblings as a set. *)
Definition specProjection (context : FullContext)
  : string * string * string * string * gset string :=
  (te_id (triggerElement context),
   te_type (triggerElement context),
   default "" (userInput context),
   from_option id "" (parentComponent context),
   list_to_set (map id (siblingComponents context))).

(** The same projection with the sibling ids in the order of capture. *)
Definition orderedProjection (context : FullContext)
  : string * string * string * string * list string :=
  (te_id (triggerElement context),
   te_type (triggerElement context),
   default "" (userInput context),
   from_option id "" (parentComponent context),
   map id (siblingComponents context)).

End CacheService.

(** ** Cleaning of model output, [lib/ai-parsers.ts] *)
Module AiParsers.

(** The class [\s] of a regular expression, on code units below 256. *)
Definition isSpace (a : ascii) : bool :=
  let c := charCode a in
  ((9 <=? c) && (c <=? 13)) || (c =? 32) || (c =? 160).

Fixpoint sdrop (n : nat) (s : string) : string :=
  match n, s with
  | O, _ => s
  | S n', String _ rest => sdrop n' rest
  | S _, EmptyString => EmptyString
  end.

Fixpoint stake (n : nat) (s : string) : string :=
  match n, s with
  | O, _ => EmptyString
  | S n', String a rest => String a (stake n' rest)
  | S _, EmptyString => EmptyString
  end.

(** Length of the run of white space that [s] starts with. *)
Fixpoint spaceRun (s : string) : nat :=
  match s with
  | String a rest => if isSpace a then S (spaceRun rest) else O
  | EmptyString => O
  end.

Fixpoint trimEnd (s : string) : string :=
  match s with
  | EmptyString => EmptyString
  | String a rest =>
      match trimEnd rest with
      | EmptyString => if isSpace a then EmptyString else String a EmptyString
      | r => String a r
      end
  end.

(** [String.prototype.trim]. *)
Definition trim (s : string) : string := trimEnd (sdrop (spaceRun s) s).

Definition fence : string := "```".

(** [\s*```] matches at the start of [s]: the greedy run of white space
    cannot give back anything useful, a fence holds no white space. *)
Definition closes (s : string) : bool :=
  String.prefix fence (sdrop (spaceRun s) s).

(** [([\s\S]*?)\s*```] at the start of [s]: the shortest capture after
    which the closing fence matches. *)
Fixpoint lazyCapture (s : string) : option string :=
  if closes s then Some EmptyString
  else match s with
       | EmptyString => None
       | String a rest => String a <$> lazyCapture rest
       end.

(** [\s*([\s\S]*?)\s*```] at the start of [s]: the leading [\s*] tries
    its longest run first and gives back one character at a time. *)
Fixpoint afterSpaces (k : nat) (s : string) : option string :=
  match lazyCapture (sdrop k s) with
  | Some c => Some c
  | None => match k with
            | O => None
            | S k' => afterSpaces k' s
            end
  end.

(** The whole expression anchored at the start of [s]; [(?:json)?] is
    tried with the word first, then without. *)
Definition matchHere (s : string) : option string :=
  if String.prefix fence s then
    let r := sdrop 3 s in
    let withWord :=
      if String.prefix "json" r
      then afterSpaces (spaceRun (sdrop 4 r)) (sdrop 4 r)
      else None in
    match withWord with
    | Some c => Some c
    | None => afterSpaces (spaceRun r) r
    end
  else None.

(** [rawOutput.match(markdownJsonRegex)]: the capture group of the
    leftmost match. *)
Fixpoint markdownMatch (s : string) : option string :=
  match matchHere s with
  | Some c => Some c
  | None => match s with
            | EmptyString => None
            | String _ rest => markdownMatch rest
            end
  end.

(** [s.indexOf(c)] for a single character. *)
Fixpoint indexOfFrom (c : ascii) (s : string) (i : Z) : Z :=
  match s with
  | EmptyString => -1
  | String a rest => if Ascii.eqb a c then i else indexOfFrom c rest (i + 1)
  end.
Definition indexOf (c : ascii) (s : string) : Z := indexOfFrom c s 0.

(** [s.lastIndexOf(c)] for a single character. *)
Fixpoint lastIndexOfFrom (c : ascii) (s : string) (i : Z) (found : Z) : Z :=
  match s with
  | EmptyString => found
  | String a rest =>
      lastIndexOfFrom c rest (i + 1) (if Ascii.eqb a c then i else found)
  end.
Definition lastIndexOf (c : ascii) (s : string) : Z := lastIndexOfFrom c s 0 (-1).

(** [s.substring(a, b)] for [0 <= a <= b]. *)
Definition substring (a b : Z) (s : string) : string :=
  stake (Z.to_nat (b - a)) (sdrop (Z.to_nat a) s).

Definition extractJson (rawOutput : string) : string :=
  let balanced :=
    let firstBracket := indexOf "[" rawOutput in
    let lastBracket := lastIndexOf "]" rawOutput in
    if negb (firstBracket =? -1) && (firstBracket <? lastBracket) then
      trim (substring firstBracket (lastBracket + 1) rawOutput)
    else
      let firstBrace := indexOf "{" rawOutput in
      let lastBrace := lastIndexOf "}" rawOutput in
      if negb (firstBrace =? -1) && (firstBrace <? lastBrace) then
        trim (substring firstBrace (lastBrace + 1) rawOutput)
      else rawOutput in
  match markdownMatch rawOutput with
  | Some c => if truthy c then trim c else balanced
  | None => balanced
  end.

End AiParsers.

(** ** Analysis results and the environment of the services *)
Module Analysis.

Record CustomComponent := mkCustom { cc_name : string; cc_description : string }.

Record CompositeComponent := mkComposite {
  co_name : string;
  co_components : list string;
  co_description : string
}.

Record ComponentAnalysis := mkAnalysis {
  requiredComponents : list string;
  customComponents : list CustomComponent;
  compositeComponents : list CompositeComponent;
  reasoning : string
}.

Record FetchResult := mkFetchResult {
  fr_success : bool;
  fr_component : string;
  fr_error : option string
}.

Record GenerateCodeInput := mkCodeInput {
  ci_userPrompt : string;
  ci_componentAnalysis : ComponentAnalysis;
  ci_availableComponents : list string
}.

(** The input [generateRecursive] builds for its chain. *)
Record RecursiveInput := mkRecursiveInput {
  ri_triggerElement : ContextManager.TriggerElement;
  ri_userInput : string;
  ri_siblingComponents : string;
  ri_parentComponent : string;
  ri_allComponents : string
}.

Record RecursiveMetadata := mkRecursiveMetadata {
  rm_componentId : string;
  rm_reasoning : string
}.

(** What the recursive chain answers, as [JSON.parse] gives it: the
    service declares the members [ui] and [metadata], and a parsed answer
    may lack either ([None] is [undefined]). *)
Record RecursiveResult := mkRecursiveResult {
  ui : option UIComponent;
  rr_metadata : option RecursiveMetadata
}.

(** [RecursiveCacheEntry] of the cache service, holding the two members
    as they were given. *)
Record RecursiveCacheEntry := mkCacheEntry {
  ce_ui : option UIComponent;
  ce_metadata : option RecursiveMetadata;
  createdAt : string
}.

(** The chains of the AI service that the modelled paths invoke. *)
Inductive ChainCall :=
| codeGeneratorChain (input : GenerateCodeInput)
| recursiveGeneratorChain (input : RecursiveInput).

End Analysis.
Export Analysis.

(** Everything outside the repository's own code: the language run time
    ([JSON], [Date]), the browser ([document], [window], local storage), the
    language model behind a chain, and the analyzer and fetcher services the
    generator is handed.  [World] is their joint state; an operation that
    may reject returns an [Outcome].  [JSON.parse] is taken at the type its
    caller declares for the result. *)
Class Environment := {
  World : Type;
  (** [chain.invoke(input)]: the raw text of the model, or a failure. *)
  invoke : ChainCall → World → Outcome string * World;
  (** [JSON.parse(text)] read as [UIComponent[]]. *)
  JSON_parse_components : string → Outcome (list UIComponent);
  (** [JSON.parse(text)] read as the answer of the recursive chain. *)
  JSON_parse_recursive : string → Outcome RecursiveResult;
  (** [JSON.parse(text)] read as one component definition. *)
  JSON_parse_component : string → Outcome PartialUIComponent;
  (** [JSON.stringify(components, null, 2)]. *)
  JSON_stringify_components : list UIComponent → string;
  (** [Date.now()] and [new Date().toISOString()]. *)
  Date_now : World → Z * World;
  Date_toISOString : World → string * World;
  (** [document.getElementById], [window] and [navigator]. *)
  getElementById : string → World → option ContextManager.Element;
  window : World → ContextManager.Window;
  (** The key-value store behind [storageManager]. *)
  storage_getItem : string → World → Outcome (option RecursiveCacheEntry) * World;
  storage_setItem : string → RecursiveCacheEntry → World → Outcome unit * World;
  (** [ComponentAnalyzer] and [ComponentFetcher]. *)
  analyzeComponents : string → World → Outcome ComponentAnalysis * World;
  isComponentAvailable : string → bool;
  fetchComponents : list string → World → Outcome (list FetchResult) * World
}.

(** ** A state-and-exception monad for the asynchronous code *)
Module Effects.

Definition M (S A : Type) : Type := S → Outcome A * S.

Definition ret {S A} (a : A) : M S A := λ s, (Ok a, s).

Definition bind {S A B} (m : M S A) (k : A → M S B) : M S B :=
  λ s, match m s with
       | (Ok a, s') => k a s'
       | (Throw e, s') => (Throw e, s')
       end.

Definition throw {S A} (e : Thrown) : M S A := λ s, (Throw e, s).

(** [try { body } catch (error) { handler(error) }]. *)
Definition tryCatch {S A} (body : M S A) (handler : Thrown → M S A) : M S A :=
  λ s, match body s with
       | (Ok a, s') => (Ok a, s')
       | (Throw e, s') => handler e s'
       end.

Definition get {S} : M S S := λ s, (Ok s, s).
Definition modify {S} (f : S → S) : M S unit := λ s, (Ok tt, f s).

End Effects.
Export Effects.

Notation "'let!' x ':=' c1 'in' c2" := (bind c1 (λ x, c2))
  (at level 10, x name, c1 at level 100, c2 at level 200).

(** ** The AI service, [services/aiService.ts] *)
Module AIService.
Import ContextManager AiParsers.

Section WithEnvironment.
Context `{Env : Environment}.

(** [runChain]: invoke the chain, clean and parse its raw answer; every
    failure inside is rethrown as a new [Error] whose message starts
    with [errorMessage]. *)
Definition runChain {T} (call : ChainCall) (parse : string → Outcome T)
    (errorMessage : string) : M World T :=
  tryCatch
    (let! rawResult := invoke call in
     match parse (extractJson rawResult) with
     | Ok parsedResult => ret parsedResult
     | Throw e => throw e
     end)
    (λ error,
       throw (ErrorObj (errorMessage +:+ ": " +:+ messageOr "Unknown error" error))).

Definition generateCode (input : GenerateCodeInput) : M World (list UIComponent) :=
  runChain (codeGeneratorChain input) JSON_parse_components
    "Failed to generate component code".

(** [JSON.stringify] of an array of strings, no indentation. *)
Definition stringifyStrings (xs : list string) : string :=
  "[" +:+ join "," (map quoteJSONString xs) +:+ "]".

Definition generateRecursive (context : FullContext) : M World RecursiveResult :=
  let input :=
    {| ri_triggerElement := triggerElement context;
       ri_userInput := optOr (userInput context) "No direct input.";
       ri_siblingComponents := stringifyStrings (map type (siblingComponents context));
       ri_parentComponent :=
         match parentComponent context with
         | Some p => type p
         | None => "none"
         end;
       ri_allComponents :=
         stringifyStrings (map type (allComponents (appState context))) |} in
  runChain (recursiveGeneratorChain input) JSON_parse_recursive
    "Failed to generate recursive UI".

(** The context itself is the prompt. *)
Definition buildFallbackPrompt (context : FullContext) : FullContext := context.

End WithEnvironment.
End AIService.

(** ** The application store, [store/appStore.ts] *)
Module AppStore.

(** The store's state; the session and saved-state fields, which no
    operation below reads or writes, are left out. *)
Record AppState := mkAppState {
  currentComponents : list UIComponent;
  isLoading : bool;
  error : option string;
  isGenerating : bool;
  lastAIResponse : option string;
  suggestions : list string
}.

Definition setComponents (cs : list UIComponent) (state : AppState) : AppState :=
  {| currentComponents := cs;
     isLoading := isLoading state;
     error := error state;
     isGenerating := isGenerating state;
     lastAIResponse := lastAIResponse state;
     suggestions := suggestions state |}.

Definition setError (e : option string) (state : AppState) : AppState :=
  {| currentComponents := currentComponents state;
     isLoading := isLoading state;
     error := e;
     isGenerating := isGenerating state;
     lastAIResponse := lastAIResponse state;
     suggestions := suggestions state |}.

Definition setIsGenerating (g : bool) (state : AppState) : AppState :=
  {| currentComponents := currentComponents state;
     isLoading := isLoading state;
     error := error state;
     isGenerating := g;
     lastAIResponse := lastAIResponse state;
     suggestions := suggestions state |}.

Definition updateComponent (componentId : string) (updates : PartialUIComponent)
    (state : AppState) : AppState :=
  setComponents
    (map (λ c, if bool_decide (id c = componentId) then spread c updates else c)
         (currentComponents state))
    state.

Definition removeComponent (componentId : string) (state : AppState) : AppState :=
  setComponents (filter (λ c, id c ≠ componentId) (currentComponents state)) state.

Definition insertComponentAfter (targetComponentId : string) (newComponent : UIComponent)
    (state : AppState) : AppState :=
  let targetIndex :=
    findIndex (λ c, bool_decide (id c = targetComponentId)) (currentComponents state) in
  let newComponents :=
    if negb (targetIndex =? -1)
    then spliceInsert (targetIndex + 1) newComponent (currentComponents state)
    else currentComponents state ++ [newComponent] in
  setComponents newComponents state.

(** The replacement step of [generatePlaceholder]:
    [currentComponents.flatMap(comp => comp.id === placeholder.id ? newComponents : [comp])]. *)
Definition replacePlaceholder (currentComponents : list UIComponent)
    (placeholderId : string) (newComponents : list UIComponent) : list UIComponent :=
  flat_map (λ comp, if bool_decide (id comp = placeholderId) then newComponents else [comp])
           currentComponents.

(** What [MultiAgentUIGenerator.generateUI] hands back to the store. *)
Record Generated := mkGenerated {
  g_components : list UIComponent;
  g_success : bool
}.

Section Placeholder.
(** [String.prototype.replace(pattern, replacement)] with a string
    pattern, and the generator run on the final prompt. *)
Variable String_replace : string → string → string → string.
Variable generateUI : string → Outcome Generated.

(** [generatePlaceholder(placeholder, inputValue)], for an [inputValue]
    that is a string or missing. *)
Definition generatePlaceholder (placeholder : UIPlaceholder)
    (inputValue : option string) (state : AppState) : AppState :=
  let currentComponents := currentComponents state in
  let state := setError None (setIsGenerating true state) in
  let basePrompt := generationPrompt placeholder in
  let finalPrompt := String_replace basePrompt "{{userInput}}" (optOr inputValue "") in
  let attempt : Outcome (list UIComponent) :=
    match generateUI finalPrompt with
    | Ok g =>
        if negb (g_success g) then Throw (ErrorObj "Placeholder generation failed")
        else Ok (replacePlaceholder currentComponents (placeholderId placeholder)
                   (g_components g))
    | Throw e => Throw e
    end in
  match attempt with
  | Ok updatedComponents => setIsGenerating false (setComponents updatedComponents state)
  | Throw e =>
      setIsGenerating false
        (setError (Some (messageOr "Failed to generate placeholder" e)) state)
  end.
End Placeholder.

End AppStore.

(** ** The five-stage generator, [services/multiAgentGenerator.ts] *)
Module MultiAgentGenerator.
Import AIService.

Inductive StepStatus := pending | running | completed | failed.

(** The values the five stages store in [step.result]. *)
Inductive StepResult :=
| RAnalysis (analysis : ComponentAnalysis)
| RAvailability (available unavailable : list string)
| RFetched (results : list FetchResult)
| RText (text : string)
| RComponents (components : list UIComponent).

Record GenerationStep := mkStep {
  step : Z;
  description : string;
  status : StepStatus;
  result : option StepResult;
  error : option string;
  retryCount : option Z
}.

Record UIGenerationContext := mkContext {
  userPrompt : string;
  analyzedComponents : option ComponentAnalysis;
  availableComponents : list string;
  generatedCode : string;
  steps : list GenerationStep
}.

Record GenerationOutput := mkOutput {
  components : list UIComponent;
  context : UIGenerationContext;
  success : bool
}.

Definition maxRetries : Z := 3.

Definition setSteps (f : list GenerationStep → list GenerationStep)
    (c : UIGenerationContext) : UIGenerationContext :=
  {| userPrompt := userPrompt c;
     analyzedComponents := analyzedComponents c;
     availableComponents := availableComponents c;
     generatedCode := generatedCode c;
     steps := f (steps c) |}.

Definition setAnalyzedComponents (a : ComponentAnalysis)
    (c : UIGenerationContext) : UIGenerationContext :=
  {| userPrompt := userPrompt c;
     analyzedComponents := Some a;
     availableComponents := availableComponents c;
     generatedCode := generatedCode c;
     steps := steps c |}.

Definition setAvailableComponents (a : list string)
    (c : UIGenerationContext) : UIGenerationContext :=
  {| userPrompt := userPrompt c;
     analyzedComponents := analyzedComponents c;
     availableComponents := a;
     generatedCode := generatedCode c;
     steps := steps c |}.

Definition setGeneratedCode (code : string)
    (c : UIGenerationContext) : UIGenerationContext :=
  {| userPrompt := userPrompt c;
     analyzedComponents := analyzedComponents c;
     availableComponents := availableComponents c;
     generatedCode := code;
     steps := steps c |}.

(** [step.status = 'running'; step.retryCount = retryCount]. *)
Definition markRunning (retryCount : Z) (s : GenerationStep) : GenerationStep :=
  {| step := step s; description := description s; status := running;
     result := result s; error := error s; retryCount := Some retryCount |}.

(** [step.status = 'completed'; step.result = result]. *)
Definition markCompleted (r : StepResult) (s : GenerationStep) : GenerationStep :=
  {| step := step s; description := description s; status := completed;
     result := Some r; error := error s; retryCount := retryCount s |}.

(** [step.status = 'failed'; step.error = errorMessage]. *)
Definition markFailed (errorMessage : string) (s : GenerationStep) : GenerationStep :=
  {| step := step s; description := description s; status := failed;
     result := result s; error := Some errorMessage; retryCount := retryCount s |}.

(** [new Set(xs)] spread back into an array: the first occurrence of
    every element, in order. *)
Fixpoint uniqueFrom (seen : list string) (xs : list string) : list string :=
  match xs with
  | [] => []
  | x :: rest =>
      if bool_decide (x ∈ seen) then uniqueFrom seen rest
      else x :: uniqueFrom (x :: seen) rest
  end.
Definition unique (xs : list string) : list string := uniqueFrom [] xs.




Section WithEnvironment.
Context `{Env : Environment}.

(** The state of a run: the [context] object and the world around. *)
Record RunState := mkRunState {
  ctx : UIGenerationContext;
  world : World
}.

Definition G (A : Type) : Type := M RunState A.

(** A call into the world that leaves the context alone. *)
Definition inWorld {A} (m : M World A) : G A :=
  λ s, let '(r, w) := m (world s) in (r, {| ctx := ctx s; world := w |}).

Definition updateContext (f : UIGenerationContext → UIGenerationContext) : G unit :=
  modify (λ s, {| ctx := f (ctx s); world := world s |}).

Definition getContext : G UIGenerationContext :=
  let! s := get in ret (ctx s).

(** An assignment to a property of [context.steps[stepIndex]]; the
    access throws a [TypeError] when there is no such step. *)
Definition TypeError : Thrown := ErrorObj "TypeError".

Definition updateStep (stepIndex : nat) (f : GenerationStep → GenerationStep) : G unit :=
  let! c := getContext in
  match steps c !! stepIndex with
  | Some _ => updateContext (setSteps (alter f stepIndex))
  | None => throw TypeError
  end.

(** [executeStep], by recursion on the retries that remain:
    [retriesLeft] stands for [maxRetries - 1 - retryCount], so that
    [retryCount < maxRetries - 1] reads [retriesLeft > 0]. *)
Fixpoint executeStepFrom {T} (retriesLeft : nat) (asResult : T → StepResult)
    (stepIndex : nat) (operation : G T) (retryCount : Z) : G T :=
  let! _ := updateStep stepIndex (markRunning retryCount) in
  tryCatch
    (let! result := operation in
     let! _ := updateStep stepIndex (markCompleted (asResult result)) in
     ret result)
    (λ error,
       let errorMessage := messageOr "Unknown error" error in
       match retriesLeft with
       | S retriesLeft' =>
           executeStepFrom retriesLeft' asResult stepIndex operation (retryCount + 1)
       | O =>
           let! _ := updateStep stepIndex (markFailed errorMessage) in
           throw error
       end).

Definition executeStep {T} (asResult : T → StepResult) (stepIndex : nat)
    (operation : G T) (retryCount : Z) : G T :=
  executeStepFrom (Z.to_nat (maxRetries - 1 - retryCount)) asResult stepIndex
    operation retryCount.

Definition generateComponentCode : G string :=
  let! c := getContext in
  match analyzedComponents c with
  | None => throw (ErrorObj "Cannot generate code without component analysis.")
  | Some analysis =>
      let! components :=
        inWorld (generateCode
                   {| ci_userPrompt := userPrompt c;
                      ci_componentAnalysis := analysis;
                      ci_availableComponents := availableComponents c |}) in
      ret (JSON_stringify_components components)
  end.

Definition fallbackComponent (now : Z) (iso : string) (c : UIGenerationContext)
  : UIComponent :=
  mkUIComponent
    ("fallback-" +:+ pretty now)
    "card"
    [ ("title", JString "Assembly Error");
      ("content",
       JString ("Failed to assemble UI components. Raw output was: " +:+ generatedCode c));
      ("className", JString "border-red-500 bg-red-50 text-red-900") ]
    None
    (Some {| generated_at := iso; prompt := Some (userPrompt c); version := Some 1 |}).

Definition assembleComponents : G (list UIComponent) :=
  let! c := getContext in
  match JSON_parse_components (generatedCode c) with
  | Ok components => ret components
  | Throw _ =>
      let! now := inWorld (λ w, let '(n, w') := Date_now w in (Ok n, w')) in
      let! iso := inWorld (λ w, let '(t, w') := Date_toISOString w in (Ok t, w')) in
      ret [fallbackComponent now iso c]
  end.

Definition initialSteps : list GenerationStep :=
  [ mkStep 1 "Analyze UI requirements" pending None None None;
    mkStep 2 "Check component availability" pending None None None;
    mkStep 3 "Fetch missing components" pending None None None;
    mkStep 4 "Generate component code" pending None None None;
    mkStep 5 "Validate and assemble UI" pending None None None ].

Definition initialContext (userPrompt : string) : UIGenerationContext :=
  {| userPrompt := userPrompt;
     analyzedComponents := None;
     availableComponents := [];
     generatedCode := "";
     steps := initialSteps |}.

(** Step 1. *)
Definition analyzeOperation (userPrompt : string) : G ComponentAnalysis :=
  let! analysis := inWorld (analyzeComponents userPrompt) in
  let! _ := updateContext (setAnalyzedComponents analysis) in
  ret analysis.

(** Step 2. *)
Definition availabilityOperation : G (list string * list string) :=
  let! c := getContext in
  match analyzedComponents c with
  | None => throw (ErrorObj "No analyzed components available")
  | Some analysis =>
      let allRequired := requiredComponents analysis in
      let allCompositeShadcn := flat_map co_components (compositeComponents analysis) in
      let allComponents := unique (allRequired ++ allCompositeShadcn) in
      let available := List.filter isComponentAvailable allComponents in
      let unavailable :=
        List.filter (λ comp, negb (isComponentAvailable comp)) allComponents in
      let! _ := updateContext (setAvailableComponents available) in
      ret (available, unavailable)
  end.

(** Step 4. *)
Definition codeOperation : G string :=
  let! code := generateComponentCode in
  let! _ := updateContext (setGeneratedCode code) in
  ret code.

(** The body of the [try] block of [generateUI]. *)
Definition pipeline (userPrompt : string) : G (list UIComponent) :=
  let! _ := executeStep RAnalysis 0 (analyzeOperation userPrompt) 0 in
  let! _ := executeStep (λ r, RAvailability r.1 r.2) 1 availabilityOperation 0 in
  let! c := getContext in
  let! unavailable :=
    match steps c !! 1%nat with
    | Some s =>
        match result s with
        | Some (RAvailability _ unavailable) => ret unavailable
        | _ => throw TypeError
        end
    | None => throw TypeError
    end in
  let! _ :=
    if (0 <? Z.of_nat (length unavailable)) then
      let! _ := executeStep RFetched 2 (inWorld (fetchComponents unavailable)) 0 in
      ret tt
    else
      updateStep 2 (markCompleted (RText "No components to fetch")) in
  let! _ := executeStep RText 3 codeOperation 0 in
  let! components := executeStep RComponents 4 assembleComponents 0 in
  ret components.


Definition generateUI (userPrompt : string) (w : World) : GenerationOutput * World :=
  match pipeline userPrompt {| ctx := initialContext userPrompt; world := w |} with
  | (Ok components, s) =>
      ({| components := components; context := ctx s; success := true |}, world s)
  | (Throw _, s) =>
      ({| components := []; context := ctx s; success := false |}, world s)
  end.

End WithEnvironment.
End MultiAgentGenerator.

(** ** The running application: store, log and outside world *)
Module App.
Import AppStore.

Inductive Level := INFO | WARN | ERROR | DEBUG.

(** One call to [logger]: level, module and message (the data object a
    call may carry is left out). *)
Record LogEntry := mkLog {
  level : Level;
  module : string;
  message : string
}.

Section WithEnvironment.
Context `{Env : Environment}.

Record AppWorld := mkAppWorld {
  store : AppState;
  log : list LogEntry;
  ext : World
}.

Definition H (A : Type) : Type := M AppWorld A.

Definition logger (l : Level) (module message : string) : H unit :=
  modify (λ s, {| store := store s;
                  log := log s ++ [mkLog l module message];
                  ext := ext s |}).

(** [useAppStore.getState()]. *)
Definition getState : H AppState :=
  let! s := get in ret (store s).

(** A store action. *)
Definition dispatch (action : AppState → AppState) : H unit :=
  modify (λ s, {| store := action (store s); log := log s; ext := ext s |}).

(** A call into the outside world. *)
Definition inExt {A} (m : M World A) : H A :=
  λ s, let '(r, w) := m (ext s) in
       (r, {| store := store s; log := log s; ext := w |}).

(** A reading of the clock. *)
Definition toISOString : H string :=
  inExt (λ w, let '(t, w') := Date_toISOString w in (Ok t, w')).

End WithEnvironment.
End App.

(** ** [captureContext] of [lib/contextManager.ts] *)
Module CaptureContext.
Import ContextManager AppStore App.

Section WithEnvironment.
Context `{Env : Environment}.

Definition captureContext (elementId : string) (event : Event) : H FullContext :=
  let! _ := logger INFO "ContextManager"
              ("Capturing context for recursive event on element: " +:+ elementId) in
  let! s := get in
  match getElementById elementId (ext s) with
  | None =>
      let! _ := logger ERROR "ContextManager"
                  ("Could not find element with ID: " +:+ elementId) in
      throw (ErrorObj ("Element with ID " +:+ elementId
                       +:+ " not found for context capture."))
  | Some element =>
      let! state := getState in
      let userInput := targetValue event in
      let! _ := logger DEBUG "ContextManager" "Capturing full context" in
      let! now1 := toISOString in
      let! s' := get in
      let win := window (ext s') in
      let! now2 := toISOString in
      ret (captureFull now1 now2 win element (currentComponents state) userInput None)
  end.

End WithEnvironment.
End CaptureContext.

(** ** Cache lookup and store of [services/cacheService.ts] *)
Module RecursiveCache.
Import ContextManager CacheService App.

Section WithEnvironment.
Context `{Env : Environment}.

Definition cacheRecursiveResult (context : FullContext) (result : RecursiveResult)
  : H unit :=
  let cacheKey := createCacheKey context in
  let! now := toISOString in
  let cacheEntry :=
    {| ce_ui := ui result; ce_metadata := rr_metadata result; createdAt := now |} in
  tryCatch
    (let! _ := inExt (storage_setItem cacheKey cacheEntry) in
     logger INFO "CacheService"
       ("Successfully cached recursive result with key: " +:+ cacheKey))
    (λ _, logger ERROR "CacheService" "Failed to cache recursive result").

Definition getCachedRecursiveResult (context : FullContext)
  : H (option RecursiveCacheEntry) :=
  let cacheKey := createCacheKey context in
  tryCatch
    (let! cachedItem := inExt (storage_getItem cacheKey) in
     match cachedItem with
     | Some entry =>
         let! _ := logger INFO "CacheService"
                     ("Found cached recursive result for key: " +:+ cacheKey) in
         ret (Some entry)
     | None =>
         let! _ := logger INFO "CacheService"
                     ("No cache entry found for key: " +:+ cacheKey) in
         ret None
     end)
    (λ _,
       let! _ := logger ERROR "CacheService" "Failed to retrieve cached result" in
       ret None).

End WithEnvironment.
End RecursiveCache.

(** ** Placement, [services/uiOrchestrator.ts] *)
Module UIOrchestrator.
Import AppStore App.

Section WithEnvironment.
Context `{Env : Environment}.

(** [insertRecursiveUI]: nothing is placed when the component is
    missing ([!component]) or the target id is empty
    ([!targetElementId]). *)
Definition insertRecursiveUI (component : option UIComponent) (targetElementId : string)
  : H unit :=
  match component, truthy targetElementId with
  | Some component, true =>
      tryCatch
        (let! _ := dispatch (insertComponentAfter targetElementId component) in
         logger INFO "UIOrchestrator"
           ("Successfully inserted component " +:+ id component
            +:+ " after " +:+ targetElementId +:+ "."))
        (λ _, logger ERROR "UIOrchestrator"
                ("Failed to insert component " +:+ id component +:+ "."))
  | _, _ =>
      logger ERROR "UIOrchestrator" "Invalid component or targetElementId for insertion."
  end.

End WithEnvironment.
End UIOrchestrator.

(** ** Handler resolution, [lib/functionResolver.ts] *)
Module FunctionResolver.
Import ContextManager AppStore App AIService CaptureContext RecursiveCache UIOrchestrator.

(** A function value: one of the handlers written in the registry
    literal, a function made elsewhere (told apart by a reference), a
    handler made by [createRecursiveHandler] for the three values it
    closes over, or a function of the language run time, by the object
    that holds it and its name ([Object.prototype] and [toString]). *)
Inductive Callable :=
| Builtin (name : string)
| Foreign (ref : positive)
| Recursive (componentId elementId eventName : string)
| Native (holder name : string).

(** A value of unknown type: a property value of a component, or what a
    read of the registry object gives.  [PVObjectPrototype] is the
    object [Object.prototype], which is no function. *)
Inductive PropValue :=
| PVString (s : string)
| PVFunction (f : Callable)
| PVOther (v : JSON)
| PVUndefined
| PVObjectPrototype.

(** Truthiness, as [if (value)] decides it. *)
Definition truthyValue (value : PropValue) : bool :=
  match value with
  | PVString s => truthy s
  | PVFunction _ => true
  | PVOther JNull => false
  | PVOther (JBool b) => b
  | PVOther (JNumber n) => negb (n =? 0)
  | PVOther (JString s) => truthy s
  | PVOther _ => true
  | PVUndefined => false
  | PVObjectPrototype => true
  end.

Definition builtinNames : list string :=
  [ "noop"; "preventDefault"; "stopPropagation";
    "logClick"; "alertClick"; "consoleLog";
    "submitForm"; "logFormSubmit";
    "logChange"; "validateInput";
    "closeModal"; "openModal";
    "navigateHome"; "navigateBack";
    "performSearch";
    "logInteraction" ].

(** The prototype of the registry object: [Object.prototype], as for
    every object literal, or a function, once one was assigned under the
    name [__proto__]. *)
Inductive Prototype :=
| ObjectPrototype
| FunctionObject (f : Callable).

(** The registry is a plain object: the properties it owns, and its
    prototype, through which every other name is read. *)
Record Registry := mkRegistry {
  own : gmap string Callable;
  prototype : Prototype
}.

(** What the language run time decides about the registry's prototype
    chain, for the names other than [__proto__]. *)
Class Runtime := {
  (** Reading the name through the prototype: the inherited value,
      [PVUndefined] where there is none, or what an inherited getter
      throws. *)
  inherited : Prototype → string → Outcome PropValue;
  (** Whether assigning under a name the object does not own makes an
      own property.  Where it does not (the inherited property is
      read-only, or an accessor whose setter throws), the assignment
      throws a [TypeError], the module being strict code. *)
  shadows : Prototype → string → bool
}.

(** [functionRegistry] as first written: every name of the literal bound
    to its own handler, on an object literal. *)
Definition functionRegistry : Registry :=
  mkRegistry (list_to_map (map (λ name, (name, Builtin name)) builtinNames))
    ObjectPrototype.

(** What the resolution of the specification consults: the entries of
    the registry. *)
Definition entry (registry : Registry) (name : string) : option Callable :=
  own registry !! name.

Section WithRuntime.
Context `{Rt : Runtime}.

(** [functionRegistry[name]]: an own property first; [__proto__] is
    the accessor every object inherits and gives the prototype itself;
    any other name is read through the prototype. *)
Definition readProperty (registry : Registry) (name : string) : Outcome PropValue :=
  match own registry !! name with
  | Some f => Ok (PVFunction f)
  | None =>
      if bool_decide (name = "__proto__") then
        Ok match prototype registry with
           | ObjectPrototype => PVObjectPrototype
           | FunctionObject f => PVFunction f
           end
      else inherited (prototype registry) name
  end.

(** [functionRegistry[name] = fn]: an own property is overwritten;
    [__proto__] is the inherited accessor, whose setter makes the
    function the prototype and adds no property; any other name
    becomes an own property where the run time lets it. *)
Definition assignProperty (name : string) (fn : Callable) (registry : Registry)
  : Outcome unit * Registry :=
  match own registry !! name with
  | Some _ => (Ok tt, mkRegistry (<[name := fn]> (own registry)) (prototype registry))
  | None =>
      if bool_decide (name = "__proto__") then
        (Ok tt, mkRegistry (own registry) (FunctionObject fn))
      else if shadows (prototype registry) name then
        (Ok tt, mkRegistry (<[name := fn]> (own registry)) (prototype registry))
      else (Throw (ErrorObj "TypeError"), registry)
  end.

(** [registerFunction(name, fn)] for a string [name] and a function
    [fn]: the outcome of the call and the registry it leaves. *)
Definition registerFunction (name : string) (fn : Callable) (registry : Registry)
  : Outcome unit * Registry :=
  assignProperty name fn registry.

(** [resolveEventHandler]: the registry is read first, for a string
    value, and what the read gives is returned when it is truthy; then
    a function value is taken as it is; anything else gets a recursive
    fallback handler. *)
Definition resolveEventHandler (registry : Registry)
    (propName : string) (propValue : PropValue)
    (componentId elementId : string) : Outcome PropValue :=
  let otherwise :=
    match propValue with
    | PVFunction f => Ok (PVFunction f)
    | _ => Ok (PVFunction (Recursive componentId elementId propName))
    end in
  match propValue with
  | PVString s =>
      match readProperty registry s with
      | Throw e => Throw e
      | Ok found => if truthyValue found then readProperty registry s else otherwise
      end
  | _ => otherwise
  end.

End WithRuntime.

(** The resolution order as the specification words it. *)
Definition resolveBySpec (registry : Registry)
    (eventName : string) (declaredValue : PropValue)
    (componentId elementId : string) : Callable :=
  match declaredValue with
  | PVFunction f => f
  | PVString s =>
      match entry registry s with
      | Some registered => registered
      | None => Recursive componentId elementId eventName
      end
  | _ => Recursive componentId elementId eventName
  end.

(** What a handler is called with: an event, or a value that has no
    [preventDefault], as the query the search bar passes to [onSearch]
    and the form data the form passes to [onSubmit]. *)
Inductive Argument :=
| EventArgument (event : Event)
| OtherArgument.

Section WithEnvironment.
Context `{Env : Environment}.

Definition generateRecursiveUI (prompt : FullContext) : H RecursiveResult :=
  tryCatch
    (inExt (generateRecursive prompt))
    (λ error,
       let! _ := logger ERROR "AIService" "Recursive UI generation failed" in
       throw error).

(** The [try] block of the handler [createRecursiveHandler] returns.
    Reading [metadata.componentId] of an answer without [metadata]
    throws. *)
Definition recursiveBody (componentId elementId : string) (event : Event) : H unit :=
  let! context := captureContext elementId event in
  let! _ := logger DEBUG "FunctionResolver" "Captured context for recursive generation" in
  let! cachedResult := getCachedRecursiveResult context in
  match cachedResult with
  | Some cached =>
      let! _ := logger INFO "FunctionResolver" "Using cached recursive UI" in
      insertRecursiveUI (ce_ui cached) componentId
  | None =>
      let prompt := buildFallbackPrompt context in
      let! _ := logger DEBUG "FunctionResolver" "Built fallback prompt" in
      let! generated := generateRecursiveUI prompt in
      match rr_metadata generated with
      | None => throw (ErrorObj "TypeError")
      | Some metadata =>
          let! _ := logger INFO "FunctionResolver"
                      "Received recursive UI from AI service" in
          let! _ := insertRecursiveUI (ui generated) componentId in
          let! _ := logger DEBUG "FunctionResolver"
                      "Inserted recursive UI into orchestrator" in
          let! _ := cacheRecursiveResult context
                      {| ui := ui generated; rr_metadata := Some metadata |} in
          logger DEBUG "FunctionResolver" "Cached recursive generation result"
      end
  end.

Definition handlerError : App.LogEntry :=
  mkLog ERROR "FunctionResolver" "Error during recursive UI generation".

(** The first entry the handler logs; [entered] is the state it leaves. *)
Definition announce (componentId elementId eventName : string) : H unit :=
  logger INFO "FunctionResolver"
    ("Recursive handler triggered for " +:+ eventName +:+ " on "
     +:+ componentId +:+ ":" +:+ elementId).

Definition entered (componentId elementId eventName : string) (s : AppWorld)
  : AppWorld :=
  (announce componentId elementId eventName s).2.

(** The handler itself.  Its first two statements,
    [event.preventDefault()] and [event.stopPropagation()], stand
    before the [try]: on an event they act on the browser's own
    dispatch only, on any other argument the first of them throws. *)
Definition createRecursiveHandler (componentId elementId eventName : string)
    (argument : Argument) : H unit :=
  match argument with
  | OtherArgument => throw (ErrorObj "TypeError")
  | EventArgument event =>
      let! _ := announce componentId elementId eventName in
      tryCatch
        (recursiveBody componentId elementId event)
        (λ _, logger ERROR "FunctionResolver" "Error during recursive UI generation")
  end.

(** What calling a function value does, for the function values whose
    code is in this module: a recursive handler runs the handler that
    [createRecursiveHandler] builds for its three values. *)
Definition behaviour (f : Callable) : option (Argument → H unit) :=
  match f with
  | Recursive componentId elementId eventName =>
      Some (createRecursiveHandler componentId elementId eventName)
  | _ => None
  end.

End WithEnvironment.
End FunctionResolver.

(** ** The patch queue, [services/patchService.ts] *)
Module PatchService.
Import AppStore.

Record PatchRequest := mkRequest {
  componentId : string;
  req_error : string
}.

(** The calls to [logger] that mark the life of a request: the message of
    [queuePatch], [startOperation] and [endOperation]. *)
Inductive PatchLog :=
| LQueued (componentId error : string)
| LStart (componentId : string)
| LEnd (componentId : string) (success : bool).

(** [findComponent]: depth-first search by id; the children that are not
    strings (components and placeholders) are searched as components, a
    placeholder having no children of its own. *)
Fixpoint findInComponent (target : string) (c : UIComponent) {struct c} : option UIChild :=
  match c with
  | mkUIComponent i _ _ chs _ =>
      if bool_decide (i = target) then Some (ChildComponent c)
      else
        match chs with
        | None => None
        | Some l =>
            (fix findInChildren (l : list UIChild) : option UIChild :=
               match l with
               | [] => None
               | ch :: rest =>
                   let here :=
                     match ch with
                     | ChildComponent c' => findInComponent target c'
                     | ChildText _ => None
                     | ChildPlaceholder p =>
                         if bool_decide (placeholderId p = target) then Some ch else None
                     end in
                   match here with
                   | Some found => Some found
                   | None => findInChildren rest
                   end
               end) l
        end
  end.

Fixpoint findComponent (components : list UIComponent) (target : string)
  : option UIChild :=
  match components with
  | [] => None
  | c :: rest =>
      match findInComponent target c with
      | Some found => Some found
      | None => findComponent rest target
      end
  end.

(** The service and the store it patches.  [awaiting] holds the calls of
    [processQueue] that are suspended at [await attemptFix(...)], each
    with the request it took from the queue. *)
Record Service := mkService {
  patchQueue : list PatchRequest;
  isProcessing : bool;
  awaiting : list PatchRequest;
  appState : AppState;
  patchLog : list PatchLog
}.

Definition initial (state : AppState) : Service :=
  {| patchQueue := []; isProcessing := false; awaiting := [];
     appState := state; patchLog := [] |}.

Definition logged (e : PatchLog) (s : Service) : Service :=
  {| patchQueue := patchQueue s; isProcessing := isProcessing s;
     awaiting := awaiting s; appState := appState s;
     patchLog := patchLog s ++ [e] |}.

Definition setProcessing (b : bool) (s : Service) : Service :=
  {| patchQueue := patchQueue s; isProcessing := b;
     awaiting := awaiting s; appState := appState s;
     patchLog := patchLog s |}.

Definition setQueue (q : list PatchRequest) (s : Service) : Service :=
  {| patchQueue := q; isProcessing := isProcessing s;
     awaiting := awaiting s; appState := appState s;
     patchLog := patchLog s |}.

Definition setAwaiting (a : list PatchRequest) (s : Service) : Service :=
  {| patchQueue := patchQueue s; isProcessing := isProcessing s;
     awaiting := a; appState := appState s;
     patchLog := patchLog s |}.

Definition setAppState (st : AppState) (s : Service) : Service :=
  {| patchQueue := patchQueue s; isProcessing := isProcessing s;
     awaiting := awaiting s; appState := st;
     patchLog := patchLog s |}.

(** [processQueue] from the test of the queue on, once [isProcessing] is
    known to be false; [queue] is [patchQueue s].  The call runs until it
    either returns or suspends at [await]. *)
Fixpoint processQueueFrom (queue : list PatchRequest) (s : Service) : Service :=
  match queue with
  | [] => s
  | request :: rest =>
      let s := setProcessing true s in
      let s := setQueue rest s in
      let s := logged (LStart (componentId request)) s in
      match findComponent (currentComponents (appState s)) (componentId request) with
      | None =>
          let s := setProcessing false s in
          let s := logged (LEnd (componentId request) false) s in
          processQueueFrom rest s
      | Some _ =>
          setAwaiting (awaiting s ++ [request]) s
      end
  end.

Definition processQueue (s : Service) : Service :=
  if isProcessing s then s else processQueueFrom (patchQueue s) s.

Definition queuePatch (componentId error : string) (s : Service) : Service :=
  let s := logged (LQueued componentId error) s in
  let s := setQueue (patchQueue s ++ [mkRequest componentId error]) s in
  processQueue s.

Section WithEnvironment.
Context `{Env : Environment}.

(** The rest of [processQueue] after [await attemptFix(...)] has
    answered [fixedComponentString] ([None] for [null]). *)
Definition resume (request : PatchRequest) (fixedComponentString : option string)
    (s : Service) : Service :=
  let fixed := match fixedComponentString with
               | Some text => truthy text
               | None => false
               end in
  let s :=
    match fixedComponentString with
    | Some text =>
        if truthy text then
          match JSON_parse_component text with
          | Ok patchedComponent =>
              setAppState
                (updateComponent (componentId request) patchedComponent (appState s)) s
          | Throw _ => s
          end
        else s
    | None => s
    end in
  let s := logged (LEnd (componentId request) fixed) s in
  let s := setProcessing false s in
  processQueue s.

(** What can happen to the service: a request is queued, the fix
    awaited by the [n]-th suspended call arrives, or another part of
    the application changes the store. *)
Inductive Event :=
| Queue (componentId error : string)
| Fixed (n : nat) (fixedComponentString : option string)
| StoreChanged (state : AppState).

Definition react (s : Service) (e : Event) : Service :=
  match e with
  | Queue componentId error => queuePatch componentId error s
  | Fixed n fixedComponentString =>
      match awaiting s !! n with
      | Some request =>
          resume request fixedComponentString (setAwaiting (delete n (awaiting s)) s)
      | None => s
      end
  | StoreChanged state => setAppState state s
  end.

Definition run (events : list Event) (s : Service) : Service :=
  fold_left react events s.

End WithEnvironment.





End PatchService.

(** ** Concrete inputs used by examples and counterexamples *)
Module Samples.
Import ContextManager CacheService AppStore.

Definition card (i : string) : UIComponent := mkUIComponent i "card" [] None None.

Definition button : Element :=
  mkElement "btn-1" "BUTTON" "" None (ButtonElement "button" false).

Definition desktop : Window := mkWindow 1280 720 "agent-a".
Definition phone : Window := mkWindow 390 844 "agent-b".

(** Two captures of one trigger over the same two components, listed in
    one order and in the other. *)
Definition ctx_ab : FullContext :=
  captureFull "t1" "t1" desktop button [card "a"; card "b"] None None.
Definition ctx_ba : FullContext :=
  captureFull "t2" "t2" desktop button [card "b"; card "a"] None None.

(** A later capture of the first, in another viewport. *)
Definition ctx_ab_later : FullContext :=
  captureFull "t3" "t4" phone button [card "a"; card "b"] None None.

Definition placeholder : UIPlaceholder :=
  mkUIPlaceholder "ph-1" "Build {{userInput}}" (card "trigger") (Some onClick).

(** A tree whose only placeholder sits inside a container. *)
Definition nested : list UIComponent :=
  [ mkUIComponent "box" "div" [] (Some [ChildPlaceholder placeholder]) None ].

Definition emptyState (cs : list UIComponent) : AppState :=
  mkAppState cs false None false None [].
End Samples.

(** ** A small concrete environment *)
Module Demo.
Import ContextManager Samples.

Definition emptyAnalysis : ComponentAnalysis := mkAnalysis [] [] [] "none".

Definition refusal : string := "Sorry, I can't do that.".

Definition generated : RecursiveResult :=
  mkRecursiveResult (Some (card "recursive-1"))
    (Some (mkRecursiveMetadata "recursive-1" "follow-up")).

(** The world counts the chain invocations made so far.  The code
    generator answers with a refusal, the recursive generator with one
    card; [JSON.parse] accepts the empty array and that card's text and
    rejects everything else, [JSON.stringify] having only the empty array
    to print; the document holds one button; the cache is empty; the
    analyzer fails when [analyzerFails] is set. *)
Definition env (analyzerFails : bool) : Environment :=
  {| World := nat;
     invoke := λ call w,
       match call with
       | codeGeneratorChain _ => (Ok refusal, S w)
       | recursiveGeneratorChain _ => (Ok "{card}", S w)
       end;
     JSON_parse_components := λ text,
       if bool_decide (text = "[]") then Ok []
       else Throw (ErrorObj "Unexpected token");
     JSON_parse_recursive := λ text,
       if bool_decide (text = "{card}") then Ok generated
       else Throw (ErrorObj "Unexpected token");
     JSON_parse_component := λ _, Throw (ErrorObj "Unexpected token");
     JSON_stringify_components := λ _, "[]";
     Date_now := λ w, (0, w);
     Date_toISOString := λ w, ("2025-01-01T00:00:00.000Z", w);
     getElementById := λ i _, if bool_decide (i = "btn-1") then Some button else None;
     window := λ _, desktop;
     storage_getItem := λ _ w, (Ok None, w);
     storage_setItem := λ _ _ w, (Ok tt, w);
     analyzeComponents := λ _ w,
       if analyzerFails then (Throw (ErrorObj "network down"), w)
       else (Ok emptyAnalysis, w);
     isComponentAvailable := λ _, true;
     fetchComponents := λ _ w, (Ok [], w) |}.

(** The same with a model that is down (every invocation of a chain is
    rejected), and with a cache that holds one entry under every key. *)
Definition offline : Environment :=
  {| World := nat;
     invoke := λ _ w, (Throw (ErrorObj "503 Service Unavailable"), S w);
     JSON_parse_components := JSON_parse_components (Environment := env false);
     JSON_parse_recursive := JSON_parse_recursive (Environment := env false);
     JSON_parse_component := JSON_parse_component (Environment := env false);
     JSON_stringify_components := JSON_stringify_components (Environment := env false);
     Date_now := Date_now (Environment := env false);
     Date_toISOString := Date_toISOString (Environment := env false);
     getElementById := getElementById (Environment := env false);
     window := window (Environment := env false);
     storage_getItem := storage_getItem (Environment := env false);
     storage_setItem := storage_setItem (Environment := env false);
     analyzeComponents := analyzeComponents (Environment := env false);
     isComponentAvailable := isComponentAvailable (Environment := env false);
     fetchComponents := fetchComponents (Environment := env false) |}.



Definition click : Event := mkEvent None.

(** A run time for the examples, with the standard properties of the two
    prototypes the registry can have.  [Object.prototype] holds eleven
    functions, all writable, so any name can be shadowed.  Through a
    function are read its own [length] and [name], which are read-only;
    [caller] and [arguments], whose accessors throw; the functions of
    [Function.prototype]; and then those of [Object.prototype]. *)
Definition objectPrototypeFunctions : list (string * Z) :=
  [ ("hasOwnProperty", 1); ("isPrototypeOf", 1); ("propertyIsEnumerable", 1);
    ("toLocaleString", 0); ("toString", 0); ("valueOf", 0);
    ("__defineGetter__", 2); ("__defineSetter__", 2);
    ("__lookupGetter__", 1); ("__lookupSetter__", 1) ].

Definition functionPrototypeFunctions : list (string * Z) :=
  [ ("apply", 2); ("bind", 1); ("call", 1); ("toString", 0) ].

Definition readObjectPrototype (name : string) : FunctionResolver.PropValue :=
  if bool_decide (name = "constructor")
  then FunctionResolver.PVFunction (FunctionResolver.Native "" "Object")
  else if bool_decide (name ∈ map fst objectPrototypeFunctions)
  then FunctionResolver.PVFunction (FunctionResolver.Native "Object.prototype" name)
  else FunctionResolver.PVUndefined.

(** The number of parameters a function declares, and its name: a
    handler of the registry literal is named by its key, the handler
    [createRecursiveHandler] returns is an anonymous function of one
    parameter, and the functions the examples make elsewhere are
    anonymous arrow functions without parameters. *)
Definition arity (f : FunctionResolver.Callable) : Z :=
  match f with
  | FunctionResolver.Builtin name =>
      if bool_decide (name = "logInteraction") then 2
      else if bool_decide (name ∈ ["noop"; "alertClick"; "closeModal"; "openModal";
                                    "navigateHome"; "navigateBack"]) then 0
      else 1
  | FunctionResolver.Foreign _ => 0
  | FunctionResolver.Recursive _ _ _ => 1
  | FunctionResolver.Native _ name =>
      if bool_decide (name ∈ ["Object"; "Function"]) then 1
      else default 0 (list_to_map (M := gmap string Z)
                        (functionPrototypeFunctions ++ objectPrototypeFunctions) !! name)
  end.

Definition nameOf (f : FunctionResolver.Callable) : string :=
  match f with
  | FunctionResolver.Builtin name => name
  | FunctionResolver.Native _ name => name
  | _ => ""
  end.

Definition readFunction (f : FunctionResolver.Callable) (name : string)
  : Outcome FunctionResolver.PropValue :=
  if bool_decide (name ∈ ["caller"; "arguments"]) then Throw (ErrorObj "TypeError")
  else if bool_decide (name = "length")
  then Ok (FunctionResolver.PVOther (JNumber (arity f)))
  else if bool_decide (name = "name") then Ok (FunctionResolver.PVString (nameOf f))
  else if bool_decide (name = "constructor")
  then Ok (FunctionResolver.PVFunction (FunctionResolver.Native "" "Function"))
  else if bool_decide (name ∈ map fst functionPrototypeFunctions)
  then Ok (FunctionResolver.PVFunction (FunctionResolver.Native "Function.prototype" name))
  else Ok (readObjectPrototype name).

Definition browser : FunctionResolver.Runtime :=
  {| FunctionResolver.inherited := λ proto name,
       match proto with
       | FunctionResolver.ObjectPrototype => Ok (readObjectPrototype name)
       | FunctionResolver.FunctionObject f => readFunction f name
       end;
     FunctionResolver.shadows := λ proto name,
       match proto with
       | FunctionResolver.ObjectPrototype => true
       | FunctionResolver.FunctionObject _ =>
           negb (bool_decide (name ∈ ["length"; "name"; "caller"; "arguments"]))
       end |}.

Definition start `{Env : Environment} (cs : list UIComponent) (w : World) : App.AppWorld :=
  App.mkAppWorld (emptyState cs) [] w.
End Demo.


(** ** More of the store, [store/appStore.ts] *)
Module StoreActions.
Import AppStore.

(** Where [splice(start, 0, x)] inserts in an array of length [len], for
    an integer [start]: a negative [start] counts from the end, and the
    place is kept within the array. *)
Definition spliceStart (len start : Z) : Z :=
  if start <? 0 then Z.max (len + start) 0 else Z.min start len.

(** [addComponent(component, position?)], for an integer [position]. *)
Definition addComponent (component : UIComponent) (position : option Z)
    (state : AppState) : AppState :=
  let newComponents :=
    match position with
    | Some p =>
        spliceInsert (spliceStart (Z.of_nat (length (currentComponents state))) p)
          component (currentComponents state)
    | None => currentComponents state ++ [component]
    end in
  setComponents newComponents state.

(** [clearError]. *)
Definition clearError (state : AppState) : AppState := setError None state.

End StoreActions.

(** ** String helpers of the resolver and the catalog *)
Module Text.

(** [[A-Z]] and [[a-z]] of a regular expression. *)
Definition isUpper (a : ascii) : bool :=
  let c := charCode a in (65 <=? c) && (c <=? 90).

Definition isLower (a : ascii) : bool :=
  let c := charCode a in (97 <=? c) && (c <=? 122).

(** [s.includes(sub)]. *)
Fixpoint includes (sub s : string) : bool :=
  if String.prefix sub s then true
  else match s with
       | EmptyString => false
       | String _ rest => includes sub rest
       end.

(** [s.endsWith(suffix)], which is what [/suffix$/] tests for a literal
    suffix. *)
Fixpoint endsWith (suffix s : string) : bool :=
  if String.eqb s suffix then true
  else match s with
       | EmptyString => false
       | String _ rest => endsWith suffix rest
       end.

(** [/^word[A-Z]/]: the word, then an upper-case letter. *)
Definition wordThenUpper (word s : string) : bool :=
  String.prefix word s &&
  match AiParsers.sdrop (String.length word) s with
  | String a _ => isUpper a
  | EmptyString => false
  end.

(** The single and the double quote. *)
Definition isQuote (a : ascii) : bool :=
  let c := charCode a in (c =? 39) || (c =? 34).

Fixpoint dropLastQuote (s : string) : string :=
  match s with
  | EmptyString => EmptyString
  | String a EmptyString => if isQuote a then EmptyString else s
  | String a rest => String a (dropLastQuote rest)
  end.

(** [s.replace(/^['"]|['"]$/g, '')]: a quote at the start goes, then a
    quote at the end of what is left. *)
Definition stripQuotes (s : string) : string :=
  dropLastQuote
    match s with
    | String a rest => if isQuote a then rest else s
    | EmptyString => EmptyString
    end.

(** [s.replace(/([a-z])([A-Z])/g, '$1-$2')]: a hyphen between a
    lower-case letter and the upper-case letter after it; a pair that
    matched is passed over as a whole. *)
Fixpoint hyphenate (s : string) : string :=
  match s with
  | EmptyString => EmptyString
  | String a rest =>
      match rest with
      | String b rest' =>
          if isLower a && isUpper b
          then String a (String (chr 45) (String b (hyphenate rest')))
          else String a (hyphenate rest)
      | EmptyString => String a EmptyString
      end
  end.

End Text.

(** ** Function properties, [lib/functionResolver.ts] *)
Module FunctionProperties.
Import FunctionResolver Text.

(** [isFunctionProperty]: the four patterns, any of them. *)
Definition isFunctionProperty (propertyName : string) : bool :=
  wordThenUpper "on" propertyName
  || wordThenUpper "handle" propertyName
  || endsWith "Handler" propertyName
  || endsWith "Callback" propertyName.

Section WithRuntime.
Context `{Rt : Runtime}.

(** [resolveFunction(functionName)] for a string: what the registry
    gives under the cleaned name when that is truthy, or the default
    handler the spelling suggests, or [noop]. *)
Definition resolveFunction (registry : Registry) (functionName : string)
  : Outcome PropValue :=
  let cleanName := stripQuotes (AiParsers.trim functionName) in
  match readProperty registry cleanName with
  | Throw e => Throw e
  | Ok found =>
      if truthyValue found then readProperty registry cleanName
      else if includes "click" cleanName || includes "Click" cleanName
      then readProperty registry "logClick"
      else if includes "submit" cleanName || includes "Submit" cleanName
      then readProperty registry "submitForm"
      else if includes "change" cleanName || includes "Change" cleanName
      then readProperty registry "logChange"
      else readProperty registry "noop"
  end.

(** The value [resolveFunctionProperties] stores under a key: for a
    string under a handler-like key what [resolveFunction] gives when
    that is truthy, the value itself in every other case. *)
Definition resolvedValue (registry : Registry) (key : string) (value : PropValue)
  : Outcome PropValue :=
  match value with
  | PVString s =>
      if isFunctionProperty key then
        match resolveFunction registry s with
        | Throw e => Throw e
        | Ok resolvedFunction =>
            Ok (if truthyValue resolvedFunction then resolvedFunction else value)
        end
      else Ok value
  | _ => Ok value
  end.

(** [resolved[key] = value] on the object being built, its members in
    the order of [Object.entries]: under [__proto__] the assignment
    goes to the accessor every object inherits and makes no member; a
    member that is there is overwritten in place; a new one comes
    last. *)
Definition assign (key : string) (value : PropValue)
    (resolved : list (string * PropValue)) : list (string * PropValue) :=
  if bool_decide (key = "__proto__") then resolved
  else if bool_decide (key ∈ map fst resolved)
  then map (λ member, if bool_decide (member.1 = key) then (key, value) else member)
         resolved
  else resolved ++ [(key, value)].

(** The loop of [resolveFunctionProperties] over the entries left. *)
Fixpoint resolveEntries (registry : Registry) (entries : list (string * PropValue))
    (resolved : list (string * PropValue)) : Outcome (list (string * PropValue)) :=
  match entries with
  | [] => Ok resolved
  | (key, value) :: rest =>
      match resolvedValue registry key value with
      | Throw e => Throw e
      | Ok stored => resolveEntries registry rest (assign key stored resolved)
      end
  end.

(** [resolveFunctionProperties(props)], the properties in the order of
    [Object.entries]. *)
Definition resolveFunctionProperties (registry : Registry)
    (props : list (string * PropValue)) : Outcome (list (string * PropValue)) :=
  resolveEntries registry props [].

(** A registry after any number of calls to [registerFunction],
    whether they returned or threw. *)
Definition registered (registrations : list (string * Callable)) : Registry :=
  foldl (λ registry '(name, fn), (registerFunction name fn registry).2) functionRegistry
    registrations.

End WithRuntime.

End FunctionProperties.

(** ** An environment whose storage keeps what it is given *)
Module Keeping.
Import ContextManager Samples Demo.

Definition analysis : ComponentAnalysis :=
  mkAnalysis ["button"] [] [mkComposite "form" ["input"; "button"] "a form"]
    "a form needs an input and a button".

(** A patch that sets the properties, and a tree with a component inside
    a container. *)
Definition patch : PartialUIComponent :=
  mkPartial None None (Some [("className", JString "fixed")]) None None.

Definition boxed : list UIComponent :=
  [ mkUIComponent "box" "div" [] (Some [ChildComponent (card "inner")]) None ].

(** The world is the content of the key-value store: [setItem] binds the
    key, [getItem] reads it, and both reject when [storageFails] is set.
    The code generator answers with one card inside a fenced block, which
    [JSON.parse] reads and [JSON.stringify] prints as [[card]]; the
    analyzer answers with [analysis], and every component is available;
    the one component text that parses is that of [patch]. *)
Definition env (storageFails : bool) : Environment :=
  {| World := gmap string RecursiveCacheEntry;
     invoke := λ call w,
       match call with
       | codeGeneratorChain _ => (Ok "Here it is: ```json [card] ```", w)
       | recursiveGeneratorChain _ => (Ok "{card}", w)
       end;
     JSON_parse_components := λ text,
       if bool_decide (text = "[]") then Ok []
       else if bool_decide (text = "[card]") then Ok [card "generated-1"]
       else Throw (ErrorObj "Unexpected token");
     JSON_parse_recursive := λ text,
       if bool_decide (text = "{card}") then Ok generated
       else Throw (ErrorObj "Unexpected token");
     JSON_parse_component := λ text,
       if bool_decide (text = "{patch}") then Ok patch
       else Throw (ErrorObj "Unexpected token");
     JSON_stringify_components := λ cs,
       match cs with [] => "[]" | _ => "[card]" end;
     Date_now := λ w, (0, w);
     Date_toISOString := λ w, ("2025-01-01T00:00:00.000Z", w);
     getElementById := λ i _, if bool_decide (i = "btn-1") then Some button else None;
     window := λ _, desktop;
     storage_getItem := λ key w,
       if storageFails then (Throw (ErrorObj "QuotaExceededError"), w)
       else (Ok (w !! key), w);
     storage_setItem := λ key entry w,
       if storageFails then (Throw (ErrorObj "QuotaExceededError"), w)
       else (Ok tt, <[key := entry]> w);
     analyzeComponents := λ _ w, (Ok analysis, w);
     isComponentAvailable := λ _, true;
     fetchComponents := λ _ w, (Ok [], w) |}.

(** Two captures that differ in the id of the trigger element only. *)
Definition ctx_Aa : FullContext :=
  captureFull "t1" "t1" desktop
    (mkElement "btn-Aa" "BUTTON" "" None (ButtonElement "button" false))
    [card "a"] None None.
Definition ctx_BB : FullContext :=
  captureFull "t1" "t1" desktop
    (mkElement "btn-BB" "BUTTON" "" None (ButtonElement "button" false))
    [card "a"] None None.
End Keeping.

(** ** The component catalog: [cache/shadcn/available.ts],
    [services/componentAnalyzer.ts] and [services/componentFetcher.ts] *)
Module ComponentCatalog.
Import Text AiParsers.

Definition availableShadcnComponents : list string :=
  [ "Accordion"; "Alert"; "AlertDialog"; "AspectRatio"; "Avatar"; "Badge"; "Breadcrumb";
    "Button"; "Calendar"; "Card"; "Carousel"; "Chart"; "Checkbox"; "Collapsible";
    "Combobox"; "Command"; "ContextMenu"; "DataTable"; "DatePicker"; "Dialog"; "Drawer";
    "DropdownMenu"; "HoverCard"; "Input"; "InputOtp"; "Label"; "Menubar";
    "NavigationMenu"; "Pagination"; "Popover"; "Progress"; "RadioGroup"; "Resizable";
    "ScrollArea"; "Select"; "Separator"; "Sheet"; "Sidebar"; "Skeleton"; "Slider";
    "Sonner"; "Switch"; "Table"; "Tabs"; "Textarea"; "Toast"; "Toggle"; "ToggleGroup";
    "Tooltip" ].

(** [name.toLowerCase().replace(/([a-z])([A-Z])/g, '$1-$2').toLowerCase()]. *)
Definition normalized (name : string) : string :=
  toLowerCase (hyphenate (toLowerCase name)).

(** The field [availableComponents] of both services. *)
Definition availableComponents : list string := map normalized availableShadcnComponents.

Record ComponentAvailability := mkAvailability {
  available : list string;
  cached : list string;
  missing : list string
}.

(** What [JSON.parse] hands the analyzer, read at the declared type: a
    value that is no object, or an object any of whose properties may be
    missing. *)
Record AnalysisObject := mkAnalysisObject {
  ao_requiredComponents : option (list string);
  ao_customComponents : option (list CustomComponent);
  ao_compositeComponents : option (list CompositeComponent);
  ao_reasoning : option string
}.

Definition RawAnalysis : Type := option AnalysisObject.

Section WithCache.
(** The content of [cache.json], read on its own keys. *)
Variable cache : gmap string bool.

(** [this.cache[name]] as a condition. *)
Definition inCache (name : string) : bool :=
  match cache !! name with
  | Some true => true
  | _ => false
  end.

(** [ComponentAnalyzer.isComponentAvailable]. *)
Definition isComponentAvailable (componentName : string) : bool :=
  bool_decide (cache !! toLowerCase componentName = Some true).

(** [checkComponentAvailability]: one turn of the loop, and the loop. *)
Definition checkOne (acc : ComponentAvailability) (component : string)
  : ComponentAvailability :=
  let normalizedName := trim (toLowerCase component) in
  if bool_decide (normalizedName ∈ availableComponents) then
    {| available := available acc ++ [normalizedName];
       cached := if inCache normalizedName then cached acc ++ [normalizedName]
                 else cached acc;
       missing := missing acc |}
  else
    {| available := available acc;
       cached := cached acc;
       missing := missing acc ++ [normalizedName] |}.

Definition checkComponentAvailability (components : list string)
  : ComponentAvailability :=
  foldl checkOne (mkAvailability [] [] []) components.

Definition fromCache (component : string) : FetchResult :=
  if inCache component then mkFetchResult true component None
  else mkFetchResult false component
         (Some ("Component '" +:+ component +:+ "' not found in cache")).

Definition notInRegistry (missing : string) : FetchResult :=
  mkFetchResult false missing
    (Some ("Component '" +:+ missing +:+ "' not available in Shadcn registry")).

(** [fetchComponents]: the two loops that push onto [results]. *)
Definition fetchComponents (components : list string) : list FetchResult :=
  let availability := checkComponentAvailability components in
  let results :=
    foldl (λ results component, results ++ [fromCache component]) []
      (available availability) in
  foldl (λ results missing, results ++ [notInRegistry missing]) results
    (missing availability).

Definition ensureComponentsAvailable (components : list string) : bool :=
  let results := fetchComponents components in
  let failures := List.filter (λ r, negb (fr_success r)) results in
  if 0 <? Z.of_nat (length failures) then false else true.

Definition areComponentsCached (components : list string) : bool :=
  forallb (λ component, bool_decide (cache !! component = Some true)) components.

End WithCache.

Section Analyzer.
Context {W : Type}.
(** [aiService.analyze]; the message of the [TypeError] the engine
    raises for a property read on a missing value; and [String(error)]
    for a thrown value that is no [Error]. *)
Variable analyze : string → list string → M W RawAnalysis.
Variable typeErrorMessage : RawAnalysis → string.
Variable String_of : Thrown → string.

Definition validateAnalysis (analysis : RawAnalysis) : Outcome ComponentAnalysis :=
  match analysis with
  | None => Throw (ErrorObj "Invalid analysis structure: not an object")
  | Some o =>
      Ok {| requiredComponents := default [] (ao_requiredComponents o);
            customComponents := default [] (ao_customComponents o);
            compositeComponents := default [] (ao_compositeComponents o);
            reasoning := optOr (ao_reasoning o) "No reasoning provided." |}
  end.

(** [analyzeComponents]; the log call after the answer reads
    [analysis.requiredComponents.length], inside the [try]. *)
Definition analyzeComponents (userPrompt : string) : M W ComponentAnalysis :=
  tryCatch
    (let! analysis := analyze userPrompt availableComponents in
     match analysis ≫= ao_requiredComponents with
     | None => throw (ErrorObj (typeErrorMessage analysis))
     | Some _ =>
         match validateAnalysis analysis with
         | Ok validated => ret validated
         | Throw e => throw e
         end
     end)
    (λ error,
       ret {| requiredComponents := [];
              customComponents := [];
              compositeComponents := [];
              reasoning :=
                "An error occurred during analysis: " +:+
                match error with
                | ErrorObj message => message
                | NonError => String_of error
                end |}).

End Analyzer.
End ComponentCatalog.

(** ** Error fixes, [services/errorPatchService.ts] *)
Module ErrorPatchService.

(** An object as [JSON.parse] builds it: its members in order.  The
    three operations on a property with a name that is not an array
    index: read, assign (in place when the name is there, at the end
    otherwise) and [delete]. *)
Fixpoint getProp (key : string) (members : list (string * JSON)) : option JSON :=
  match members with
  | [] => None
  | (k, v) :: rest => if bool_decide (k = key) then Some v else getProp key rest
  end.

Fixpoint setProp (key : string) (value : JSON) (members : list (string * JSON))
  : list (string * JSON) :=
  match members with
  | [] => [(key, value)]
  | (k, v) :: rest =>
      if bool_decide (k = key) then (k, value) :: rest
      else (k, v) :: setProp key value rest
  end.

Definition deleteProp (key : string) (members : list (string * JSON))
  : list (string * JSON) :=
  List.filter (λ m, negb (bool_decide (m.1 = key))) members.

(** Truthiness of a parsed value. *)
Definition truthyJSON (v : JSON) : bool :=
  match v with
  | JNull => false
  | JBool b => b
  | JNumber n => negb (n =? 0)
  | JString s => truthy s
  | JArray _ => true
  | JObject _ => true
  end.

Definition propFixes : list (string * string) :=
  [ ("ariaLabel", "aria-label"); ("class", "className"); ("for", "htmlFor");
    ("tabindex", "tabIndex"); ("readonly", "readOnly"); ("maxlength", "maxLength");
    ("minlength", "minLength"); ("contenteditable", "contentEditable");
    ("spellcheck", "spellCheck"); ("autocomplete", "autoComplete");
    ("autofocus", "autoFocus"); ("autoplay", "autoPlay"); ("crossorigin", "crossOrigin");
    ("formaction", "formAction"); ("formenctype", "formEncType");
    ("formmethod", "formMethod"); ("formnovalidate", "formNoValidate");
    ("formtarget", "formTarget"); ("novalidate", "noValidate"); ("usemap", "useMap") ].

(** One turn of the loop over [propFixes], on the members of
    [component.props] and the flag [fixed]. *)
Definition fixProp (acc : list (string * JSON) * bool) (entry : string * string)
  : list (string * JSON) * bool :=
  let '(wrongProp, correctProp) := entry in
  match getProp wrongProp acc.1 with
  | Some value => (deleteProp wrongProp (setProp correctProp value acc.1), true)
  | None => acc
  end.

Definition fixProps (props : list (string * JSON)) : list (string * JSON) * bool :=
  foldl fixProp (props, false) propFixes.

(** [{ pattern, fix, confidence, lastUsed, successCount, failureCount }];
    [fix] is written [fixCode] here, and the confidence is in tenths. *)
Record ErrorFix := mkErrorFix {
  pattern : string;
  fixCode : string;
  confidence : Z;
  lastUsed : string;
  successCount : Z;
  failureCount : Z
}.

Section WithCollaborators.
Context {W : Type}.
(** [JSON.parse], [JSON.stringify(value, null, 2)], the reading of the
    clock and [aiService.fix] on the error, the component text and the
    text of the context. *)
Variable JSON_parse : string → Outcome JSON.
Variable JSON_stringify : JSON → string.
Variable now : W → string * W.
Variable aiFix : string → string → string → M W JSON.

(** [attemptQuickFix]: the properties are renamed in the parsed
    component, which is printed again when something was renamed.
    Reading [props] of [null] throws inside the [try]; a value that is
    no object has no [props]; properties that are no object have none
    of the names. *)
Definition attemptQuickFix (_error componentCode : string) : option string :=
  match JSON_parse componentCode with
  | Ok (JObject members) =>
      match getProp "props" members with
      | Some (JObject props) =>
          let '(props', fixed) := fixProps props in
          if fixed
          then Some (JSON_stringify (JObject (setProp "props" (JObject props') members)))
          else None
      | _ => None
      end
  | Ok _ => None
  | Throw _ => None
  end.

(** The module-level [fixCache], the persisted [knownFixes] and the
    world outside. *)
Record FixState := mkFixState {
  fixCache : gmap string string;
  knownFixes : gmap string ErrorFix;
  outside : W
}.

Definition inOutside {A} (m : M W A) : M FixState A :=
  λ s, let '(r, w) := m (outside s) in
       (r, {| fixCache := fixCache s; knownFixes := knownFixes s; outside := w |}).

(** [ContextManager.captureMinimal], as the object it returns; a
    member whose value is [undefined] is not printed. *)
Definition captureMinimal (triggerId : string) (elementType : option JSON)
    (errorMessage timestamp : string) : JSON :=
  JObject
    ([ ("level", JString "minimal");
       ("triggerId", JString triggerId);
       ("triggerType", JString "error");
       ("timestamp", JString timestamp) ]
     ++ match elementType with
        | Some t => [("elementType", t)]
        | None => []
        end
     ++ [ ("errorMessage", JString errorMessage) ]).

(** [JSON.parse(componentCode).type]. *)
Definition typeOfComponent (componentCode : string) : Outcome (option JSON) :=
  match JSON_parse componentCode with
  | Ok JNull => Throw (ErrorObj "TypeError")
  | Ok (JObject members) => Ok (getProp "type" members)
  | Ok _ => Ok None
  | Throw e => Throw e
  end.

(** Step 4 of [attemptFix]: the fix of the model, kept in the cache
    and in the store; every failure ends in [null]. *)
Definition fixByModel (error componentCode componentId : string)
  : M FixState (option string) :=
  tryCatch
    (let! elementType :=
       match typeOfComponent componentCode with
       | Ok t => ret t
       | Throw e => throw e
       end in
     let! timestamp := inOutside (λ w, let '(t, w') := now w in (Ok t, w')) in
     let context := captureMinimal componentId elementType error timestamp in
     let! fixedComponent :=
       inOutside (aiFix error componentCode (JSON_stringify context)) in
     let fixedCode := JSON_stringify fixedComponent in
     let! lastUsed := inOutside (λ w, let '(t, w') := now w in (Ok t, w')) in
     let! _ :=
       modify (λ s,
         {| fixCache := <[error := fixedCode]> (fixCache s);
            knownFixes :=
              <[error := mkErrorFix error fixedCode 8 lastUsed 1 0]> (knownFixes s);
            outside := outside s |}) in
     ret (Some fixedCode))
    (λ _, ret None).

(** [attemptFix]; [None] is [null].  A quick fix counts when its text
    is truthy. *)
Definition attemptFix (error componentCode componentId : string)
  : M FixState (option string) :=
  let afterQuickFix : M FixState (option string) :=
    let! s := get in
    match fixCache s !! error with
    | Some cachedFix => ret (Some cachedFix)
    | None => fixByModel error componentCode componentId
    end in
  match attemptQuickFix error componentCode with
  | Some quickFix => if truthy quickFix then ret (Some quickFix) else afterQuickFix
  | None => afterQuickFix
  end.

End WithCollaborators.
End ErrorPatchService.

(** ** Collaborators for the examples of the error fixes *)
Module FixDemo.
Import ErrorPatchService.

(** Two component texts parse, to a card and to a button; the fix of
    the model is printed as [{fixed}] and every other value as [{}]; the
    world counts the calls of the model. *)
Definition JSON_parse (text : string) : Outcome JSON :=
  if bool_decide (text = "{card}") then Ok (JObject [("type", JString "card")])
  else if bool_decide (text = "{button}") then Ok (JObject [("type", JString "button")])
  else Throw (ErrorObj "Unexpected token").

Definition JSON_stringify (value : JSON) : string :=
  match value with
  | JObject [("fixed", _)] => "{fixed}"
  | _ => "{}"
  end.

Definition now (w : nat) : string * nat := ("2025-01-01T00:00:00.000Z", w).

Definition aiFix (_error _componentCode _context : string) : M nat JSON :=
  λ w, (Ok (JObject [("fixed", JBool true)]), S w).

Definition start : FixState (W := nat) := mkFixState ∅ ∅ 0%nat.
End FixDemo.

(** ** The storage manager, [services/storage.ts] *)
Module Storage.

(** [UIState]; the fields carry the prefix [us_].  An object read back
    from the versions store also has [snapshot_created_at], which a
    rollback copies along. *)
Record UIState := mkUIState {
  us_id : string;
  us_name : string;
  us_description : option string;
  us_components : list UIComponent;
  us_connections : option (list string);
  us_created_at : string;
  us_updated_at : string;
  us_version : Z;
  us_parent_version : option string;
  us_snapshot_created_at : option string
}.

(** [Omit<UIState, 'id' | 'created_at' | 'updated_at' | 'version'>]. *)
Record NewUIState := mkNewUIState {
  n_name : string;
  n_description : option string;
  n_components : list UIComponent;
  n_connections : option (list string);
  n_parent_version : option string
}.

(** [Partial<UIState>]. *)
Record UIStateUpdates := mkUpdates {
  u_id : option string;
  u_name : option string;
  u_description : option string;
  u_components : option (list UIComponent);
  u_connections : option (list string);
  u_created_at : option string;
  u_updated_at : option string;
  u_version : option Z;
  u_parent_version : option string
}.

(** The two stores the functions below use, each a map from keys to
    what was last set under them. *)
Record Stores := mkStores {
  statesStore : gmap string UIState;
  versionsStore : gmap string UIState
}.

(** [`${state.id}_v${state.version}`]. *)
Definition snapshotKey (stateId : string) (version : Z) : string :=
  stateId +:+ "_v" +:+ pretty version.

Definition createVersionSnapshot (state : UIState) (snapshotTime : string)
    (stores : Stores) : Stores :=
  {| statesStore := statesStore stores;
     versionsStore :=
       <[snapshotKey (us_id state) (us_version state) :=
           {| us_id := us_id state; us_name := us_name state;
              us_description := us_description state;
              us_components := us_components state;
              us_connections := us_connections state;
              us_created_at := us_created_at state;
              us_updated_at := us_updated_at state;
              us_version := us_version state;
              us_parent_version := us_parent_version state;
              us_snapshot_created_at := Some snapshotTime |}]>
         (versionsStore stores) |}.

Definition setState (key : string) (state : UIState) (stores : Stores) : Stores :=
  {| statesStore := <[key := state]> (statesStore stores);
     versionsStore := versionsStore stores |}.

(** [saveUIState], for the identifier [uuidv4()] returned and the two
    readings of the clock. *)
Definition saveUIState (id now snapshotTime : string) (state : NewUIState)
    (stores : Stores) : UIState * Stores :=
  let newState :=
    {| us_id := id; us_name := n_name state; us_description := n_description state;
       us_components := n_components state; us_connections := n_connections state;
       us_created_at := now; us_updated_at := now; us_version := 1;
       us_parent_version := n_parent_version state;
       us_snapshot_created_at := None |} in
  (newState, createVersionSnapshot newState snapshotTime (setState id newState stores)).

Definition or_else {A} (o : option A) (d : option A) : option A :=
  match o with Some a => Some a | None => d end.

(** [updateUIState]; [None] is [null]. *)
Definition updateUIState (id : string) (updates : UIStateUpdates)
    (now snapshotTime : string) (stores : Stores) : option UIState * Stores :=
  match statesStore stores !! id with
  | None => (None, stores)
  | Some existingState =>
      let updatedState :=
        {| us_id := default (us_id existingState) (u_id updates);
           us_name := default (us_name existingState) (u_name updates);
           us_description :=
             or_else (u_description updates) (us_description existingState);
           us_components := default (us_components existingState) (u_components updates);
           us_connections :=
             or_else (u_connections updates) (us_connections existingState);
           us_created_at := default (us_created_at existingState) (u_created_at updates);
           us_updated_at := now;
           us_version := us_version existingState + 1;
           us_parent_version := Some (us_id existingState);
           us_snapshot_created_at := us_snapshot_created_at existingState |} in
      (Some updatedState,
       createVersionSnapshot updatedState snapshotTime (setState id updatedState stores))
  end.

Definition getUIState (id : string) (stores : Stores) : option UIState :=
  statesStore stores !! id.

Definition deleteUIState (id : string) (stores : Stores) : Stores :=
  {| statesStore := delete id (statesStore stores);
     versionsStore := versionsStore stores |}.

(** [rollbackToVersion]. *)
Definition rollbackToVersion (stateId : string) (version : Z)
    (now snapshotTime : string) (stores : Stores) : option UIState * Stores :=
  let versionKey := snapshotKey stateId version in
  match versionsStore stores !! versionKey with
  | None => (None, stores)
  | Some versionState =>
      let rolledBackState :=
        {| us_id := us_id versionState; us_name := us_name versionState;
           us_description := us_description versionState;
           us_components := us_components versionState;
           us_connections := us_connections versionState;
           us_created_at := us_created_at versionState;
           us_updated_at := now;
           us_version :=
             match getUIState stateId stores with
             | Some current => us_version current
             | None => 0
             end + 1;
           us_parent_version := Some stateId;
           us_snapshot_created_at := us_snapshot_created_at versionState |} in
      (Some rolledBackState,
       createVersionSnapshot rolledBackState snapshotTime
         (setState stateId rolledBackState stores))
  end.

(** A state saved and then updated any number of times, each update
    with its two readings of the clock. *)
Definition updatedStores (id : string)
    (updates : list (UIStateUpdates * string * string)) (stores : Stores) : Stores :=
  foldl (λ stores '(u, now, snapshotTime), (updateUIState id u now snapshotTime stores).2)
    stores updates.

(** The state [id] is at version [n], and the versions store holds a
    snapshot of each of its versions from 1 to [n]. *)
Definition Versioned (id : string) (n : Z) (stores : Stores) : Prop :=
  (∃ state, statesStore stores !! id = Some state ∧
            us_version state = n ∧ us_id state = id) ∧
  ∀ k, 1 <= k <= n →
    ∃ snapshot, versionsStore stores !! snapshotKey id k = Some snapshot ∧
                us_version snapshot = k ∧ us_id snapshot = id.

End Storage.

(** * Properties *)

(** ** Cache key *)
Section CacheKey.
Import ContextManager CacheService Samples.

(** The loop is the usual 31-multiplier string hash on 32 bits. *)
Example hashLoop_abc : hashLoop "abc" 0 = 96354.
Proof. reflexivity. Qed.

Example hashStep_wraps : hashStep 2147483647 "a" = -2147483582.
Proof. reflexivity. Qed.

Example createCacheKey_ab : createCacheKey ctx_ab = "recursive-cache-1678999761".
Proof. by vm_compute. Qed.

Lemma strOr_empty (s : string) : strOr s "" = s.
Proof. by destruct s. Qed.

Lemma optOr_empty (o : option string) : optOr o "" = default "" o.
Proof. destruct o as [s|]; [apply strOr_empty | done]. Qed.

(** The properties the key is computed from are a function of the ordered
    projection. *)
Lemma keyParts_projection (c : FullContext) :
  keyParts c =
    let '(i, t, u, p, sibs) := orderedProjection c in
    [ ("triggerId", i); ("triggerType", t); ("input", u); ("parent", p);
      ("siblings", join "," sibs) ].
Proof.
  unfold keyParts, orderedProjection. rewrite optOr_empty.
  destruct (parentComponent c) as [p|]; simpl; [by rewrite strOr_empty | done].
Qed.

(** C1 (as amended): two contexts that agree on the trigger element id,
    the trigger element type, the user input (empty when absent), the
    parent id (empty when absent) and the list of sibling ids in the order
    of capture derive the same key, whatever their time stamps, viewport
    and other fields. *)
Theorem createCacheKey_deterministic (c1 c2 : FullContext) :
  orderedProjection c1 = orderedProjection c2 →
  createCacheKey c1 = createCacheKey c2.
Proof.
  intros Hproj. unfold createCacheKey.
  by rewrite !keyParts_projection, Hproj.
Qed.

Lemma createCacheKey_deterministic_witness :
  timestamp ctx_ab ≠ timestamp ctx_ab_later ∧
  environmentInfo ctx_ab ≠ environmentInfo ctx_ab_later ∧
  createCacheKey ctx_ab = createCacheKey ctx_ab_later.
Proof.
  split; [discriminate | split; [discriminate |]].
  apply (createCacheKey_deterministic ctx_ab ctx_ab_later). reflexivity.
Defined.

(** C1 (counterexample): the same trigger with the same set of sibling
    ids, captured in two orders, derives two different keys. *)
Lemma createCacheKey_depends_on_sibling_order :
  specProjection ctx_ab = specProjection ctx_ba ∧
  createCacheKey ctx_ab ≠ createCacheKey ctx_ba.
Proof.
  split.
  - unfold specProjection. simpl. f_equal; set_solver.
  - vm_compute. discriminate.
Qed.
End CacheKey.

(** ** Component list operations of the store *)
Section Store.
Import AppStore Samples PatchService.

Lemma replacePlaceholder_absent (T : list UIComponent) (X : string) (R : list UIComponent) :
  (∀ c, c ∈ T → id c ≠ X) → replacePlaceholder T X R = T.
Proof.
  unfold replacePlaceholder. induction T as [|c T IH]; intros Habs; [done|].
  simpl. rewrite bool_decide_eq_false_2 by (apply Habs; left).
  simpl. f_equal. apply IH. intros c' Hc'. apply Habs. by right.
Qed.

Lemma findIndexFrom_absent {A} (p : A → bool) (xs : list A) (i : Z) :
  (∀ x, x ∈ xs → p x = false) → findIndexFrom p xs i = -1.
Proof.
  revert i. induction xs as [|x xs IH]; intros i Hall; [done|].
  simpl. rewrite Hall by left. apply IH. intros y Hy. apply Hall. by right.
Qed.

Lemma insertComponentAfter_absent (X : string) (c : UIComponent) (state : AppState) :
  (∀ c', c' ∈ currentComponents state → id c' ≠ X) →
  currentComponents (insertComponentAfter X c state) = currentComponents state ++ [c].
Proof.
  intros Habs. unfold insertComponentAfter, findIndex. simpl.
  rewrite findIndexFrom_absent; [done|].
  intros c' Hc'. apply bool_decide_eq_false_2. by apply Habs.
Qed.

(** C3 (as amended): with a target id that no top-level component has,
    the replacement of [generatePlaceholder] returns the list as it was
    and the new components are not inserted; the store then reports no
    error.  Appending at the root is what [insertComponentAfter] does for
    such a target.  Neither operation returns a flag. *)
Theorem absent_target_behaviour
    (String_replace : string → string → string → string)
    (generateUI : string → Outcome Generated)
    (T : list UIComponent) (X : string) :
  (∀ c, c ∈ T → id c ≠ X) →
  (∀ R, replacePlaceholder T X R = T) ∧
  (∀ ph input state g,
     currentComponents state = T → placeholderId ph = X →
     generateUI (String_replace (generationPrompt ph) "{{userInput}}" (optOr input ""))
       = Ok g →
     g_success g = true →
     let state' := generatePlaceholder String_replace generateUI ph input state in
     currentComponents state' = T ∧ error state' = None) ∧
  (∀ c state,
     currentComponents state = T →
     currentComponents (insertComponentAfter X c state) = T ++ [c]).
Proof.
  intros Habs. split; [|split].
  - intros R. by apply replacePlaceholder_absent.
  - intros ph input state g HT HX Hgen Hok. unfold generatePlaceholder.
    rewrite Hgen, Hok. simpl. rewrite HT, HX.
    split; [by apply replacePlaceholder_absent | done].
  - intros c state HT. rewrite <- HT. apply insertComponentAfter_absent.
    by rewrite HT.
Qed.

Lemma absent_target_behaviour_witness :
  replacePlaceholder [card "a"] "nonexistent-id" [card "new"] = [card "a"] ∧
  currentComponents
    (insertComponentAfter "nonexistent-id" (card "new") (emptyState [card "a"]))
    = [card "a"; card "new"].
Proof.
  assert (Habs : ∀ c, c ∈ [card "a"] → id c ≠ "nonexistent-id").
  { intros c Hc. apply list_elem_of_singleton in Hc. by subst c. }
  destruct (absent_target_behaviour (λ s _ _, s) (λ _, Throw NonError)
              [card "a"] "nonexistent-id" Habs) as (Hrep & _ & Hins).
  split; [apply Hrep | by apply (Hins (card "new") (emptyState [card "a"]))].
Defined.

(** C3 (counterexample): replacing an absent id in a one-element tree
    returns that tree, not the tree with the replacement appended. *)
Lemma replace_absent_does_not_append :
  replacePlaceholder [card "a"] "nonexistent-id" [card "new"]
    ≠ [card "a"] ++ [card "new"].
Proof. vm_compute. discriminate. Qed.

Lemma replacePlaceholder_app (T1 T2 : list UIComponent) (X : string) (R : list UIComponent) :
  replacePlaceholder (T1 ++ T2) X R = replacePlaceholder T1 X R ++ replacePlaceholder T2 X R.
Proof. unfold replacePlaceholder. by rewrite flat_map_app. Qed.

(** C4 (as amended): when exactly one top-level component has id [X],
    the replacement puts the new components in its place and keeps every
    other top-level component, in order; no top-level component of the
    result has id [X] unless a new one brings it.  Components nested in
    [children] are not searched. *)
Theorem replacePlaceholder_top_level
    (T1 T2 : list UIComponent) (x : UIComponent) (X : string) (R : list UIComponent) :
  id x = X →
  (∀ c, c ∈ T1 ++ T2 → id c ≠ X) →
  replacePlaceholder (T1 ++ x :: T2) X R = T1 ++ R ++ T2 ∧
  ((∀ c, c ∈ R → id c ≠ X) →
   ∀ c, c ∈ replacePlaceholder (T1 ++ x :: T2) X R → id c ≠ X).
Proof.
  intros Hx Habs.
  assert (Heq : replacePlaceholder (T1 ++ x :: T2) X R = T1 ++ R ++ T2).
  { rewrite replacePlaceholder_app.
    rewrite (replacePlaceholder_absent T1) by (intros c Hc; apply Habs; set_solver).
    f_equal. change (x :: T2) with ([x] ++ T2). rewrite replacePlaceholder_app.
    rewrite (replacePlaceholder_absent T2) by (intros c Hc; apply Habs; set_solver).
    f_equal. unfold replacePlaceholder. simpl.
    rewrite bool_decide_eq_true_2 by done. by rewrite app_nil_r. }
  split; [done|].
  intros HR c. rewrite Heq. rewrite !elem_of_app. intros [Hc|[Hc|Hc]].
  - apply Habs. set_solver.
  - by apply HR.
  - apply Habs. set_solver.
Qed.

Lemma replacePlaceholder_top_level_witness :
  replacePlaceholder [card "ph-1"] "ph-1" [card "card-1"] = [card "card-1"].
Proof.
  assert (Habs : ∀ c, c ∈ @nil UIComponent ++ [] → id c ≠ "ph-1").
  { intros c Hc. by apply elem_of_nil in Hc. }
  destruct (replacePlaceholder_top_level [] [] (card "ph-1") "ph-1" [card "card-1"]
              eq_refl Habs) as [Heq _].
  exact Heq.
Defined.

(** C4 (counterexample): a placeholder inside a container is found by a
    search of the tree, yet the replacement leaves the tree as it was,
    the placeholder still in it. *)
Lemma replace_misses_nested_placeholder :
  findComponent nested "ph-1" = Some (ChildPlaceholder placeholder) ∧
  replacePlaceholder nested "ph-1" [card "card-1"] = nested ∧
  findComponent (replacePlaceholder nested "ph-1" [card "card-1"]) "ph-1"
    = Some (ChildPlaceholder placeholder).
Proof. by vm_compute. Qed.

Lemma map_id_when {A} (f : A → A) (p : A → bool) (xs : list A) :
  (∀ x, x ∈ xs → p x = false) → map (λ x, if p x then f x else x) xs = xs.
Proof.
  induction xs as [|x xs IH]; intros Hall; [done|].
  simpl. rewrite Hall by left. f_equal. apply IH. intros y Hy. apply Hall. by right.
Qed.

(** C10: [updateComponent] keeps the length and the order of the list,
    puts the merged component at every position whose component has the
    given id and leaves every other position, and every other field of
    the store, as it was; when no component has the id the store is
    returned unchanged. *)
Theorem updateComponent_frame
    (componentId : string) (updates : PartialUIComponent) (state : AppState) :
  let state' := updateComponent componentId updates state in
  length (currentComponents state') = length (currentComponents state) ∧
  (∀ (i : nat) c,
     currentComponents state !! i = Some c →
     currentComponents state' !! i
       = Some (if bool_decide (id c = componentId) then spread c updates else c)) ∧
  (isLoading state' = isLoading state ∧ error state' = error state ∧
   isGenerating state' = isGenerating state ∧
   lastAIResponse state' = lastAIResponse state ∧
   suggestions state' = suggestions state) ∧
  ((∀ c, c ∈ currentComponents state → id c ≠ componentId) → state' = state).
Proof.
  simpl. split; [|split; [|split]].
  - apply length_map.
  - intros i c Hi. by rewrite list_lookup_fmap, Hi.
  - done.
  - intros Habs. destruct state as [cs ? ? ? ? ?]. unfold updateComponent, setComponents.
    simpl in *. f_equal.
    apply (map_id_when (λ c, spread c updates) (λ c, bool_decide (id c = componentId))).
    intros c Hc. apply bool_decide_eq_false_2. by apply Habs.
Qed.

Lemma updateComponent_frame_witness :
  currentComponents
    (updateComponent "b" (mkPartial None (Some "button") None None None)
       (emptyState [card "a"; card "b"])) !! 1%nat
    = Some (mkUIComponent "b" "button" [] None None) ∧
  updateComponent "zz" (mkPartial None (Some "button") None None None)
    (emptyState [card "a"; card "b"]) = emptyState [card "a"; card "b"].
Proof.
  destruct (updateComponent_frame "b" (mkPartial None (Some "button") None None None)
              (emptyState [card "a"; card "b"])) as (_ & Hat & _ & _).
  destruct (updateComponent_frame "zz" (mkPartial None (Some "button") None None None)
              (emptyState [card "a"; card "b"])) as (_ & _ & _ & Hid).
  split.
  - exact (Hat 1%nat (card "b") eq_refl).
  - apply Hid. intros c Hc. simpl in Hc.
    apply elem_of_cons in Hc as [->|Hc]; [discriminate|].
    apply list_elem_of_singleton in Hc. by subst c.
Defined.
End Store.

(** ** Handler resolution *)
Section Resolution.
Import FunctionResolver.
Context `{Env : Environment}.

(** Where the code follows the specified order: for a value that is no
    string, and for a string that either names an entry of the registry
    or is a name under which the prototype chain holds nothing truthy,
    resolution yields the function the order picks (a function value as
    it is, the entry for the name of an entry, the recursive fallback
    handler otherwise). *)
Lemma resolveEventHandler_on_entries `{Rt : Runtime}
    (registry : Registry) (propName : string) (propValue : PropValue)
    (componentId elementId : string) :
  (∀ s, propValue = PVString s → entry registry s = None →
        s ≠ "__proto__" ∧
        ∃ v, inherited (prototype registry) s = Ok v ∧ truthyValue v = false) →
  resolveEventHandler registry propName propValue componentId elementId
    = Ok (PVFunction (resolveBySpec registry propName propValue componentId elementId)).
Proof.
  intros Hplain. unfold resolveEventHandler, resolveBySpec, readProperty, entry in *.
  destruct propValue as [s|f|v| |]; try done.
  destruct (own registry !! s) as [g|] eqn:Hown; [done|].
  destruct (Hplain s eq_refl Hown) as (Hname & v & Hv & Hfalsy).
  rewrite bool_decide_eq_false_2 by done. by rewrite Hv, Hfalsy.
Qed.

(** The fallback handler is the function [createRecursiveHandler]
    builds for the component, the element and the event. *)
Lemma behaviour_recursive (componentId elementId propName : string) :
  behaviour (Recursive componentId elementId propName)
    = Some (createRecursiveHandler componentId elementId propName).
Proof. done. Qed.

(** The registry as first written resolves its own names, and sends a
    name nothing is known under to the fallback. *)
Example resolve_registered :
  resolveEventHandler (Rt := Demo.browser) functionRegistry "onClick"
    (PVString "logClick") "c1" "c1"
    = Ok (PVFunction (Builtin "logClick")).
Proof. reflexivity. Qed.

Example resolve_unregistered :
  resolveEventHandler (Rt := Demo.browser) functionRegistry "onClick"
    (PVString "showDetails") "c1" "c1"
    = Ok (PVFunction (Recursive "c1" "c1" "onClick")).
Proof. reflexivity. Qed.

Example resolve_missing :
  resolveEventHandler (Rt := Demo.browser) functionRegistry "onClick" PVUndefined "c1" "c1"
    = Ok (PVFunction (Recursive "c1" "c1" "onClick")).
Proof. reflexivity. Qed.

(** C6: the code leaves the specified order on strings that name a
    property the registry object inherits.  Under [__proto__] the
    registry as first written gives [Object.prototype], which is no
    function, on every run time; under [constructor] and [toString] it
    gives the functions [Object] and [Object.prototype.toString] of the
    run time.  None of the three names an entry of the registry, so the
    specified order gives the recursive fallback handler each time. *)
Theorem resolveEventHandler_inherited_names :
  (∀ Rt : Runtime,
     resolveEventHandler (Rt := Rt) functionRegistry "onClick" (PVString "__proto__")
       "card-1" "btn-1" = Ok PVObjectPrototype) ∧
  resolveEventHandler (Rt := Demo.browser) functionRegistry "onClick"
    (PVString "constructor") "card-1" "btn-1" = Ok (PVFunction (Native "" "Object")) ∧
  resolveEventHandler (Rt := Demo.browser) functionRegistry "onClick"
    (PVString "toString") "card-1" "btn-1"
    = Ok (PVFunction (Native "Object.prototype" "toString")) ∧
  Forall (λ name,
            entry functionRegistry name = None ∧
            resolveBySpec functionRegistry "onClick" (PVString name) "card-1" "btn-1"
              = Recursive "card-1" "btn-1" "onClick")
         ["__proto__"; "constructor"; "toString"].
Proof.
  split; [done|]. split; [reflexivity|]. split; [reflexivity|].
  repeat constructor; by vm_compute.
Qed.
End Resolution.

(** ** The recursive fallback handler *)
Section Handler.
Import ContextManager AppStore App AIService CaptureContext RecursiveCache
       UIOrchestrator FunctionResolver.
Context `{Env : Environment}.

(** Unfolds the monad and splits on every call into the environment. *)
Ltac run :=
  repeat first
    [ progress (unfold bind, ret, throw, tryCatch, get, modify, logger, getState,
                dispatch, inExt, toISOString in *; simpl in *)
    | progress simplify_eq
    | match goal with
      | |- context [match ?x with _ => _ end] => destruct x eqn:?
      | H : context [match ?x with _ => _ end] |- _ => destruct x eqn:?
      | |- context [let '(_, _) := ?x in _] => destruct x eqn:?
      | H : context [let '(_, _) := ?x in _] |- _ => destruct x eqn:?
      end ].

Lemma captureContext_store elementId event s r s' :
  captureContext elementId event s = (r, s') → store s' = store s.
Proof. unfold captureContext. intros. run; done. Qed.

Lemma captureContext_unresolved elementId event s :
  getElementById elementId (ext s) = None →
  ∃ e s', captureContext elementId event s = (Throw e, s') ∧
          store s' = store s ∧ ext s' = ext s.
Proof. intros Hnone. unfold captureContext. run; eauto. Qed.

Lemma getCachedRecursiveResult_total context s :
  ∃ cached s', getCachedRecursiveResult context s = (Ok cached, s') ∧
               store s' = store s.
Proof. unfold getCachedRecursiveResult. run; eauto. Qed.

(** A read of the storage that fails is taken for a miss. *)
Lemma getCachedRecursiveResult_absorbs context s e w :
  storage_getItem (CacheService.createCacheKey context) (ext s) = (Throw e, w) →
  ∃ s', getCachedRecursiveResult context s = (Ok None, s') ∧ store s' = store s.
Proof.
  intros Hread. unfold getCachedRecursiveResult.
  unfold logger, bind, ret, tryCatch, modify, inExt. rewrite Hread. simpl. eauto.
Qed.

Lemma generateRecursiveUI_store prompt s r s' :
  generateRecursiveUI prompt s = (r, s') → store s' = store s.
Proof. unfold generateRecursiveUI, generateRecursive, runChain. intros. run; done. Qed.

Lemma cacheRecursiveResult_total context result s :
  ∃ s', cacheRecursiveResult context result s = (Ok tt, s') ∧ store s' = store s.
Proof. unfold cacheRecursiveResult. run; eauto. Qed.

Lemma insertRecursiveUI_total component target s :
  ∃ s', insertRecursiveUI component target s = (Ok tt, s') ∧
        store s' = match component, truthy target with
                   | Some placed, true => insertComponentAfter target placed (store s)
                   | _, _ => store s
                   end.
Proof. unfold insertRecursiveUI. destruct component, (truthy target); run; eauto. Qed.

Lemma entered_same componentId elementId eventName s :
  store (entered componentId elementId eventName s) = store s ∧
  ext (entered componentId elementId eventName s) = ext s.
Proof. done. Qed.

(** How the [try] block ends: normally, after at most one placement,
    which is the store's [insertComponentAfter]; or by an exception, the
    store untouched. *)
Lemma recursiveBody_store componentId elementId event s :
  match recursiveBody componentId elementId event s with
  | (Ok _, s') =>
      ∃ component,
        store s' = match component, truthy componentId with
                   | Some placed, true =>
                       insertComponentAfter componentId placed (store s)
                   | _, _ => store s
                   end
  | (Throw _, s') => store s' = store s
  end.
Proof.
  unfold recursiveBody, captureContext, getCachedRecursiveResult, generateRecursiveUI,
    generateRecursive, runChain, insertRecursiveUI, cacheRecursiveResult,
    buildFallbackPrompt.
  destruct (truthy componentId) eqn:Hid; run;
    first [ done
          | by exists None
          | match goal with
            | |- context [insertComponentAfter _ ?placed _] => by exists (Some placed)
            end ].
Qed.

Lemma recursiveBody_unresolved componentId elementId event s :
  getElementById elementId (ext s) = None →
  ∃ e s', recursiveBody componentId elementId event s = (Throw e, s') ∧
          ext s' = ext s.
Proof.
  intros Hnone. unfold recursiveBody.
  destruct (captureContext_unresolved elementId event s Hnone) as (e & s' & Hc & _ & Hext).
  unfold bind at 1. rewrite Hc. eauto.
Qed.

(** After a miss or a failed read of the cache, a generation that throws
    or answers without [metadata] ends the [try] block by an
    exception. *)
Lemma recursiveBody_generation_fails componentId elementId event s element :
  getElementById elementId (ext s) = Some element →
  (∀ key w entry w', storage_getItem key w ≠ (Ok (Some entry), w')) →
  (∀ prompt w, match (generateRecursive prompt w).1 with
               | Ok answer => rr_metadata answer = None
               | Throw _ => True
               end) →
  ∃ e s', recursiveBody componentId elementId event s = (Throw e, s').
Proof.
  intros Hel Hmiss Hfail.
  unfold recursiveBody, captureContext, getCachedRecursiveResult, generateRecursiveUI,
    buildFallbackPrompt.
  unfold toISOString, logger, getState.
  unfold bind, ret, throw, tryCatch, get, modify, inExt.
  simpl. rewrite Hel. simpl.
  destruct (Date_toISOString (ext s)) as [now1 w1]. simpl.
  destruct (Date_toISOString w1) as [now2 w2]. simpl.
  match goal with |- context [storage_getItem ?k ?w] =>
    pose proof (Hmiss k w) as Hno;
    destruct (storage_getItem k w) as [[[entry|]|?] w3] end; simpl;
    [by destruct (Hno entry w3)| |].
  all: match goal with |- context [generateRecursive ?p ?w] =>
         pose proof (Hfail p w) as Hgen;
         destruct (generateRecursive p w) as [[answer|failure] w4] end; simpl in *.
  all: rewrite ?Hgen; simpl; eauto.
Qed.


Lemma createRecursiveHandler_run componentId elementId eventName event s :
  createRecursiveHandler componentId elementId eventName (EventArgument event) s =
    match recursiveBody componentId elementId event
            (entered componentId elementId eventName s) with
    | (Ok a, s') => (Ok a, s')
    | (Throw _, s') =>
        (Ok tt, {| store := store s'; log := log s' ++ [handlerError]; ext := ext s' |})
    end.
Proof. reflexivity. Qed.

(** Called with a value that is no event, the handler throws at its
    first statement, before the [try]: nothing is logged, captured,
    generated or placed. *)
Lemma createRecursiveHandler_no_event componentId elementId eventName s :
  createRecursiveHandler componentId elementId eventName OtherArgument s
    = (Throw (ErrorObj "TypeError"), s).
Proof. reflexivity. Qed.

(** C8 (as amended): called with an event, the handler never lets an
    exception out.  When its [try] block ends by an exception the store
    is left exactly as it was before the trigger and the last thing the
    handler does is log the error; that is what happens when context
    capture fails, and when, after a miss or a failed read of the cache,
    generation throws or answers without metadata.  A failed read of
    the cache is no failure of the handler: the cache service takes it
    for a miss and generation goes on.  Prompt building is the identity
    and cannot fail. *)
Theorem fallback_handler_contains_failures
    (componentId elementId eventName : string) (event : Event) (s : AppWorld) :
  let start := entered componentId elementId eventName s in
  let finish :=
    createRecursiveHandler componentId elementId eventName (EventArgument event) s in
  finish.1 = Ok tt ∧
  (∀ e s1,
     recursiveBody componentId elementId event start = (Throw e, s1) →
     store finish.2 = store s ∧ log finish.2 = log s1 ++ [handlerError]) ∧
  (getElementById elementId (ext s) = None →
   store finish.2 = store s ∧ last (log finish.2) = Some handlerError) ∧
  (∀ element,
     getElementById elementId (ext s) = Some element →
     (∀ key w entry w', storage_getItem key w ≠ (Ok (Some entry), w')) →
     (∀ prompt w, match (generateRecursive prompt w).1 with
                  | Ok answer => rr_metadata answer = None
                  | Throw _ => True
                  end) →
     store finish.2 = store s ∧ last (log finish.2) = Some handlerError) ∧
  (∀ context s0 e w,
     storage_getItem (CacheService.createCacheKey context) (ext s0) = (Throw e, w) →
     ∃ s1, getCachedRecursiveResult context s0 = (Ok None, s1) ∧ store s1 = store s0) ∧
  (∀ context, buildFallbackPrompt context = context).
Proof.
  cbv zeta. rewrite createRecursiveHandler_run.
  pose proof (entered_same componentId elementId eventName s) as [Hst Hex].
  set (start := entered componentId elementId eventName s) in *.
  pose proof (recursiveBody_store componentId elementId event start) as Hbody.
  assert (Hthrown : ∀ e s1,
            recursiveBody componentId elementId event start = (Throw e, s1) →
            (match recursiveBody componentId elementId event start with
             | (Ok a, s') => (Ok a, s')
             | (Throw _, s') =>
                 (Ok tt, {| store := store s'; log := log s' ++ [handlerError];
                            ext := ext s' |})
             end).2
            = {| store := store s; log := log s1 ++ [handlerError]; ext := ext s1 |}).
  { intros e s1 Hrun. rewrite Hrun in *. simpl. by rewrite Hbody, Hst. }
  split; [by destruct (recursiveBody _ _ _ start) as [[[]|?] ?]|].
  split; [|split; [|split; [|split]]].
  - intros e s1 Hrun. by rewrite (Hthrown e s1 Hrun).
  - intros Hnone. rewrite <- Hex in Hnone.
    destruct (recursiveBody_unresolved componentId elementId event start Hnone)
      as (e & s1 & Hrun & _).
    rewrite (Hthrown e s1 Hrun). simpl. by rewrite last_snoc.
  - intros element Hel Hmiss Hfail. rewrite <- Hex in Hel.
    destruct (recursiveBody_generation_fails componentId elementId event start element
                Hel Hmiss Hfail) as (e & s1 & Hrun).
    rewrite (Hthrown e s1 Hrun). simpl. by rewrite last_snoc.
  - intros context s0 e w. apply getCachedRecursiveResult_absorbs.
  - done.
Qed.

End Handler.
(** ** Witnesses for the handler *)
Section HandlerExamples.
Import ContextManager AppStore App AIService FunctionResolver Samples Demo.

Lemma fallback_handler_contains_failures_witness :
  (let finish :=
     createRecursiveHandler (Env := env false) "x" "x" "onClick" (EventArgument click)
       (start (Env := env false) [card "a"] 0%nat) in
   finish.1 = Ok tt ∧ store finish.2 = emptyState [card "a"] ∧
   last (log finish.2) = Some handlerError) ∧
  (let finish :=
     createRecursiveHandler (Env := offline) "a" "btn-1" "onClick" (EventArgument click)
       (start (Env := offline) [card "a"] 0%nat) in
   store finish.2 = emptyState [card "a"] ∧ last (log finish.2) = Some handlerError).
Proof.
  split.
  - destruct (fallback_handler_contains_failures (Env := env false)
                "x" "x" "onClick" click (start (Env := env false) [card "a"] 0%nat))
      as (Hok & _ & Hcapture & _).
    cbv zeta. destruct (Hcapture eq_refl) as [Hstore Hlog]. by split.
  - destruct (fallback_handler_contains_failures (Env := offline)
                "a" "btn-1" "onClick" click (start (Env := offline) [card "a"] 0%nat))
      as (_ & _ & _ & Hgeneration & _).
    apply (Hgeneration button).
    + reflexivity.
    + intros key w entry w'. discriminate.
    + intros prompt w. exact I.
Defined.

(** C8 (counterexample): with a storage that rejects every read and
    every write the cache probe fails, and yet the handler goes on to
    generate and place: the tree gains the new fragment after the target
    component, and the handler logs no error of its own. *)
Lemma fallback_handler_failed_probe_places :
  let finish :=
    createRecursiveHandler (Env := Keeping.env true) "a" "btn-1" "onClick"
      (EventArgument click)
      (start (Env := Keeping.env true) [card "a"; card "b"] ∅) in
  (∀ key w, storage_getItem (Environment := Keeping.env true) key w
            = (Throw (ErrorObj "QuotaExceededError"), w)) ∧
  finish.1 = Ok tt ∧
  currentComponents (store finish.2) = [card "a"; card "recursive-1"; card "b"] ∧
  currentComponents (store finish.2) ≠ [card "a"; card "b"] ∧
  Forall (λ entry, entry ≠ handlerError) (log finish.2).
Proof.
  cbv zeta. split; [done|].
  split; [by vm_compute|]. split; [by vm_compute|]. split; [by vm_compute|].
  vm_compute. repeat constructor; discriminate.
Qed.



(** An answer of the model without a [ui] member is announced as
    received and cached, and nothing is placed. *)
Example insertRecursiveUI_needs_component :
  let finish :=
    UIOrchestrator.insertRecursiveUI (Env := env false) None "a"
      (start (Env := env false) [card "a"] 0%nat) in
  finish.1 = Ok tt ∧ store finish.2 = emptyState [card "a"].
Proof. by vm_compute. Qed.
End HandlerExamples.

(** ** The patch queue *)
Section Patches.
Import AppStore PatchService.
Context `{Env : Environment}.

(** Three requests, the second for a component that is not in the store,
    and two fixes: the first request is started at once, the others wait
    for its fix; the second is skipped, the third started after it. *)
Example run_three_requests :
  patchLog
    (run [Queue "a" "e1"; Queue "zz" "e0"; Queue "b" "e2";
          Fixed 0 None; Fixed 0 None]
       (initial (Samples.emptyState [Samples.card "a"; Samples.card "b"])))
  = [ LQueued "a" "e1"; LStart "a"; LQueued "zz" "e0"; LQueued "b" "e2";
      LEnd "a" false; LStart "zz"; LEnd "zz" false; LStart "b"; LEnd "b" false ].
Proof. reflexivity. Qed.















End Patches.

(** ** The patch queue drained on a concrete store *)
Section PatchWitness.
Import AppStore PatchService Samples Demo.

End PatchWitness.

(** ** The generator pipeline *)
Section Pipeline.
Import AIService MultiAgentGenerator.
Context `{Env : Environment}.

Lemma bind_run {S A B} (m : M S A) (k : A → M S B) (s : S) :
  (let! x := m in k x) s =
    match m s with
    | (Ok a, s') => k a s'
    | (Throw e, s') => (Throw e, s')
    end.
Proof. reflexivity. Qed.

Lemma updateStep_run (i : nat) f s :
  (i < length (steps (ctx s)))%nat →
  updateStep i f s =
    (Ok tt, {| ctx := setSteps (alter f i) (ctx s); world := world s |}).
Proof.
  intros Hi. unfold updateStep, getContext, updateContext, bind, get, ret, modify.
  simpl. destruct (lookup_lt_is_Some_2 _ _ Hi) as [st ->]. done.
Qed.


(** [executeStep] unfolds as the source reads: mark the step as running,
    try the operation, and on failure either try again with the next
    attempt number, while it is below [maxRetries - 1], or mark the step
    as failed and rethrow. *)
Lemma executeStep_unfold {T} (asResult : T → StepResult) (stepIndex : nat)
    (operation : G T) (retryCount : Z) :
  0 <= retryCount →
  executeStep asResult stepIndex operation retryCount =
    (let! _ := updateStep stepIndex (markRunning retryCount) in
     tryCatch
       (let! result := operation in
        let! _ := updateStep stepIndex (markCompleted (asResult result)) in
        ret result)
       (λ error,
          if retryCount <? maxRetries - 1 then
            executeStep asResult stepIndex operation (retryCount + 1)
          else
            let! _ := updateStep stepIndex
                        (markFailed (messageOr "Unknown error" error)) in
            throw error)).
Proof.
  intros Hrc. unfold executeStep, maxRetries.
  destruct (retryCount <? 3 - 1) eqn:Hlt.
  - apply Z.ltb_lt in Hlt.
    replace (Z.to_nat (3 - 1 - retryCount))
      with (S (Z.to_nat (3 - 1 - (retryCount + 1)))) by lia.
    reflexivity.
  - apply Z.ltb_ge in Hlt.
    replace (Z.to_nat (3 - 1 - retryCount)) with O by lia.
    reflexivity.
Qed.


















(** The fallback card of the assembly stage: it is what the stage returns
    when the text in [context.generatedCode] does not parse. *)
Lemma assembleComponents_fallback s e :
  JSON_parse_components (generatedCode (ctx s)) = Throw e →
  ∃ now iso s',
    assembleComponents s = (Ok [fallbackComponent now iso (ctx s)], s') ∧
    ctx s' = ctx s.
Proof.
  intros Hparse. unfold assembleComponents, getContext, inWorld, bind, ret, get.
  simpl. rewrite Hparse.
  destruct (Date_now (world s)) as [now w1]. simpl.
  destruct (Date_toISOString w1) as [iso w2]. simpl. eauto.
Qed.

(** A stage whose operation throws at every attempt throws. *)
Lemma executeStepFrom_throws {T} (n : nat) (asResult : T → StepResult) (i : nat)
    (op : G T) (rc : Z) (s : RunState) :
  (∀ s0, ∃ e s1, op s0 = (Throw e, s1)) →
  ∃ e s', executeStepFrom n asResult i op rc s = (Throw e, s').
Proof.
  intros Hop. revert rc s. induction n as [|n IH]; intros rc s.
  - simpl. rewrite bind_run.
    destruct (updateStep i (markRunning rc) s) as [[[]|e] s1]; [|eauto].
    unfold tryCatch. rewrite bind_run.
    destruct (Hop s1) as (e & s2 & ->). rewrite bind_run.
    destruct (updateStep i _ s2) as [[[]|e'] s3]; unfold throw; eauto.
  - simpl. rewrite bind_run.
    destruct (updateStep i (markRunning rc) s) as [[[]|e] s1]; [|eauto].
    unfold tryCatch. rewrite bind_run.
    destruct (Hop s1) as (e & s2 & ->). apply IH.
Qed.

(** When the model behind the code generator only ever answers with text
    that does not parse, stage 4 cannot succeed, and so no run does: the
    fallback card of the assembly stage is never reached. *)
Lemma generateUI_unparseable_never_succeeds (userPrompt : string) (w : World) :
  (∀ input w0, ∃ raw w1 e,
     invoke (codeGeneratorChain input) w0 = (Ok raw, w1) ∧
     JSON_parse_components (AiParsers.extractJson raw) = Throw e) →
  success (generateUI userPrompt w).1 = false ∧
  components (generateUI userPrompt w).1 = [].
Proof.
  intros Hsynth.
  assert (Hcode : ∀ s0, ∃ e s1, codeOperation s0 = (Throw e, s1)).
  { intros s0. unfold codeOperation, generateComponentCode. rewrite !bind_run.
    change (getContext s0) with (Ok (ctx s0), s0). cbv beta iota.
    destruct (analyzedComponents (ctx s0)) as [analysis|]; [|unfold throw; eauto].
    rewrite bind_run. unfold inWorld, generateCode, runChain, tryCatch.
    rewrite bind_run.
    match goal with |- context [invoke (codeGeneratorChain ?i) ?w0] =>
      destruct (Hsynth i w0) as (raw & w1 & e & -> & Hparse) end.
    rewrite Hparse. unfold throw. eauto. }
  assert (Hthrows : ∃ e s', pipeline userPrompt
                              {| ctx := initialContext userPrompt; world := w |}
                            = (Throw e, s')).
  { unfold pipeline. rewrite bind_run.
    destruct (executeStep RAnalysis 0 _ 0 _) as [[r1|e1] s1]; [|eauto].
    rewrite bind_run.
    destruct (executeStep _ 1%nat availabilityOperation 0 s1) as [[r2|e2] s2]; [|eauto].
    rewrite bind_run. change (getContext s2) with (Ok (ctx s2), s2). cbv beta iota.
    rewrite bind_run.
    match goal with |- context [match ?m s2 with _ => _ end] =>
      destruct (m s2) as [[unavailable|e] s2'] end; [|eauto].
    rewrite bind_run.
    match goal with |- context [match ?m s2' with _ => _ end] =>
      destruct (m s2') as [[[]|e3] s3] end; [|eauto].
    rewrite bind_run. unfold executeStep at 1.
    destruct (executeStepFrom_throws (Z.to_nat (maxRetries - 1 - 0)) RText 3
                codeOperation 0 s3 Hcode) as (e4 & s4 & ->).
    eauto. }
  destruct Hthrows as (e & s' & Hrun). unfold generateUI. by rewrite Hrun.
Qed.
End Pipeline.

(** ** The pipeline on the concrete environment *)
Section PipelineExamples.
Import MultiAgentGenerator Samples Demo.


Lemma generateUI_unparseable_never_succeeds_witness :
  success (generateUI (Env := env false) "make a form" 0%nat).1 = false ∧
  components (generateUI (Env := env false) "make a form" 0%nat).1 = [].
Proof.
  apply (generateUI_unparseable_never_succeeds (Env := env false)).
  intros input w0. exists refusal, (S w0), (ErrorObj "Unexpected token"). by split.
Defined.

(** C2 (the code at the failing input): the model answers each of the
    three attempts of stage 4 with a plain sentence, which does not parse;
    the run ends with [success: false] and no components, step 4 failed
    with the parse error and step 5 never started; no fallback card is
    produced. *)
Theorem generateUI_unparseable_synthesis_fails :
  let '(out, w) := generateUI (Env := env false) "make a form" 0%nat in
  success out = false ∧
  components out = [] ∧
  map status (steps (context out)) = [completed; completed; completed; failed; pending] ∧
  (steps (context out) !! 3%nat) ≫= error
    = Some "Failed to generate component code: Unexpected token" ∧
  w = 3%nat.
Proof. by vm_compute. Qed.
End PipelineExamples.

(** ** More on the store's list operations *)
Section StoreMore.
Import AppStore StoreActions Samples.

Lemma findIndexFrom_first {A} (p : A → bool) (l1 l2 : list A) (x : A) (i : Z) :
  (∀ y, y ∈ l1 → p y = false) → p x = true →
  findIndexFrom p (l1 ++ x :: l2) i = i + Z.of_nat (length l1).
Proof.
  revert i. induction l1 as [|y l1 IH]; intros i Hl1 Hx; simpl.
  - rewrite Hx. lia.
  - rewrite Hl1 by left. rewrite IH; [lia | | done].
    intros z Hz. apply Hl1. by right.
Qed.

Lemma filter_keep {A} (P : A → Prop) `{∀ x, Decision (P x)} (l : list A) :
  (∀ x, x ∈ l → P x) → filter P l = l.
Proof.
  induction l as [|x l IH]; intros Hl; [done|].
  rewrite filter_cons. destruct (decide (P x)) as [_|Hn].
  - f_equal. apply IH. intros y Hy. apply Hl. by right.
  - destruct Hn. apply Hl. by left.
Qed.

Lemma filter_twice {A} (P : A → Prop) `{∀ x, Decision (P x)} (l : list A) :
  filter P (filter P l) = filter P l.
Proof.
  apply filter_keep. intros x Hx. by apply list_elem_of_filter in Hx as [? _].
Qed.

(** X1: [removeComponent] leaves no top-level component with the given
    id, keeps every other component in its order (it is the list of the
    components with another id), and returns the store as it was when no
    component has the id. *)
Theorem removeComponent_removes (componentId : string) (state : AppState) :
  let state' := removeComponent componentId state in
  (∀ c, c ∈ currentComponents state' ↔
        c ∈ currentComponents state ∧ id c ≠ componentId) ∧
  currentComponents state' `sublist_of` currentComponents state ∧
  ((∀ c, c ∈ currentComponents state → id c ≠ componentId) → state' = state) ∧
  removeComponent componentId state' = state'.
Proof.
  cbv zeta. unfold removeComponent. simpl. split_and!.
  - intros c. rewrite list_elem_of_filter. tauto.
  - apply sublist_filter.
  - intros Habs. destruct state as [cs ? ? ? ? ?]. unfold setComponents. simpl in *.
    f_equal. by apply filter_keep.
  - unfold setComponents. simpl. f_equal. apply filter_twice.
Qed.

Lemma removeComponent_removes_witness :
  currentComponents (removeComponent "a" (emptyState [card "a"; card "b"; card "a"]))
    = [card "b"] ∧
  removeComponent "zz" (emptyState [card "a"; card "b"]) = emptyState [card "a"; card "b"].
Proof.
  destruct (removeComponent_removes "zz" (emptyState [card "a"; card "b"]))
    as (_ & _ & Hid & _).
  split; [reflexivity|]. apply Hid. intros c Hc.
  apply elem_of_cons in Hc as [->|Hc]; [discriminate|].
  apply list_elem_of_singleton in Hc. by subst c.
Defined.

(** X2: [insertComponentAfter] always makes the list one longer; when a
    component has the target id, the new component is put right after the
    first such component and nothing else moves. *)
Theorem insertComponentAfter_first_match
    (T1 T2 : list UIComponent) (x newComponent : UIComponent) (X : string)
    (state : AppState) :
  currentComponents state = T1 ++ x :: T2 →
  id x = X →
  (∀ c, c ∈ T1 → id c ≠ X) →
  currentComponents (insertComponentAfter X newComponent state)
    = T1 ++ x :: newComponent :: T2.
Proof.
  intros Hcs Hx Habs. unfold insertComponentAfter, findIndex. simpl. rewrite Hcs.
  rewrite (findIndexFrom_first _ T1 T2 x 0).
  - replace (negb (0 + Z.of_nat (length T1) =? -1)) with true
      by (symmetry; apply negb_true_iff, Z.eqb_neq; lia).
    unfold spliceInsert.
    replace (Z.to_nat (0 + Z.of_nat (length T1) + 1)) with (length T1 + 1)%nat by lia.
    rewrite take_app_add', drop_app_add' by done. simpl.
    by rewrite <- app_assoc.
  - intros c Hc. apply bool_decide_eq_false_2. by apply Habs.
  - by apply bool_decide_eq_true_2.
Qed.

Lemma insertComponentAfter_first_match_witness :
  currentComponents
    (insertComponentAfter "a" (card "new") (emptyState [card "z"; card "a"; card "a"]))
    = [card "z"; card "a"; card "new"; card "a"].
Proof.
  apply (insertComponentAfter_first_match [card "z"] [card "a"] (card "a") (card "new") "a"
           (emptyState [card "z"; card "a"; card "a"])); [done | done |].
  intros c Hc. apply list_elem_of_singleton in Hc. by subst c.
Defined.

(** X3: whatever the target, [insertComponentAfter] adds exactly one
    component, and removing a freshly named component again gives back
    the list it was inserted into. *)
Theorem insert_then_remove (target : string) (newComponent : UIComponent)
    (state : AppState) :
  length (currentComponents (insertComponentAfter target newComponent state))
    = S (length (currentComponents state)) ∧
  ((∀ c, c ∈ currentComponents state → id c ≠ id newComponent) →
   removeComponent (id newComponent) (insertComponentAfter target newComponent state)
     = state).
Proof.
  assert (Hshape : ∃ i, currentComponents (insertComponentAfter target newComponent state)
                        = take i (currentComponents state)
                          ++ newComponent :: drop i (currentComponents state)).
  { unfold insertComponentAfter. simpl.
    destruct (negb (findIndex _ (currentComponents state) =? -1)).
    - eexists. reflexivity.
    - exists (length (currentComponents state)).
      by rewrite firstn_all, drop_all. }
  destruct Hshape as [i Hi]. split.
  - rewrite Hi, length_app. simpl. rewrite length_take, length_drop. lia.
  - intros Hfresh. destruct state as [cs ? ? ? ? ?].
    unfold removeComponent, setComponents. simpl in *.
    change (currentComponents (insertComponentAfter target newComponent _))
      with (currentComponents
              (insertComponentAfter target newComponent
                 {| currentComponents := cs; isLoading := isLoading0; error := error0;
                    isGenerating := isGenerating0; lastAIResponse := lastAIResponse0;
                    suggestions := suggestions0 |})).
    rewrite Hi. f_equal.
    rewrite filter_app, filter_cons. destruct (decide _) as [Hne|_]; [by destruct Hne|].
    rewrite !filter_keep.
    + apply take_drop.
    + intros c Hc. apply Hfresh. by apply (subseteq_drop i cs).
    + intros c Hc. apply Hfresh. by apply (subseteq_take i cs).
Qed.

Lemma insert_then_remove_witness :
  removeComponent "new"
    (insertComponentAfter "a" (card "new") (emptyState [card "a"; card "b"]))
    = emptyState [card "a"; card "b"].
Proof.
  destruct (insert_then_remove "a" (card "new") (emptyState [card "a"; card "b"]))
    as [_ Hback].
  apply Hback. intros c Hc.
  apply elem_of_cons in Hc as [->|Hc]; [discriminate|].
  apply list_elem_of_singleton in Hc. by subst c.
Defined.

(** X4: [addComponent] adds exactly one component and loses none: the
    new list is the old one with the component put in at some place
    within it.  Without a position, or with one at or past the end, the
    component is appended; a position within the list is where the
    component ends up; a negative position counts from the end, so that
    [-1] puts the component before the last one. *)
Theorem addComponent_position (component : UIComponent) (position : option Z)
    (state : AppState) :
  let cs := currentComponents state in
  let cs' := currentComponents (addComponent component position state) in
  (∃ i : nat, (i ≤ length cs)%nat ∧ cs' = take i cs ++ component :: drop i cs) ∧
  length cs' = S (length cs) ∧
  (match position with
   | None => cs' = cs ++ [component]
   | Some p =>
       (Z.of_nat (length cs) <= p → cs' = cs ++ [component]) ∧
       (0 <= p <= Z.of_nat (length cs) →
        cs' = take (Z.to_nat p) cs ++ component :: drop (Z.to_nat p) cs) ∧
       (p < 0 →
        cs' = take (length cs - Z.to_nat (- p)) cs
              ++ component :: drop (length cs - Z.to_nat (- p)) cs)
   end).
Proof.
  cbv zeta. unfold addComponent. simpl.
  set (cs := currentComponents state).
  assert (Hend : take (length cs) cs ++ component :: drop (length cs) cs
                 = cs ++ [component]) by (by rewrite firstn_all, drop_all).
  destruct position as [p|].
  - unfold spliceInsert, spliceStart.
    set (i := Z.to_nat (if p <? 0 then Z.max (Z.of_nat (length cs) + p) 0
                        else Z.min p (Z.of_nat (length cs)))).
    assert (Hi : (i ≤ length cs)%nat) by (subst i; destruct (p <? 0) eqn:?; lia).
    split; [by exists i|]. split.
    { rewrite length_app. simpl. rewrite length_take, length_drop. lia. }
    split_and!.
    + intros Hp. subst i. destruct (p <? 0) eqn:Hneg; [lia|].
      replace (Z.to_nat (Z.min p (Z.of_nat (length cs)))) with (length cs) by lia.
      exact Hend.
    + intros Hp. subst i. destruct (p <? 0) eqn:Hneg; [lia|].
      by replace (Z.to_nat (Z.min p (Z.of_nat (length cs)))) with (Z.to_nat p) by lia.
    + intros Hp. subst i. destruct (p <? 0) eqn:Hneg; [|lia].
      by replace (Z.to_nat (Z.max (Z.of_nat (length cs) + p) 0))
        with (length cs - Z.to_nat (- p))%nat by lia.
  - split; [exists (length cs); by rewrite Hend|].
    split; [|done]. rewrite length_app. simpl. lia.
Qed.

Lemma addComponent_position_witness :
  currentComponents (addComponent (card "n") (Some (-1)) (emptyState [card "a"; card "b"]))
    = [card "a"; card "n"; card "b"] ∧
  currentComponents (addComponent (card "n") (Some 7) (emptyState [card "a"; card "b"]))
    = [card "a"; card "b"; card "n"].
Proof.
  destruct (addComponent_position (card "n") (Some (-1)) (emptyState [card "a"; card "b"]))
    as (_ & _ & _ & _ & Hneg).
  destruct (addComponent_position (card "n") (Some 7) (emptyState [card "a"; card "b"]))
    as (_ & _ & Hpast & _ & _).
  split; [apply Hneg; lia | apply Hpast; simpl; lia].
Defined.

(** X5: [generatePlaceholder] never leaves the store generating.  When
    the generator throws or reports no success, the components are
    exactly those from before the call, whatever the generator handed
    back, and the error is recorded; when it succeeds, the error is
    cleared and the components are the replaced list. *)
Theorem generatePlaceholder_outcome
    (String_replace : string → string → string → string)
    (generateUI : string → Outcome Generated)
    (placeholder : UIPlaceholder) (inputValue : option string) (state : AppState) :
  let finalPrompt :=
    String_replace (generationPrompt placeholder) "{{userInput}}" (optOr inputValue "") in
  let state' := generatePlaceholder String_replace generateUI placeholder inputValue state in
  isGenerating state' = false ∧
  isLoading state' = isLoading state ∧
  match generateUI finalPrompt with
  | Ok g =>
      if g_success g then
        currentComponents state'
          = replacePlaceholder (currentComponents state) (placeholderId placeholder)
              (g_components g) ∧
        error state' = None
      else
        currentComponents state' = currentComponents state ∧
        error state' = Some "Placeholder generation failed"
  | Throw e =>
      currentComponents state' = currentComponents state ∧
      error state' = Some (messageOr "Failed to generate placeholder" e)
  end.
Proof.
  cbv zeta. unfold generatePlaceholder.
  destruct (generateUI _) as [g|e]; [destruct (g_success g)|]; done.
Qed.
End StoreMore.

(** ** Context capture *)
Section Capture.
Import ContextManager Samples.

Lemma findIndexFrom_range {A} (p : A → bool) (xs : list A) (i : Z) :
  findIndexFrom p xs i = -1 ∨
  i <= findIndexFrom p xs i < i + Z.of_nat (length xs).
Proof.
  revert i. induction xs as [|x xs IH]; intros i; simpl; [by left|].
  destruct (p x); [right; lia|].
  destruct (IH (i + 1)) as [->|H]; [by left | right; lia].
Qed.

Lemma find_Some {A} (p : A → bool) (xs : list A) (x : A) :
  find p xs = Some x → x ∈ xs ∧ p x = true.
Proof.
  induction xs as [|y xs IH]; simpl; [done|].
  destruct (p y) eqn:Hy.
  - intros [= ->]. split; [left | done].
  - intros H. destruct (IH H). split; [by right | done].
Qed.

Lemma find_None {A} (p : A → bool) (xs : list A) :
  find p xs = None → ∀ x, x ∈ xs → p x = false.
Proof.
  induction xs as [|y xs IH]; simpl; intros H x Hx; [by apply elem_of_nil in Hx|].
  destruct (p y) eqn:Hy; [done|].
  apply elem_of_cons in Hx as [->|Hx]; [done | by apply IH].
Qed.

Lemma siblings_short (components : list UIComponent) (targetId : string) :
  (length (findSiblingComponents components targetId) ≤ 3)%nat ∧
  (∀ c, c ∈ findSiblingComponents components targetId →
        id c ≠ targetId ∧ c ∈ components).
Proof.
  unfold findSiblingComponents, slice0. split.
  - rewrite length_take. lia.
  - intros c Hc. apply (subseteq_take 3) in Hc.
    apply list_elem_of_filter in Hc. tauto.
Qed.

(** X6: the siblings handed to the model are at most three, never the
    trigger itself, and are the first components with another id, in the
    order of the list; with three or fewer such components all of them
    are kept. *)
Theorem findSiblingComponents_bounded (components : list UIComponent) (targetId : string) :
  let siblings := findSiblingComponents components targetId in
  (length siblings ≤ 3)%nat ∧
  (∀ c, c ∈ siblings → id c ≠ targetId ∧ c ∈ components) ∧
  siblings `prefix_of` filter (λ c, id c ≠ targetId) components ∧
  siblings `sublist_of` components ∧
  ((length (filter (λ c, id c ≠ targetId) components) ≤ 3)%nat →
   siblings = filter (λ c, id c ≠ targetId) components).
Proof.
  cbv zeta. destruct (siblings_short components targetId) as [Hlen Hsib].
  split; [exact Hlen|]. split; [exact Hsib|].
  unfold findSiblingComponents, slice0. split_and!.
  - apply prefix_take.
  - etrans; [apply sublist_take | apply sublist_filter].
  - intros Hlen'. by apply take_ge.
Qed.

Lemma findSiblingComponents_bounded_witness :
  findSiblingComponents [card "a"; card "t"; card "b"] "t" = [card "a"; card "b"].
Proof.
  destruct (findSiblingComponents_bounded [card "a"; card "t"; card "b"] "t")
    as (_ & _ & _ & _ & Hall).
  rewrite Hall; [reflexivity | simpl; lia].
Defined.

(** X7: what every captured full context satisfies, whatever the element
    and the tree: the trigger id is never empty (an element without id is
    called [unknown]); the captured hierarchy holds at most five
    components and the siblings at most three, none of them the trigger;
    the position index is a valid index of the component list, or 0 for an
    empty list or a trigger that is not in it, and is never negative; the
    parent, when there is one, is a top-level component with a child of
    the trigger's id; the component count is the length of the list. *)
Theorem captureFull_invariants (now1 now2 : string) (win : Window) (element : Element)
    (components : list UIComponent) (userInput : option string)
    (metadata : option Props) :
  let context := captureFull now1 now2 win element components userInput metadata in
  triggerId context ≠ "" ∧
  te_id (triggerElement context) = triggerId context ∧
  (el_id element ≠ "" → triggerId context = el_id element) ∧
  (length (componentHierarchy context) ≤ 5)%nat ∧
  (length (siblingComponents context) ≤ 3)%nat ∧
  (∀ c, c ∈ siblingComponents context → id c ≠ triggerId context) ∧
  0 <= index (te_position (triggerElement context))
    <= Z.max 0 (Z.of_nat (length components) - 1) ∧
  ((∀ c, c ∈ components → id c ≠ triggerId context) →
   index (te_position (triggerElement context)) = 0) ∧
  (∀ p, parentComponent context = Some p →
        p ∈ components ∧ hasChild (triggerId context) p = true) ∧
  componentCount (appState context) = Z.of_nat (length components) ∧
  allComponents (appState context) = components.
Proof.
  cbv zeta. simpl.
  pose proof (siblings_short components (strOr (el_id element) "unknown"))
    as (Hlen & Hsib).
  assert (Hidx : 0 <= Z.max 0 (findIndex (λ comp, bool_decide
                     (id comp = strOr (el_id element) "unknown")) components)
                 <= Z.max 0 (Z.of_nat (length components) - 1)).
  { unfold findIndex.
    match goal with |- context [findIndexFrom ?p ?xs 0] =>
      destruct (findIndexFrom_range p xs 0) as [->|H] end; lia. }
  split; [by destruct (el_id element)|].
  split; [done|].
  split; [by destruct (el_id element)|].
  split; [unfold buildComponentHierarchy, slice0; rewrite length_take; lia|].
  split; [exact Hlen|].
  split; [intros c Hc; exact (proj1 (Hsib c Hc))|].
  split; [exact Hidx|].
  split.
  { intros Habs. unfold findIndex. rewrite findIndexFrom_absent; [done|].
    intros c Hc. apply bool_decide_eq_false_2. by apply Habs. }
  split; [|done].
  intros p Hp. unfold findParentComponent in Hp. by apply find_Some in Hp.
Qed.

Lemma captureFull_invariants_witness :
  triggerId (captureFull "t1" "t2" desktop
               (mkElement "" "DIV" "" None OtherElement) [card "a"] None None)
    = "unknown" ∧
  index (te_position (triggerElement ctx_ab)) = 0.
Proof.
  destruct (captureFull_invariants "t1" "t1" desktop button [card "a"; card "b"] None None)
    as (_ & _ & _ & _ & _ & _ & _ & Habsent & _).
  split; [reflexivity|]. apply Habsent.
  intros c Hc. apply elem_of_cons in Hc as [->|Hc]; [discriminate|].
  apply list_elem_of_singleton in Hc. by subst c.
Defined.
End Capture.

(** ** Function properties and the registry *)
Section Registry.
Import FunctionResolver FunctionProperties Text.

(** The pattern test on the names the comments of the source give, and on
    two names that only look alike. *)
Example isFunctionProperty_names :
  map isFunctionProperty
    ["onClick"; "handleSubmit"; "customHandler"; "doneCallback"; "online"; "className"]
  = [true; true; true; true; false; false].
Proof. reflexivity. Qed.

Section WithRuntime.
Context `{Rt : Runtime}.

(** A registration never removes an entry. *)
Lemma registerFunction_keeps name fn registry other :
  is_Some (entry registry other) →
  is_Some (entry (registerFunction name fn registry).2 other).
Proof.
  unfold registerFunction, assignProperty, entry. intros Hin.
  destruct (own registry !! name) eqn:Hown; simpl.
  - destruct (decide (name = other)) as [->|Hne].
    + rewrite lookup_insert_eq. eauto.
    + by rewrite lookup_insert_ne.
  - case_bool_decide; [done|].
    destruct (shadows (prototype registry) name); simpl; [|done].
    destruct (decide (name = other)) as [->|Hne].
    + rewrite lookup_insert_eq. eauto.
    + by rewrite lookup_insert_ne.
Qed.

Lemma registered_keeps (registrations : list (string * Callable)) (name : string) :
  is_Some (entry functionRegistry name) →
  is_Some (entry (registered registrations) name).
Proof.
  unfold registered. generalize functionRegistry.
  induction registrations as [|[n f] regs IH]; intros registry Hin; [done|].
  simpl. apply IH. by apply registerFunction_keeps.
Qed.

(** An entry is read as it is, whatever the prototype. *)
Lemma readProperty_entry registry name g :
  entry registry name = Some g → readProperty registry name = Ok (PVFunction g).
Proof. unfold entry, readProperty. by intros ->. Qed.

(** With the four default handlers in the registry, [resolveFunction]
    throws only when the read of the cleaned name does, and what it
    returns is truthy: the entry of that name, or else what the
    prototype chain holds under it when that is truthy, or else a
    default handler. *)
Lemma resolveFunction_cases (registry : Registry) (functionName : string) :
  Forall (λ name, is_Some (entry registry name))
    ["logClick"; "submitForm"; "logChange"; "noop"] →
  let cleanName := stripQuotes (AiParsers.trim functionName) in
  match resolveFunction registry functionName with
  | Throw e => readProperty registry cleanName = Throw e
  | Ok resolved =>
      truthyValue resolved = true ∧
      (∀ g, entry registry cleanName = Some g → resolved = PVFunction g) ∧
      (entry registry cleanName = None →
       readProperty registry cleanName = Ok resolved ∨
       ∃ f, resolved = PVFunction f ∧
            (Some f = entry registry "logClick" ∨ Some f = entry registry "submitForm" ∨
             Some f = entry registry "logChange" ∨ Some f = entry registry "noop"))
  end.
Proof.
  intros Hdefaults. cbv zeta. unfold resolveFunction.
  destruct (readProperty registry (stripQuotes (AiParsers.trim functionName)))
    as [found|e] eqn:Hread; [|done].
  destruct (truthyValue found) eqn:Htruthy.
  - split; [done|]. split; [|by left].
    intros g Hg. rewrite (readProperty_entry _ _ _ Hg) in Hread. by injection Hread.
  - assert (Hnone : ∀ g, entry registry (stripQuotes (AiParsers.trim functionName))
                           = Some g → False).
    { intros g Hg. rewrite (readProperty_entry _ _ _ Hg) in Hread.
      injection Hread as <-. done. }
    apply Forall_cons in Hdefaults as [[f1 H1] Hdefaults].
    apply Forall_cons in Hdefaults as [[f2 H2] Hdefaults].
    apply Forall_cons in Hdefaults as [[f3 H3] Hdefaults].
    apply Forall_cons in Hdefaults as [[f4 H4] _].
    rewrite (readProperty_entry _ _ _ H1), (readProperty_entry _ _ _ H2),
      (readProperty_entry _ _ _ H3), (readProperty_entry _ _ _ H4).
    rewrite H1, H2, H3, H4.
    repeat match goal with |- context [if ?b then _ else _] => destruct b end.
    all: split; [done|]; split; [by intros g Hg; destruct (Hnone g Hg)|].
    all: intros _; right; eexists; split; [done|]; auto.
Qed.

Lemma registered_defaults (registrations : list (string * Callable)) :
  Forall (λ name, is_Some (entry (registered registrations) name))
    ["logClick"; "submitForm"; "logChange"; "noop"].
Proof. repeat constructor; apply registered_keeps; by eexists. Qed.

(** X8: registration never removes an entry, so the four default
    handlers are always there, and [resolveFunction] never answers
    [undefined]: it throws only when reading the cleaned name from the
    registry object throws, and what it returns is truthy.  That is
    the entry of the cleaned name when there is one; otherwise what
    the registry object inherits under that name, when that is truthy,
    be it a function or not; otherwise a default handler. *)
Theorem resolveFunction_always_resolves
    (registrations : list (string * Callable)) (functionName : string) :
  let registry := registered registrations in
  let cleanName := stripQuotes (AiParsers.trim functionName) in
  match resolveFunction registry functionName with
  | Throw e => readProperty registry cleanName = Throw e
  | Ok resolved =>
      truthyValue resolved = true ∧
      (∀ g, entry registry cleanName = Some g → resolved = PVFunction g) ∧
      (entry registry cleanName = None →
       readProperty registry cleanName = Ok resolved ∨
       ∃ f, resolved = PVFunction f ∧
            (Some f = entry registry "logClick" ∨ Some f = entry registry "submitForm" ∨
             Some f = entry registry "logChange" ∨ Some f = entry registry "noop"))
  end.
Proof. apply resolveFunction_cases, registered_defaults. Qed.

(** X9: what [registerFunction] does to the registry object.  The call
    either returns or throws a [TypeError] and leaves the registry as
    it was.  When it returns for a name other than [__proto__] (or for
    a name that is an entry), the function is what
    [resolveEventHandler] gives for that name, every other name
    resolves as before, and a later registration under the name wins.
    Under [__proto__], when that is no entry, no entry is made or
    changed: the function becomes the prototype of the registry
    object, so that [__proto__] resolves to it, every entry resolves
    as before, and every other name is from then on read through the
    function. *)
Theorem registerFunction_resolves (registry : Registry)
    (name : string) (fn fn' : Callable) (propName componentId elementId : string) :
  let after := registerFunction name fn registry in
  (after.1 = Ok tt ∨ after = (Throw (ErrorObj "TypeError"), registry)) ∧
  (after.1 = Ok tt → name ≠ "__proto__" ∨ is_Some (entry registry name) →
   resolveEventHandler after.2 propName (PVString name) componentId elementId
     = Ok (PVFunction fn) ∧
   (∀ other, other ≠ name →
      resolveEventHandler after.2 propName (PVString other) componentId elementId
      = resolveEventHandler registry propName (PVString other) componentId elementId) ∧
   registerFunction name fn' after.2 = registerFunction name fn' registry) ∧
  (name = "__proto__" → entry registry name = None →
   after = (Ok tt, mkRegistry (own registry) (FunctionObject fn)) ∧
   resolveEventHandler after.2 propName (PVString name) componentId elementId
     = Ok (PVFunction fn) ∧
   (∀ other g, entry registry other = Some g →
      resolveEventHandler after.2 propName (PVString other) componentId elementId
      = Ok (PVFunction g)) ∧
   (∀ other, other ≠ name → entry registry other = None →
      readProperty after.2 other = inherited (FunctionObject fn) other)).
Proof.
  cbv zeta. unfold registerFunction, assignProperty, entry.
  destruct (own registry !! name) as [g|] eqn:Hown.
  - split; [by left|]. split; [|by intros _ [=]]. intros _ _.
    unfold resolveEventHandler, readProperty. simpl. split_and!.
    + by rewrite lookup_insert_eq.
    + intros other Hne. by rewrite lookup_insert_ne.
    + by rewrite lookup_insert_eq, insert_insert_eq.
  - case_bool_decide as Hname.
    + split; [by left|]. split.
      * intros _ [Hne|[g Hg]]; [done | discriminate].
      * intros _ _. unfold resolveEventHandler, readProperty. simpl. split_and!.
        -- done.
        -- by rewrite Hown, bool_decide_eq_true_2.
        -- by intros other g ->.
        -- intros other Hne ->. by rewrite bool_decide_eq_false_2 by congruence.
    + destruct (shadows (prototype registry) name) eqn:Hshadow.
      * split; [by left|]. split; [|done]. intros _ _.
        unfold resolveEventHandler, readProperty. simpl. split_and!.
        -- by rewrite lookup_insert_eq.
        -- intros other Hne. by rewrite lookup_insert_ne.
        -- by rewrite lookup_insert_eq, insert_insert_eq.
      * split; [by right|]. split; [intros [=] | done].
Qed.

(** Properties with distinct keys hold one value under a key. *)
Lemma distinct_keys {A} (l : list (string * A)) key v1 v2 :
  NoDup (map fst l) → (key, v1) ∈ l → (key, v2) ∈ l → v1 = v2.
Proof.
  induction l as [|[k v] l IH]; intros Hnd H1 H2; [by apply elem_of_nil in H1|].
  simpl in Hnd. apply NoDup_cons in Hnd as [Hk Hnd].
  assert (Hin : ∀ w, (k, w) ∈ l → False).
  { intros w Hw. apply Hk. apply list_elem_of_fmap. by exists (k, w). }
  apply elem_of_cons in H1 as [H1|H1]; apply elem_of_cons in H2 as [H2|H2].
  - congruence.
  - injection H1 as -> ->. by destruct (Hin v2).
  - injection H2 as -> ->. by destruct (Hin v1).
  - by apply IH.
Qed.

(** The loop adds the entries left, in their order, behind the members
    made so far, those under [__proto__] apart. *)
Lemma resolveEntries_members registry entries : ∀ resolved,
  NoDup (map fst entries) →
  (∀ key, key ∈ map fst entries → key ∉ map fst resolved) →
  match resolveEntries registry entries resolved with
  | Ok final =>
      ∃ added,
        final = resolved ++ added ∧
        Forall2 (λ before after,
                   after.1 = before.1 ∧
                   resolvedValue registry before.1 before.2 = Ok after.2)
          (filter (λ member, member.1 ≠ "__proto__") entries) added
  | Throw e =>
      ∃ key s, (key, PVString s) ∈ entries ∧ isFunctionProperty key = true ∧
               resolveFunction registry s = Throw e
  end.
Proof.
  induction entries as [|[key value] rest IH]; intros resolved Hnd Hfresh.
  - simpl. exists []. by rewrite app_nil_r.
  - simpl in Hnd. apply NoDup_cons in Hnd as [Hkey Hnd]. simpl.
    destruct (resolvedValue registry key value) as [stored|e] eqn:Hvalue.
    + assert (Hassign : assign key stored resolved =
                if bool_decide (key = "__proto__") then resolved
                else resolved ++ [(key, stored)]).
      { unfold assign. case_bool_decide; [done|].
        rewrite bool_decide_eq_false_2; [done|]. apply Hfresh. simpl. by left. }
      rewrite Hassign.
      assert (Hfresh' : ∀ k, k ∈ map fst rest →
                k ∉ map fst (if bool_decide (key = "__proto__") then resolved
                             else resolved ++ [(key, stored)])).
      { intros k Hk. case_bool_decide.
        - apply Hfresh. simpl. by right.
        - rewrite map_app. simpl. rewrite elem_of_app, list_elem_of_singleton.
          intros [Hin | ->]; [|done]. revert Hin. apply Hfresh. simpl. by right. }
      specialize (IH _ Hnd Hfresh').
      destruct (resolveEntries registry rest _) as [final|e].
      * destruct IH as (added & -> & Hadded). case_bool_decide as Hproto.
        -- exists added. split; [done|]. by rewrite filter_cons_False by (simpl; auto).
        -- exists ((key, stored) :: added). rewrite <- app_assoc. split; [done|].
           rewrite filter_cons_True by done. by constructor.
      * destruct IH as (k & s & Hin & Hp & Hthrow). exists k, s. split; [by right | done].
    + unfold resolvedValue in Hvalue. destruct value as [s| | | |]; try done.
      destruct (isFunctionProperty key) eqn:Hp; [|done].
      destruct (resolveFunction registry s) as [r|e'] eqn:Hr; [done|].
      injection Hvalue as <-. exists key, s. split; [by left | done].
Qed.

(** X10: for properties of distinct keys, as [Object.entries] lists
    them, [resolveFunctionProperties] keeps the keys and their order,
    the key [__proto__] apart, under which the object it builds gets
    no member.  It changes only string values under handler-like keys,
    and, the registry never lacking its defaults, replaces every one of
    those by what [resolveFunction] gives, which is truthy: the branch
    that keeps an unresolved string is never taken.  It throws only
    when [resolveFunction] does for one of those strings. *)
Theorem resolveFunctionProperties_frame
    (registrations : list (string * Callable)) (props : list (string * PropValue)) :
  NoDup (map fst props) →
  let registry := registered registrations in
  let kept := filter (λ member, member.1 ≠ "__proto__") props in
  match resolveFunctionProperties registry props with
  | Ok resolved =>
      map fst resolved = map fst kept ∧
      Forall2 (λ before after,
                 after.1 = before.1 ∧
                 resolvedValue registry before.1 before.2 = Ok after.2)
        kept resolved ∧
      (∀ key value, (key, value) ∈ kept →
         (∀ s, value = PVString s → isFunctionProperty key = false) →
         (key, value) ∈ resolved) ∧
      (∀ key s, (key, PVString s) ∈ kept → isFunctionProperty key = true →
         ∃ stored, (key, stored) ∈ resolved ∧ truthyValue stored = true ∧
                   resolveFunction registry s = Ok stored)
  | Throw e =>
      ∃ key s, (key, PVString s) ∈ props ∧ isFunctionProperty key = true ∧
               resolveFunction registry s = Throw e
  end.
Proof.
  intros Hnd. cbv zeta. unfold resolveFunctionProperties.
  pose proof (resolveEntries_members (registered registrations) props [] Hnd) as Hrun.
  destruct (resolveEntries (registered registrations) props []) as [resolved|e].
  - destruct Hrun as (added & -> & Hadded); [intros key _; apply not_elem_of_nil|].
    simpl.
    assert (Hat : ∀ key value,
              (key, value) ∈ filter (λ member, member.1 ≠ "__proto__") props →
              ∃ stored, (key, stored) ∈ added ∧
                        resolvedValue (registered registrations) key value = Ok stored).
    { intros key value Hin. apply list_elem_of_lookup in Hin as [i Hi].
      destruct (Forall2_lookup_l _ _ _ _ _ Hadded Hi) as ([k stored] & Hj & Hk & Hv).
      simpl in *. subst k. exists stored. split; [|done].
      apply list_elem_of_lookup. by exists i. }
    split_and!.
    + clear Hat. induction Hadded as [|[k v] [k' v'] l l' [Hk _] _ IH]; [done|].
      simpl in *. by rewrite Hk, IH.
    + done.
    + intros key value Hin Hplain. destruct (Hat key value Hin) as (stored & Hs & Hv).
      unfold resolvedValue in Hv. destruct value as [s| | | |]; try by injection Hv as <-.
      rewrite (Hplain s eq_refl) in Hv. by injection Hv as <-.
    + intros key s Hin Hp. destruct (Hat key (PVString s) Hin) as (stored & Hs & Hv).
      exists stored. split; [done|].
      unfold resolvedValue in Hv. rewrite Hp in Hv.
      pose proof (resolveFunction_cases (registered registrations) s
                    (registered_defaults registrations)) as Hcases.
      destruct (resolveFunction (registered registrations) s) as [r|e']; [|done].
      destruct Hcases as [Htruthy _]. rewrite Htruthy in Hv. by injection Hv as <-.
  - destruct Hrun as (key & s & Hin & Hp & Hthrow); [intros key _; apply not_elem_of_nil|].
    eauto.
Qed.

End WithRuntime.

Lemma resolveFunction_always_resolves_witness :
  resolveFunction (Rt := Demo.browser)
    (registered (Rt := Demo.browser) [("customAlert", Foreign 1)]) "  'customAlert' "
    = Ok (PVFunction (Foreign 1)) ∧
  resolveFunction (Rt := Demo.browser) (registered (Rt := Demo.browser) [])
    "handleButtonClick" = Ok (PVFunction (Builtin "logClick")).
Proof.
  pose proof (resolveFunction_always_resolves (Rt := Demo.browser)
                [("customAlert", Foreign 1)] "  'customAlert' ") as Hcases.
  cbv zeta in Hcases. split; [|reflexivity].
  destruct (resolveFunction _ "  'customAlert' ") as [resolved|e]; [|discriminate Hcases].
  destruct Hcases as (_ & Hentry & _). f_equal. by apply Hentry.
Defined.

(** What the registry object inherits is resolved like an entry: the
    run time's [toString], and under [__proto__] the object
    [Object.prototype], which is no function. *)
Example resolveFunction_inherited :
  resolveFunction (Rt := Demo.browser) functionRegistry "toString"
    = Ok (PVFunction (Native "Object.prototype" "toString")) ∧
  resolveFunction (Rt := Demo.browser) functionRegistry "'__proto__'"
    = Ok PVObjectPrototype.
Proof. split; reflexivity. Qed.

Lemma registerFunction_resolves_witness :
  let after := registerFunction (Rt := Demo.browser) "customAlert" (Foreign 1)
                 functionRegistry in
  resolveEventHandler (Rt := Demo.browser) after.2 "onClick" (PVString "customAlert")
    "c" "c" = Ok (PVFunction (Foreign 1)) ∧
  resolveEventHandler (Rt := Demo.browser) after.2 "onClick" (PVString "logClick")
    "c" "c" = Ok (PVFunction (Builtin "logClick")).
Proof.
  cbv zeta.
  destruct (registerFunction_resolves (Rt := Demo.browser) functionRegistry "customAlert"
              (Foreign 1) (Foreign 2) "onClick" "c" "c") as (_ & Hentry & _).
  destruct Hentry as (Hsame & Hother & _); [reflexivity | by left |].
  split; [exact Hsame|].
  rewrite (Hother "logClick"); [reflexivity | discriminate].
Defined.

(** A registration under [__proto__] changes how other names resolve:
    [call] went to the recursive fallback before and is
    [Function.prototype.call] after; a registration under [name] is
    refused from then on. *)
Example registerFunction_rebinds_prototype :
  let after := (registerFunction (Rt := Demo.browser) "__proto__" (Foreign 1)
                  functionRegistry).2 in
  own after = own functionRegistry ∧
  resolveEventHandler (Rt := Demo.browser) functionRegistry "onClick" (PVString "call")
    "c" "c" = Ok (PVFunction (Recursive "c" "c" "onClick")) ∧
  resolveEventHandler (Rt := Demo.browser) after "onClick" (PVString "call")
    "c" "c" = Ok (PVFunction (Native "Function.prototype" "call")) ∧
  registerFunction (Rt := Demo.browser) "name" (Foreign 2) after
    = (Throw (ErrorObj "TypeError"), after).
Proof. cbv zeta. split_and!; reflexivity. Qed.

Lemma resolveFunctionProperties_frame_witness :
  ∃ resolved,
    resolveFunctionProperties (Rt := Demo.browser)
      (registered (Rt := Demo.browser) [("customAlert", Foreign 1)])
      [("id", PVString "customAlert"); ("onClick", PVString "customAlert")]
    = Ok resolved ∧
    map fst resolved = ["id"; "onClick"] ∧
    ("id", PVString "customAlert") ∈ resolved.
Proof.
  pose proof (resolveFunctionProperties_frame (Rt := Demo.browser)
                [("customAlert", Foreign 1)]
                [("id", PVString "customAlert"); ("onClick", PVString "customAlert")])
    as Hframe.
  cbv zeta in Hframe.
  destruct (resolveFunctionProperties _ _) as [resolved|e] eqn:Hrun;
    [|discriminate Hrun].
  exists resolved. split; [done|].
  destruct Hframe as (Hkeys & _ & Hplain & _).
  - apply (bool_decide_unpack _). by vm_compute.
  - split; [exact Hkeys|].
    apply Hplain; [by left|]. by intros s _.
Defined.

(** The demonstration of the source: handler-like keys resolve, the
    others stay. *)
Example resolveFunctionProperties_demo :
  resolveFunctionProperties (Rt := Demo.browser) functionRegistry
    [ ("id", PVString "test-button"); ("onClick", PVString "logClick");
      ("onSubmit", PVString "submitForm"); ("customHandler", PVString "alertClick");
      ("nonFunction", PVString "just a string"); ("onHover", PVString "showTooltip") ]
  = Ok [ ("id", PVString "test-button"); ("onClick", PVFunction (Builtin "logClick"));
         ("onSubmit", PVFunction (Builtin "submitForm"));
         ("customHandler", PVFunction (Builtin "alertClick"));
         ("nonFunction", PVString "just a string");
         ("onHover", PVFunction (Builtin "noop")) ].
Proof. by vm_compute. Qed.

(** A handler-like key whose string names an inherited property gets
    that property, and a key [__proto__] is dropped. *)
Example resolveFunctionProperties_inherited :
  resolveFunctionProperties (Rt := Demo.browser) functionRegistry
    [ ("onClick", PVString "__proto__"); ("__proto__", PVOther JNull);
      ("onBlur", PVString "valueOf") ]
  = Ok [ ("onClick", PVObjectPrototype);
         ("onBlur", PVFunction (Native "Object.prototype" "valueOf")) ].
Proof. by vm_compute. Qed.
End Registry.

(** ** The cache of recursive results *)
Section Cache.
Import ContextManager CacheService AppStore App RecursiveCache Samples.

Lemma toInt32_range (z : Z) : - 2 ^ 31 <= toInt32 z < 2 ^ 31.
Proof.
  unfold toInt32. pose proof (Z.mod_pos_bound z (2 ^ 32) eq_refl).
  destruct (z mod 2 ^ 32 <? 2 ^ 31) eqn:Hlt; lia.
Qed.

Lemma toInt32_wraps (z : Z) : ∃ k, toInt32 z = z + k * 2 ^ 32.
Proof.
  unfold toInt32. pose proof (Z.div_mod z (2 ^ 32) ltac:(done)) as Hdm.
  destruct (z mod 2 ^ 32 <? 2 ^ 31).
  - exists (- (z / 2 ^ 32)). lia.
  - exists (- (z / 2 ^ 32) - 1). lia.
Qed.

Lemma toInt32_cong (x y k : Z) : x = y + k * 2 ^ 32 → toInt32 x = toInt32 y.
Proof. intros ->. unfold toInt32. by rewrite Z_mod_plus_full. Qed.

(** One turn of the loop is [31 * hash + char] on 32 bits. *)
Lemma hashStep_wraps_31 (h : Z) (a : ascii) :
  ∃ k, hashStep h a = 31 * h + charCode a + k * 2 ^ 32.
Proof.
  unfold hashStep, or0, shl. change (5 mod 32) with 5. rewrite Z.shiftl_mul_pow2 by done.
  destruct (toInt32_wraps h) as [k1 H1].
  destruct (toInt32_wraps (toInt32 h * 2 ^ 5)) as [k2 H2].
  destruct (toInt32_wraps (toInt32 (toInt32 h * 2 ^ 5) - h + charCode a)) as [k3 H3].
  exists (32 * k1 + k2 + k3). lia.
Qed.

Lemma hashLoop_app (s1 s2 : string) (h : Z) :
  hashLoop (s1 +:+ s2) h = hashLoop s2 (hashLoop s1 h).
Proof. revert h. induction s1 as [|a s1 IH]; intros h; [done | apply IH]. Qed.

Lemma append_assoc (s1 s2 s3 : string) : (s1 +:+ s2) +:+ s3 = s1 +:+ s2 +:+ s3.
Proof.
  induction s1 as [|a s1 IH]; [done|].
  change (String a ((s1 +:+ s2) +:+ s3) = String a (s1 +:+ s2 +:+ s3)). by rewrite IH.
Qed.

Lemma quoteBody_app (s1 s2 : string) :
  quoteBody (s1 +:+ s2) = quoteBody s1 +:+ quoteBody s2.
Proof.
  induction s1 as [|a s1 IH]; [done|].
  change (quoteChar a +:+ quoteBody (s1 +:+ s2)
          = (quoteChar a +:+ quoteBody s1) +:+ quoteBody s2).
  by rewrite IH, append_assoc.
Qed.

Lemma hashStep_range (h : Z) (a : ascii) : - 2 ^ 31 <= hashStep h a < 2 ^ 31.
Proof. apply toInt32_range. Qed.

Lemma hashStep_code (h c : Z) (a : ascii) :
  charCode a = c → ∃ k, hashStep h a = 31 * h + c + k * 2 ^ 32.
Proof. intros <-. apply hashStep_wraps_31. Qed.

Lemma hashLoop_range (s : string) (h : Z) :
  - 2 ^ 31 <= h < 2 ^ 31 → - 2 ^ 31 <= hashLoop s h < 2 ^ 31.
Proof.
  revert h. induction s as [|a s IH]; intros h Hh; [done|].
  apply IH. apply hashStep_range.
Qed.

(** The two-letter words [Aa] and [BB] hash alike from every state. *)
Lemma hashLoop_Aa_BB (h : Z) : hashLoop "Aa" h = hashLoop "BB" h.
Proof.
  change (hashStep (hashStep h "A") "a" = hashStep (hashStep h "B") "B").
  destruct (hashStep_code h 65 "A" eq_refl) as [k1 H1].
  destruct (hashStep_code h 66 "B" eq_refl) as [k2 H2].
  destruct (hashStep_code (hashStep h "A") 97 "a" eq_refl) as [k3 H3].
  destruct (hashStep_code (hashStep h "B") 66 "B" eq_refl) as [k4 H4].
  pose proof (hashStep_range (hashStep h "A") "a") as R1.
  pose proof (hashStep_range (hashStep h "B") "B") as R2.
  revert H1 H2 H3 H4 R1 R2.
  generalize (hashStep (hashStep h "A") "a"), (hashStep (hashStep h "B") "B"),
    (hashStep h "A"), (hashStep h "B").
  intros; lia.
Qed.

(** X11: every key is the prefix followed by the decimal numeral of a
    number between 0 and 2^31, so there are no more than 2^31 + 1 keys
    for all the contexts there are. *)
Theorem createCacheKey_shape (context : FullContext) :
  ∃ n, createCacheKey context = CACHE_PREFIX +:+ pretty n ∧ 0 <= n <= 2 ^ 31.
Proof.
  unfold createCacheKey. eexists. split; [reflexivity|].
  pose proof (hashLoop_range (stringifyStringObject (keyParts context)) 0 ltac:(lia)).
  lia.
Qed.

(** X12: the key does not tell all trigger elements apart: two contexts
    whose trigger ids differ only by [Aa] in the one where the other has
    [BB], and which agree on the other parts of the key, derive the same
    key. *)
Theorem createCacheKey_collision (c1 c2 : FullContext) (p q : string) :
  te_id (triggerElement c1) = p +:+ "Aa" +:+ q →
  te_id (triggerElement c2) = p +:+ "BB" +:+ q →
  tail (keyParts c1) = tail (keyParts c2) →
  createCacheKey c1 = createCacheKey c2.
Proof.
  intros H1 H2 Htail. unfold createCacheKey. do 3 f_equal.
  unfold keyParts in *. simpl in Htail. rewrite H1, H2.
  injection Htail as -> -> -> ->.
  unfold stringifyStringObject, stringifyMembers, quoteJSONString.
  rewrite !quoteBody_app.
  change (quoteBody "Aa") with "Aa". change (quoteBody "BB") with "BB".
  rewrite !hashLoop_app, hashLoop_Aa_BB. reflexivity.
Qed.

Lemma createCacheKey_collision_witness :
  te_id (triggerElement Keeping.ctx_Aa) ≠ te_id (triggerElement Keeping.ctx_BB) ∧
  createCacheKey Keeping.ctx_Aa = createCacheKey Keeping.ctx_BB.
Proof.
  split; [discriminate|].
  apply (createCacheKey_collision Keeping.ctx_Aa Keeping.ctx_BB "btn-" ""); reflexivity.
Defined.

Section WithEnvironment.
Context `{Env : Environment}.

Ltac run :=
  repeat first
    [ progress (unfold bind, ret, throw, tryCatch, get, modify in *; simpl in *)
    | progress simplify_eq
    | match goal with
      | |- context [match ?x with _ => _ end] => destruct x eqn:?
      | H : context [match ?x with _ => _ end] |- _ => destruct x eqn:?
      | |- context [let '(_, _) := ?x in _] => destruct x eqn:?
      | H : context [let '(_, _) := ?x in _] |- _ => destruct x eqn:?
      end ].

(** X13: the cache service never throws and never touches the
    component store.  A lookup whose storage read fails answers with a
    miss and logs the failure; a write whose storage write fails logs it
    and returns normally. *)
Theorem cache_absorbs_storage_failures (context : FullContext)
    (result : RecursiveResult) (s : AppWorld) :
  (∃ cached s', getCachedRecursiveResult context s = (Ok cached, s') ∧
                store s' = store s ∧
                (∀ e w, storage_getItem (createCacheKey context) (ext s) = (Throw e, w) →
                        cached = None ∧
                        log s' = log s ++ [mkLog ERROR "CacheService"
                                             "Failed to retrieve cached result"])) ∧
  (∃ s', cacheRecursiveResult context result s = (Ok tt, s') ∧
         store s' = store s ∧
         (∀ e w now w0,
            Date_toISOString (ext s) = (now, w0) →
            storage_setItem (createCacheKey context)
              (mkCacheEntry (ui result) (rr_metadata result) now) w0 = (Throw e, w) →
            log s' = log s ++ [mkLog ERROR "CacheService"
                                 "Failed to cache recursive result"])).
Proof.
  split.
  - unfold getCachedRecursiveResult, logger, inExt, bind, ret, tryCatch, modify. simpl.
    destruct (storage_getItem (createCacheKey context) (ext s)) as [[[entry|]|e] w] eqn:Hget;
      simpl; eexists _, _; (split; [reflexivity|]); (split; [done|]);
      intros e' w' Hthrow; simpl; first [done | congruence].
  - unfold cacheRecursiveResult, toISOString, logger, inExt, bind, ret, tryCatch, modify.
    simpl. destruct (Date_toISOString (ext s)) as [now w0] eqn:Hnow. simpl.
    destruct (storage_setItem (createCacheKey context)
                (mkCacheEntry (ui result) (rr_metadata result) now) w0)
      as [[[]|e] w] eqn:Hset;
      simpl; eexists; (split; [reflexivity|]); (split; [done|]);
      intros e' w' now' w0' [= <- <-] Hthrow; simpl; first [done | congruence].
Qed.
End WithEnvironment.

Lemma cache_absorbs_storage_failures_witness :
  ∃ s', getCachedRecursiveResult (Env := Keeping.env true) ctx_ab
          (Demo.start (Env := Keeping.env true) [] ∅) = (Ok None, s') ∧
        log s' = [mkLog ERROR "CacheService" "Failed to retrieve cached result"].
Proof.
  destruct (cache_absorbs_storage_failures (Env := Keeping.env true) ctx_ab Demo.generated
              (Demo.start (Env := Keeping.env true) [] ∅))
    as [(cached & s' & Hrun & _ & Hmiss) _].
  destruct (Hmiss (ErrorObj "QuotaExceededError") ∅ eq_refl) as [-> Hlog].
  by exists s'.
Defined.

Section WithEnvironment.
Context `{Env : Environment}.

(** X14: when the storage keeps under a key what is written under it,
    a result cached for one context is what a lookup finds for every
    context with the same key, right after the write: the component and
    the metadata of the result, stamped with the time of the write. *)
Theorem cache_round_trip (context context' : FullContext) (result : RecursiveResult)
    (s : AppWorld) :
  createCacheKey context' = createCacheKey context →
  (∀ entry w, ∃ w', storage_setItem (createCacheKey context) entry w = (Ok tt, w') ∧
                    storage_getItem (createCacheKey context) w' = (Ok (Some entry), w')) →
  ∃ s1 s2 entry,
    cacheRecursiveResult context result s = (Ok tt, s1) ∧
    getCachedRecursiveResult context' s1 = (Ok (Some entry), s2) ∧
    ce_ui entry = ui result ∧ ce_metadata entry = rr_metadata result ∧
    createdAt entry = (Date_toISOString (ext s)).1 ∧
    store s2 = store s.
Proof.
  intros Hkey Hkeeps.
  destruct (Date_toISOString (ext s)) as [now w0] eqn:Hnow.
  destruct (Hkeeps (mkCacheEntry (ui result) (rr_metadata result) now) w0)
    as (w' & Hset & Hget).
  eexists _, _, _. split.
  { unfold cacheRecursiveResult, toISOString, logger, inExt, bind, ret, tryCatch, modify.
    simpl. rewrite Hnow. simpl. rewrite Hset. simpl. reflexivity. }
  split.
  { unfold getCachedRecursiveResult, logger, inExt, bind, ret, tryCatch, modify.
    rewrite Hkey. simpl. rewrite Hget. simpl. reflexivity. }
  done.
Qed.
End WithEnvironment.

Lemma cache_round_trip_witness :
  ∃ s1 s2 entry,
    cacheRecursiveResult (Env := Keeping.env false) Keeping.ctx_Aa Demo.generated
      (Demo.start (Env := Keeping.env false) [card "a"] ∅) = (Ok tt, s1) ∧
    getCachedRecursiveResult (Env := Keeping.env false) Keeping.ctx_BB s1
      = (Ok (Some entry), s2) ∧
    ce_ui entry = Some (card "recursive-1").
Proof.
  destruct (cache_round_trip (Env := Keeping.env false) Keeping.ctx_Aa Keeping.ctx_BB
              Demo.generated
              (Demo.start (Env := Keeping.env false) [card "a"] ∅))
    as (s1 & s2 & entry & H1 & H2 & Hui & _).
  - by vm_compute.
  - intros entry w. exists (<[createCacheKey Keeping.ctx_Aa := entry]> w).
    split; [reflexivity|]. simpl. by rewrite lookup_insert_eq.
  - exists s1, s2, entry. by rewrite Hui.
Defined.
End Cache.

(** ** Cleaning and parsing of model output *)
Section Parsing.
Import AiParsers AIService.

Lemma length_append (s1 s2 : string) :
  String.length (s1 +:+ s2) = (String.length s1 + String.length s2)%nat.
Proof.
  induction s1 as [|a s1 IH]; [done|].
  change (S (String.length (s1 +:+ s2)) = S (String.length s1 + String.length s2)).
  by rewrite IH.
Qed.

Lemma append_assoc' (s1 s2 s3 : string) : (s1 +:+ s2) +:+ s3 = s1 +:+ s2 +:+ s3.
Proof.
  induction s1 as [|a s1 IH]; [done|].
  change (String a ((s1 +:+ s2) +:+ s3) = String a (s1 +:+ s2 +:+ s3)). by rewrite IH.
Qed.

Lemma sdrop_append (s1 s2 : string) : sdrop (String.length s1) (s1 +:+ s2) = s2.
Proof. induction s1 as [|a s1 IH]; [by destruct s2 | exact IH]. Qed.

Lemma stake_append (s1 s2 : string) (a : ascii) :
  stake (S (String.length s1)) (s1 +:+ String a s2) = s1 +:+ String a "".
Proof.
  induction s1 as [|b s1 IH]; [done|].
  change (String b (stake (S (String.length s1)) (s1 +:+ String a s2))
          = String b (s1 +:+ String a "")).
  by rewrite IH.
Qed.

Lemma indexOfFrom_shift (c : ascii) (s : string) (i j : Z) :
  0 <= i → 0 <= j → indexOfFrom c s i = -1 → indexOfFrom c s j = -1.
Proof.
  revert i j. induction s as [|a s IH]; intros i j Hi Hj; simpl; [done|].
  destruct (Ascii.eqb a c); [lia|]. apply IH; lia.
Qed.

Lemma indexOf_cons (c a : ascii) (s : string) :
  indexOf c (String a s) = -1 → Ascii.eqb a c = false ∧ indexOf c s = -1.
Proof.
  unfold indexOf. simpl. destruct (Ascii.eqb a c); [done|].
  intros H. split; [done|]. by apply (indexOfFrom_shift c s 1 0).
Qed.

Lemma indexOfFrom_append (c : ascii) (s1 s2 : string) (i : Z) :
  0 <= i → indexOf c s1 = -1 →
  indexOfFrom c (s1 +:+ String c s2) i = i + Z.of_nat (String.length s1).
Proof.
  revert i. induction s1 as [|a s1 IH]; intros i Hi Habs.
  - simpl. rewrite Ascii.eqb_refl. lia.
  - apply indexOf_cons in Habs as [Ha Habs].
    change (indexOfFrom c (String a (s1 +:+ String c s2)) i
            = i + Z.of_nat (S (String.length s1))).
    simpl indexOfFrom. rewrite Ha, IH by (done || lia). lia.
Qed.

Lemma lastIndexOfFrom_absent (c : ascii) (s : string) (i found : Z) :
  indexOf c s = -1 → lastIndexOfFrom c s i found = found.
Proof.
  revert i. induction s as [|a s IH]; intros i Habs; [done|].
  apply indexOf_cons in Habs as [Ha Habs]. simpl. rewrite Ha. by apply IH.
Qed.

Lemma lastIndexOfFrom_append (c : ascii) (s1 s2 : string) (i found : Z) :
  indexOf c s2 = -1 →
  lastIndexOfFrom c (s1 +:+ String c s2) i found = i + Z.of_nat (String.length s1).
Proof.
  intros Habs. revert i found. induction s1 as [|a s1 IH]; intros i found.
  - simpl. rewrite Ascii.eqb_refl, lastIndexOfFrom_absent by done. lia.
  - change (lastIndexOfFrom c (s1 +:+ String c s2) (i + 1)
              (if Ascii.eqb a c then i else found)
            = i + Z.of_nat (S (String.length s1))).
    rewrite IH. lia.
Qed.

Lemma trimEnd_keeps (s : string) (c : ascii) :
  isSpace c = false → trimEnd (s +:+ String c "") = s +:+ String c "".
Proof.
  intros Hc. induction s as [|a s IH]; [simpl; by rewrite Hc|].
  change (match trimEnd (s +:+ String c "") with
          | EmptyString => if isSpace a then EmptyString else String a EmptyString
          | r => String a r
          end = String a (s +:+ String c "")).
  rewrite IH. by destruct s.
Qed.

Lemma prefix_head (c a : ascii) (p s : string) :
  String.prefix (String c p) (String a s) = true → c = a.
Proof.
  change (String.prefix (String c p) (String a s))
    with (if ascii_dec c a then String.prefix p s else false).
  by destruct (ascii_dec c a).
Qed.

(** A string without a back quote holds no fenced block. *)
Lemma markdownMatch_none (s : string) :
  indexOf "`" s = -1 → markdownMatch s = None.
Proof.
  induction s as [|a s IH]; intros Habs; [done|].
  apply indexOf_cons in Habs as [Ha Habs].
  assert (Hhere : matchHere (String a s) = None).
  { unfold matchHere, fence.
    destruct (String.prefix "```" (String a s)) eqn:Hp; [|done].
    apply prefix_head in Hp as <-. by rewrite Ascii.eqb_refl in Ha. }
  simpl markdownMatch. rewrite Hhere. by apply IH.
Qed.

(** X15: [runChain] invokes its chain once.  It returns what the parser
    makes of the cleaned answer; whatever fails, the invocation or the
    parsing, comes out as an [Error] whose message is the caller's
    message, a colon and the message of the cause, or [Unknown error] for
    a cause that is not an [Error]. *)
Theorem runChain_outcomes `{Env : Environment} {T : Type} (call : ChainCall)
    (parse : string → Outcome T) (errorMessage : string) (w : World) :
  match runChain call parse errorMessage w with
  | (Ok parsed, w') =>
      ∃ raw, invoke call w = (Ok raw, w') ∧ parse (extractJson raw) = Ok parsed
  | (Throw e, w') =>
      ∃ cause,
        e = ErrorObj (errorMessage +:+ ": " +:+ messageOr "Unknown error" cause) ∧
        (invoke call w = (Throw cause, w') ∨
         ∃ raw, invoke call w = (Ok raw, w') ∧ parse (extractJson raw) = Throw cause)
  end.
Proof.
  unfold runChain, tryCatch, bind, ret, throw.
  destruct (invoke call w) as [[raw|cause] w'] eqn:Hcall.
  - destruct (parse (extractJson raw)) as [parsed|cause] eqn:Hparse; simpl.
    + by exists raw.
    + exists cause. split; [done|]. right. by exists raw.
  - simpl. exists cause. split; [done|]. by left.
Qed.

(** X16: an answer with no back quote, no opening bracket and no opening
    brace is handed to the parser as it is, untrimmed. *)
Theorem extractJson_plain (rawOutput : string) :
  indexOf "`" rawOutput = -1 →
  indexOf "[" rawOutput = -1 →
  indexOf "{" rawOutput = -1 →
  extractJson rawOutput = rawOutput.
Proof.
  intros Hq Hb Hc. unfold extractJson.
  rewrite markdownMatch_none by done. by rewrite Hb, Hc.
Qed.

Lemma extractJson_plain_witness :
  extractJson "  Sorry, I can't do that.  " = "  Sorry, I can't do that.  ".
Proof. apply (extractJson_plain "  Sorry, I can't do that.  "); reflexivity. Defined.

(** X17: in an answer without a back quote, the text from the first
    opening bracket to the last closing bracket is what is parsed, and
    brackets are looked for before braces: of an object that holds an
    array, only the text between the array brackets is kept. *)
Theorem extractJson_brackets (pre body post : string) :
  let rawOutput := pre +:+ "[" +:+ body +:+ "]" +:+ post in
  indexOf "`" rawOutput = -1 →
  indexOf "[" pre = -1 →
  indexOf "]" post = -1 →
  extractJson rawOutput = "[" +:+ body +:+ "]".
Proof.
  cbv zeta. intros Hq Hpre Hpost. unfold extractJson.
  rewrite markdownMatch_none by done.
  change (pre +:+ "[" +:+ body +:+ "]" +:+ post)
    with (pre +:+ String "[" (body +:+ String "]" post)).
  assert (Hfirst : indexOf "[" (pre +:+ String "[" (body +:+ String "]" post))
                   = Z.of_nat (String.length pre)).
  { unfold indexOf. rewrite indexOfFrom_append by done. lia. }
  assert (Hlast : lastIndexOf "]" (pre +:+ String "[" (body +:+ String "]" post))
                  = Z.of_nat (String.length pre) + 1 + Z.of_nat (String.length body)).
  { change (pre +:+ String "[" (body +:+ String "]" post))
      with (pre +:+ (String "[" body +:+ String "]" post)).
    rewrite <- append_assoc'. unfold lastIndexOf.
    rewrite lastIndexOfFrom_append, length_append by done. simpl String.length. lia. }
  cbv zeta. rewrite !Hfirst, !Hlast.
  replace (negb (Z.of_nat (String.length pre) =? -1)) with true
    by (symmetry; apply negb_true_iff, Z.eqb_neq; lia).
  replace (Z.of_nat (String.length pre)
           <? Z.of_nat (String.length pre) + 1 + Z.of_nat (String.length body)) with true
    by (symmetry; apply Z.ltb_lt; lia).
  simpl andb. cbv iota. unfold substring.
  rewrite Nat2Z.id.
  replace (Z.to_nat (Z.of_nat (String.length pre) + 1 + Z.of_nat (String.length body) + 1
                     - Z.of_nat (String.length pre)))
    with (S (S (String.length body))) by lia.
  rewrite sdrop_append.
  change (stake (S (S (String.length body))) (String "[" (body +:+ String "]" post)))
    with (String "[" (stake (S (String.length body)) (body +:+ String "]" post))).
  rewrite stake_append. unfold trim.
  change (spaceRun (String "[" (body +:+ String "]" ""))) with 0%nat.
  change (sdrop 0 (String "[" (body +:+ String "]" "")))
    with (String "[" body +:+ String "]" "").
  by rewrite trimEnd_keeps.
Qed.

Lemma extractJson_brackets_witness :
  extractJson ("{" +:+ DQ +:+ "children" +:+ DQ +:+ ":[1,2]}") = "[1,2]".
Proof.
  apply (extractJson_brackets ("{" +:+ DQ +:+ "children" +:+ DQ +:+ ":") "1,2" "}");
    reflexivity.
Defined.
Lemma prefix_append (p t : string) : String.prefix p (p +:+ t) = true.
Proof.
  induction p as [|a p IH]; [by destruct t|].
  change (String.prefix (String a p) (String a p +:+ t))
    with (if ascii_dec a a then String.prefix p (p +:+ t) else false).
  by destruct (ascii_dec a a).
Qed.

Lemma spaceRun_append (sp t : string) :
  spaceRun sp = String.length sp → spaceRun t = 0%nat →
  spaceRun (sp +:+ t) = String.length sp.
Proof.
  intros Hsp Ht. induction sp as [|a sp IH]; [done|].
  simpl in Hsp. change (spaceRun (String a sp +:+ t))
    with (if isSpace a then S (spaceRun (sp +:+ t)) else 0%nat).
  destruct (isSpace a); [|done]. rewrite IH; [done | lia].
Qed.

Lemma trimEnd_tail (a : ascii) (x : string) :
  trimEnd (String a x) = String a x → trimEnd x = x.
Proof.
  simpl. destruct (trimEnd x) as [|b r] eqn:Hx.
  - destruct (isSpace a); [done|]. by intros [= <-].
  - by intros [= <-].
Qed.

Lemma trimEnd_space (a : ascii) (x : string) :
  trimEnd (String a x) = String a x → isSpace a = true → x ≠ "".
Proof. intros Hk Ha ->. simpl in Hk. by rewrite Ha in Hk. Qed.

(** No closing fence is seen from inside a text that holds no back quote
    and does not end in white space. *)
Lemma closes_inside (y rest : string) :
  indexOf "`" y = -1 → trimEnd y = y → y ≠ "" → closes (y +:+ rest) = false.
Proof.
  induction y as [|a y IH]; intros Hq Hend Hne; [done|].
  apply indexOf_cons in Hq as [Ha Hq].
  unfold closes.
  change (spaceRun (String a y +:+ rest))
    with (if isSpace a then S (spaceRun (y +:+ rest)) else 0%nat).
  destruct (isSpace a) eqn:Hsp.
  - change (sdrop (S (spaceRun (y +:+ rest))) (String a y +:+ rest))
      with (sdrop (spaceRun (y +:+ rest)) (y +:+ rest)).
    apply IH; [done | by apply trimEnd_tail in Hend | by apply (trimEnd_space a)].
  - change (sdrop 0 (String a y +:+ rest)) with (String a (y +:+ rest)).
    unfold fence. destruct (String.prefix _ _) eqn:Hp; [|done].
    apply prefix_head in Hp as <-. by rewrite Ascii.eqb_refl in Ha.
Qed.

Lemma lazyCapture_unfold (s : string) :
  lazyCapture s =
    if closes s then Some EmptyString
    else match s with
         | EmptyString => None
         | String a rest => String a <$> lazyCapture rest
         end.
Proof. by destruct s. Qed.

Lemma lazyCapture_core (x rest : string) :
  indexOf "`" x = -1 → trimEnd x = x → closes rest = true →
  lazyCapture (x +:+ rest) = Some x.
Proof.
  intros Hq Hend Hclose. induction x as [|a x IH].
  - change ("" +:+ rest) with rest. by rewrite lazyCapture_unfold, Hclose.
  - rewrite lazyCapture_unfold, closes_inside by done.
    change (String a x +:+ rest) with (String a (x +:+ rest)). cbv iota.
    apply indexOf_cons in Hq as [_ Hq].
    rewrite IH; [done | done | by apply trimEnd_tail in Hend].
Qed.

Lemma afterSpaces_unfold (k : nat) (s : string) :
  afterSpaces k s =
    match lazyCapture (sdrop k s) with
    | Some c => Some c
    | None => match k with
              | O => None
              | S k' => afterSpaces k' s
              end
    end.
Proof. by destruct k. Qed.

(** The text between the fences, from a block made of white space, a
    core that neither starts nor ends with white space, white space and
    the closing fence. *)
Lemma afterSpaces_block (sp core sp' post : string) :
  indexOf "`" core = -1 →
  spaceRun sp = String.length sp → spaceRun sp' = String.length sp' →
  spaceRun core = 0%nat → trimEnd core = core → core ≠ "" →
  let block := sp +:+ core +:+ sp' +:+ fence +:+ post in
  afterSpaces (spaceRun block) block = Some core.
Proof.
  intros Hq Hsp Hsp' Hstart Hend Hne. cbv zeta.
  assert (Hrun : spaceRun (core +:+ sp' +:+ fence +:+ post) = 0%nat).
  { destruct core as [|a core]; [done|]. simpl in Hstart.
    change (spaceRun (String a core +:+ sp' +:+ fence +:+ post))
      with (if isSpace a then S (spaceRun (core +:+ sp' +:+ fence +:+ post)) else 0%nat).
    by destruct (isSpace a). }
  rewrite afterSpaces_unfold, spaceRun_append, sdrop_append by done.
  rewrite lazyCapture_core; [done | done | done |].
  unfold closes. rewrite spaceRun_append, sdrop_append by done.
  apply prefix_append.
Qed.

Lemma markdownMatch_skip (pre s : string) :
  indexOf "`" pre = -1 → markdownMatch (pre +:+ s) = markdownMatch s.
Proof.
  induction pre as [|a pre IH]; intros Hq; [done|].
  apply indexOf_cons in Hq as [Ha Hq].
  change (String a pre +:+ s) with (String a (pre +:+ s)).
  assert (Hhere : matchHere (String a (pre +:+ s)) = None).
  { unfold matchHere, fence.
    destruct (String.prefix "```" (String a (pre +:+ s))) eqn:Hp; [|done].
    apply prefix_head in Hp as <-. by rewrite Ascii.eqb_refl in Ha. }
  simpl markdownMatch. rewrite Hhere. by apply IH.
Qed.

Lemma markdownMatch_here (s c : string) : matchHere s = Some c → markdownMatch s = Some c.
Proof.
  intros H.
  assert (Hunfold : markdownMatch s =
                    match matchHere s with
                    | Some c => Some c
                    | None => match s with
                              | EmptyString => None
                              | String _ rest => markdownMatch rest
                              end
                    end) by (by destruct s).
  by rewrite Hunfold, H.
Qed.

(** X18: the first fenced block of an answer, with or without the word
    [json] after the opening fence, is cut out and trimmed: for a block
    whose content neither starts nor ends with white space the result is
    that content, whatever text the model put before and after the
    block. *)
Theorem extractJson_fenced (tagged : bool) (pre sp core sp' post : string) :
  let block := sp +:+ core +:+ sp' +:+ fence +:+ post in
  indexOf "`" pre = -1 → indexOf "`" core = -1 →
  spaceRun sp = String.length sp → spaceRun sp' = String.length sp' →
  spaceRun core = 0%nat → trimEnd core = core → core ≠ "" →
  (tagged = false → String.prefix "json" block = false) →
  extractJson (pre +:+ fence +:+ (if tagged then "json" else "") +:+ block) = core.
Proof.
  cbv zeta. intros Hpre Hcore Hsp Hsp' Hstart Hend Hne Htag.
  pose proof (afterSpaces_block sp core sp' post Hcore Hsp Hsp' Hstart Hend Hne) as Hblock.
  cbv zeta in Hblock.
  set (block := sp +:+ core +:+ sp' +:+ fence +:+ post) in *.
  assert (Hhere : matchHere (fence +:+ (if tagged then "json" else "") +:+ block)
                  = Some core).
  { unfold matchHere. rewrite prefix_append.
    rewrite (sdrop_append fence).
    destruct tagged.
    - rewrite prefix_append, (sdrop_append "json"). by rewrite Hblock.
    - change ("" +:+ block) with block. by rewrite Htag, Hblock. }
  unfold extractJson. rewrite markdownMatch_skip by done.
  rewrite (markdownMatch_here _ core Hhere).
  assert (Htruthy : truthy core = true) by (by destruct core).
  rewrite Htruthy. unfold trim. by rewrite Hstart.
Qed.

Lemma extractJson_fenced_witness :
  extractJson ("Here you go: ```json [1,2] ``` Enjoy [it]!") = "[1,2]".
Proof.
  apply (extractJson_fenced true "Here you go: " " " "[1,2]" " " " Enjoy [it]!");
    by (reflexivity || discriminate).
Defined.
End Parsing.

(** ** The component catalog *)
Section Catalog.
Import Text AiParsers ComponentCatalog.

Lemma lowerChar_not_upper (a : ascii) : isUpper (lowerChar a) = false.
Proof. by destruct a as [[] [] [] [] [] [] [] []]. Qed.

Lemma lowerChar_twice (a : ascii) : lowerChar (lowerChar a) = lowerChar a.
Proof. by destruct a as [[] [] [] [] [] [] [] []]. Qed.

Lemma toLowerCase_twice (s : string) : toLowerCase (toLowerCase s) = toLowerCase s.
Proof. induction s as [|a s IH]; [done|]. simpl. by rewrite lowerChar_twice, IH. Qed.

Lemma toLowerCase_length (s : string) : String.length (toLowerCase s) = String.length s.
Proof. induction s as [|a s IH]; [done|]. simpl. by rewrite IH. Qed.

Lemma hyphenate_pair (a b : ascii) (r : string) :
  hyphenate (String a (String b r)) =
    if isLower a && isUpper b
    then String a (String (chr 45) (String b (hyphenate r)))
    else String a (hyphenate (String b r)).
Proof. done. Qed.

(** In a lower-cased name no lower-case letter is followed by an
    upper-case one. *)
Lemma hyphenate_lower (s : string) : hyphenate (toLowerCase s) = toLowerCase s.
Proof.
  induction s as [|a s IH]; [done|].
  destruct s as [|b s]; [done|].
  change (toLowerCase (String a (String b s)))
    with (String (lowerChar a) (String (lowerChar b) (toLowerCase s))).
  rewrite hyphenate_pair, lowerChar_not_upper, andb_false_r.
  f_equal. exact IH.
Qed.

(** X19: the normalisation of a catalog name is its lower-casing and no
    more.  The hyphenation it is written with never applies, the name
    being lower-cased before the pattern looks for an upper-case letter:
    [AlertDialog] is listed as [alertdialog], not as [alert-dialog]. *)
Theorem normalized_is_lowercase (name : string) :
  normalized name = toLowerCase name ∧
  String.length (normalized name) = String.length name ∧
  normalized (normalized name) = normalized name.
Proof.
  assert (H : ∀ n, normalized n = toLowerCase n).
  { intros n. unfold normalized. by rewrite hyphenate_lower, toLowerCase_twice. }
  split; [apply H|]. split.
  - rewrite H. apply toLowerCase_length.
  - by rewrite !H, toLowerCase_twice.
Qed.

Example normalized_AlertDialog :
  normalized "AlertDialog" = "alertdialog" ∧ hyphenate "AlertDialog" = "Alert-Dialog".
Proof. done. Qed.

Lemma foldl_push {A B} (f : A → B) (init : list B) (xs : list A) :
  foldl (λ results x, results ++ [f x]) init xs = init ++ map f xs.
Proof.
  revert init. induction xs as [|x xs IH]; intros init; simpl.
  - by rewrite app_nil_r.
  - by rewrite IH, <- app_assoc.
Qed.

Lemma filter_split_length {A} (P : A → Prop) `{∀ x, Decision (P x)} (l : list A) :
  (length (filter P l) + length (filter (λ x, ¬ P x) l))%nat = length l.
Proof.
  induction l as [|x l IH]; [done|].
  rewrite !filter_cons. destruct (decide (P x)), (decide (¬ P x)); simpl; try lia; tauto.
Qed.

Section WithCache.
Variable cache : gmap string bool.

Lemma checkComponentAvailability_from (acc : ComponentAvailability)
    (components : list string) :
  let names := map (λ c, trim (toLowerCase c)) components in
  foldl (checkOne cache) acc components =
    {| available := available acc ++ filter (λ n, n ∈ availableComponents) names;
       cached := cached acc
                 ++ filter (λ n, inCache cache n = true)
                      (filter (λ n, n ∈ availableComponents) names);
       missing := missing acc ++ filter (λ n, n ∉ availableComponents) names |}.
Proof.
  cbv zeta. revert acc. induction components as [|c cs IH]; intros acc.
  - simpl. rewrite !filter_nil, !app_nil_r. by destruct acc.
  - simpl foldl. rewrite IH. unfold checkOne. simpl map. rewrite !filter_cons.
    destruct (decide (trim (toLowerCase c) ∈ availableComponents)) as [Hin|Hout].
    + rewrite bool_decide_eq_true_2 by done. simpl.
      destruct (decide (trim (toLowerCase c) ∉ availableComponents)); [done|].
      rewrite filter_cons.
      destruct (inCache cache (trim (toLowerCase c))) eqn:Hc.
      * destruct (decide (true = true)); [|done]. by rewrite <- !app_assoc.
      * destruct (decide (false = true)); [done|]. by rewrite <- !app_assoc.
    + rewrite bool_decide_eq_false_2 by done. simpl.
      destruct (decide (trim (toLowerCase c) ∉ availableComponents)); [|done].
      by rewrite <- !app_assoc.
Qed.

Lemma fetchComponents_form (components : list string) :
  fetchComponents cache components =
    map (fromCache cache)
      (filter (λ n, n ∈ availableComponents) (map (λ c, trim (toLowerCase c)) components))
    ++ map notInRegistry
         (filter (λ n, n ∉ availableComponents)
            (map (λ c, trim (toLowerCase c)) components)).
Proof.
  unfold fetchComponents, checkComponentAvailability.
  rewrite checkComponentAvailability_from. simpl. by rewrite !foldl_push.
Qed.

(** X20: [fetchComponents] answers every requested name once, under
    its trimmed lower-case form: first the names of the catalog in the
    order of the request, then the others.  A result reports success
    exactly for a catalog name that the cache marks [true]. *)
Theorem fetchComponents_results (components : list string) :
  let names := map (λ c, trim (toLowerCase c)) components in
  fetchComponents cache components =
    map (fromCache cache) (filter (λ n, n ∈ availableComponents) names)
    ++ map notInRegistry (filter (λ n, n ∉ availableComponents) names) ∧
  length (fetchComponents cache components) = length components ∧
  (∀ r, r ∈ fetchComponents cache components →
        fr_component r ∈ names ∧
        (fr_success r = true ↔
         fr_component r ∈ availableComponents ∧ cache !! fr_component r = Some true)).
Proof.
  cbv zeta.
  pose proof (fetchComponents_form components) as Hform.
  split; [exact Hform|]. rewrite Hform. split.
  - rewrite length_app, !length_map, filter_split_length. apply length_map.
  - intros r Hr. apply elem_of_app in Hr as [Hr|Hr];
      apply list_elem_of_fmap in Hr as (n & -> & Hn);
      apply list_elem_of_filter in Hn as [Hcat Hn].
    + unfold fromCache, inCache.
      destruct (cache !! n) as [[]|] eqn:Hc; simpl; rewrite ?Hc; split; try done;
        split; (done || intros [_ ?]; done).
    + simpl. split; [done|]. split; [done | by intros [? _]].
Qed.

Lemma indexOf_cons_intro (c a : ascii) (s : string) :
  Ascii.eqb a c = false → indexOf c s = -1 → indexOf c (String a s) = -1.
Proof.
  unfold indexOf. simpl. intros -> H. by apply (indexOfFrom_shift c s 0 1).
Qed.

Lemma indexOf_toLowerCase (s : string) :
  indexOf "-" (toLowerCase s) = -1 → indexOf "-" s = -1.
Proof.
  induction s as [|a s IH]; [done|]. simpl. intros H.
  apply indexOf_cons in H as [Ha H]. apply indexOf_cons_intro; [|by apply IH].
  destruct (Ascii.eqb_spec a "-") as [->|]; [done | done].
Qed.

Lemma indexOf_leading (c : ascii) (s : string) :
  isSpace c = false → indexOf c (sdrop (spaceRun s) s) = -1 → indexOf c s = -1.
Proof.
  intros Hc. induction s as [|a s IH]; [done|]. simpl.
  destruct (isSpace a) eqn:Ha; [|done].
  intros H. apply indexOf_cons_intro; [|by apply IH].
  destruct (Ascii.eqb_spec a c) as [->|]; [congruence | done].
Qed.

Lemma indexOf_trailing (c : ascii) (s : string) :
  isSpace c = false → indexOf c (trimEnd s) = -1 → indexOf c s = -1.
Proof.
  intros Hc. induction s as [|a s IH]; [done|]. simpl.
  destruct (trimEnd s) as [|b r] eqn:Hr.
  - intros H. apply indexOf_cons_intro; [|by apply IH].
    destruct (isSpace a) eqn:Ha.
    + destruct (Ascii.eqb_spec a c) as [->|]; [congruence | done].
    + by apply indexOf_cons in H as [? _].
  - intros H. apply indexOf_cons in H as [Ha H].
    apply indexOf_cons_intro; [done | by apply IH].
Qed.

Lemma catalog_without_hyphen (n : string) :
  n ∈ availableComponents → indexOf "-" n = -1.
Proof.
  intros Hn.
  assert (Hall : forallb (λ n, indexOf "-" n =? -1) availableComponents = true)
    by (by vm_compute).
  rewrite forallb_forall in Hall. apply Z.eqb_eq, Hall. by apply list_elem_of_In.
Qed.

(** X21: a requested name with a hyphen in it, as the registry itself
    spells its names, is never found: whatever the cache holds, it is
    answered with [not available in Shadcn registry], and the request
    as a whole is reported as not available. *)
Theorem fetchComponents_hyphenated (components : list string) (component : string) :
  component ∈ components →
  indexOf "-" component ≠ -1 →
  notInRegistry (trim (toLowerCase component)) ∈ fetchComponents cache components ∧
  ensureComponentsAvailable cache components = false.
Proof.
  intros Hin Hhyphen.
  assert (Hout : trim (toLowerCase component) ∉ availableComponents).
  { intros Hcat. apply catalog_without_hyphen in Hcat. apply Hhyphen.
    apply indexOf_toLowerCase, indexOf_leading; [done|].
    by apply indexOf_trailing. }
  assert (Hmem : notInRegistry (trim (toLowerCase component))
                 ∈ fetchComponents cache components).
  { rewrite fetchComponents_form.
    apply elem_of_app. right. apply list_elem_of_fmap_2, list_elem_of_filter.
    split; [done|]. by apply (list_elem_of_fmap_2 (λ c, trim (toLowerCase c))). }
  split; [done|]. unfold ensureComponentsAvailable.
  destruct (List.filter _ (fetchComponents cache components)) as [|f fs] eqn:Hf.
  - assert (Hfail : In (notInRegistry (trim (toLowerCase component)))
                      (List.filter (λ r, negb (fr_success r))
                         (fetchComponents cache components))).
    { apply filter_In. split; [by apply list_elem_of_In | done]. }
    by rewrite Hf in Hfail.
  - done.
Qed.
End WithCache.

Lemma fetchComponents_hyphenated_witness :
  fetchComponents {[ "alert-dialog" := true; "button" := true ]} ["Button"; "alert-dialog"]
  = [ mkFetchResult true "button" None;
      mkFetchResult false "alert-dialog"
        (Some "Component 'alert-dialog' not available in Shadcn registry") ] ∧
  ensureComponentsAvailable {[ "alert-dialog" := true; "button" := true ]}
    ["Button"; "alert-dialog"] = false.
Proof.
  split; [by vm_compute|].
  apply (fetchComponents_hyphenated {[ "alert-dialog" := true; "button" := true ]}
           ["Button"; "alert-dialog"] "alert-dialog"); [|by vm_compute].
  apply elem_of_cons. right. apply elem_of_cons. by left.
Defined.

Lemma fetchComponents_results_witness :
  length (fetchComponents {[ "button" := true ]} [" Button "; "Unknown"; "card"]) = 3%nat.
Proof.
  destruct (fetchComponents_results {[ "button" := true ]} [" Button "; "Unknown"; "card"])
    as (_ & Hlen & _).
  exact Hlen.
Defined.

(** X22: [analyzeComponents] never throws.  A failure of the model call
    and an answer without a list of required components (the log call
    reads its length inside the [try]) both end in the empty analysis
    whose reasoning tells the error; otherwise the answer is returned
    with its missing parts filled in.  The check that
    [validateAnalysis] makes is never the one that fails. *)
Theorem analyzeComponents_total {W : Type} (analyze : string → list string → M W RawAnalysis)
    (typeErrorMessage : RawAnalysis → string) (String_of : Thrown → string)
    (userPrompt : string) (w : W) :
  ∃ analysis,
    analyzeComponents analyze typeErrorMessage String_of userPrompt w
      = (Ok analysis, (analyze userPrompt availableComponents w).2) ∧
    reasoning analysis ≠ "" ∧
    match analyze userPrompt availableComponents w with
    | (Ok (Some o), _) =>
        match ao_requiredComponents o with
        | Some required =>
            requiredComponents analysis = required ∧
            validateAnalysis (Some o) = Ok analysis
        | None =>
            analysis = mkAnalysis [] [] []
              ("An error occurred during analysis: " +:+ typeErrorMessage (Some o))
        end
    | (Ok None, _) =>
        analysis = mkAnalysis [] [] []
          ("An error occurred during analysis: " +:+ typeErrorMessage None)
    | (Throw e, _) =>
        requiredComponents analysis = [] ∧ customComponents analysis = [] ∧
        compositeComponents analysis = []
    end.
Proof.
  unfold analyzeComponents, tryCatch, bind, ret, throw.
  destruct (analyze userPrompt availableComponents w) as [[[o|]|e] w'] eqn:Hrun; simpl.
  - destruct (ao_requiredComponents o) as [required|] eqn:Hreq; simpl.
    + eexists. split; [reflexivity|]. simpl.
      split; [by destruct (ao_reasoning o) as [[|]|]|].
      rewrite ?Hreq. done.
    + eexists. split; [reflexivity|]. done.
  - eexists. split; [reflexivity|]. done.
  - eexists. split; [reflexivity|]. done.
Qed.
End Catalog.

(** ** More on the generator *)
Section Generator.
Import AIService MultiAgentGenerator.
Context `{Env : Environment}.

Lemma elem_of_List_filter {A} (p : A → bool) (l : list A) (x : A) :
  x ∈ List.filter p l ↔ x ∈ l ∧ p x = true.
Proof. rewrite !list_elem_of_In. apply filter_In. Qed.

Lemma NoDup_List_filter {A} (p : A → bool) (l : list A) :
  NoDup l → NoDup (List.filter p l).
Proof.
  induction 1 as [|x l Hx Hl IH]; simpl; [constructor|].
  destruct (p x); [|done]. constructor; [|done].
  rewrite elem_of_List_filter. tauto.
Qed.

Lemma sublist_List_filter {A} (p : A → bool) (l : list A) :
  List.filter p l `sublist_of` l.
Proof.
  induction l as [|x l IH]; simpl; [done|].
  destruct (p x); [by apply sublist_skip | by apply sublist_cons].
Qed.

Lemma List_filter_none {A} (p : A → bool) (l : list A) :
  (∀ x, x ∈ l → p x = false) → List.filter p l = [].
Proof.
  induction l as [|x l IH]; intros H; [done|]. simpl.
  rewrite H by left. apply IH. intros y Hy. apply H. by right.
Qed.

Lemma uniqueFrom_spec (seen xs : list string) :
  NoDup (uniqueFrom seen xs) ∧
  ∀ x, x ∈ uniqueFrom seen xs ↔ x ∈ xs ∧ x ∉ seen.
Proof.
  revert seen. induction xs as [|y xs IH]; intros seen; simpl.
  - split; [constructor|]. intros x. rewrite elem_of_nil. tauto.
  - destruct (decide (y ∈ seen)) as [Hy|Hy].
    + rewrite bool_decide_eq_true_2 by done. destruct (IH seen) as [Hnd Hmem].
      split; [done|]. intros x. rewrite Hmem, elem_of_cons.
      split; [tauto|]. intros [[->|?] ?]; tauto.
    + rewrite bool_decide_eq_false_2 by done. destruct (IH (y :: seen)) as [Hnd Hmem].
      split.
      * constructor; [|done]. rewrite Hmem, elem_of_cons. tauto.
      * intros x. rewrite elem_of_cons, Hmem, !elem_of_cons.
        destruct (decide (x = y)) as [->|]; tauto.
Qed.

Lemma availabilityOperation_run (s : RunState) (analysis : ComponentAnalysis) :
  analyzedComponents (ctx s) = Some analysis →
  let names := unique (requiredComponents analysis
                       ++ flat_map co_components (compositeComponents analysis)) in
  availabilityOperation s
    = (Ok (List.filter isComponentAvailable names,
           List.filter (λ comp, negb (isComponentAvailable comp)) names),
       {| ctx := setAvailableComponents (List.filter isComponentAvailable names) (ctx s);
          world := world s |}).
Proof.
  intros Han. unfold availabilityOperation, getContext, updateContext, bind, get, ret, modify.
  simpl. by rewrite Han.
Qed.

(** X23: stage 2 splits the names of the analysis, each taken once,
    into the available and the unavailable ones: no name is lost, none
    is in both lists or twice in one, the order of first mention is
    kept, and the available ones are what the context records.  Nothing
    else of the run changes. *)
Theorem availabilityOperation_partition (s : RunState) (analysis : ComponentAnalysis) :
  analyzedComponents (ctx s) = Some analysis →
  let names := requiredComponents analysis
               ++ flat_map co_components (compositeComponents analysis) in
  ∃ available unavailable,
    availabilityOperation s
      = (Ok (available, unavailable),
         {| ctx := setAvailableComponents available (ctx s); world := world s |}) ∧
    NoDup (available ++ unavailable) ∧
    (∀ n, n ∈ available ++ unavailable ↔ n ∈ names) ∧
    (∀ n, n ∈ available → isComponentAvailable n = true) ∧
    (∀ n, n ∈ unavailable → isComponentAvailable n = false) ∧
    available `sublist_of` unique names ∧ unavailable `sublist_of` unique names.
Proof.
  intros Han. cbv zeta.
  set (names := requiredComponents analysis
                ++ flat_map co_components (compositeComponents analysis)).
  destruct (uniqueFrom_spec [] names) as [Hnd Hmem]. fold (unique names) in Hnd, Hmem.
  exists (List.filter isComponentAvailable (unique names)),
         (List.filter (λ comp, negb (isComponentAvailable comp)) (unique names)).
  split_and!.
  - by apply availabilityOperation_run.
  - apply NoDup_app. split_and!; [by apply NoDup_List_filter | | by apply NoDup_List_filter].
    intros n. rewrite !elem_of_List_filter. intros [_ Ha] [_ Hu]. by rewrite Ha in Hu.
  - intros n. rewrite elem_of_app, !elem_of_List_filter, Hmem, elem_of_nil.
    destruct (isComponentAvailable n); simpl; intuition discriminate.
  - intros n. rewrite elem_of_List_filter. tauto.
  - intros n. rewrite elem_of_List_filter. intros [_ H]. by apply negb_true_iff in H.
  - apply sublist_List_filter.
  - apply sublist_List_filter.
Qed.
Lemma executeStep_first_try {T} (asResult : T → StepResult) (i : nat) (op : G T)
    (s : RunState) (r : T) (s1 : RunState) :
  (i < length (steps (ctx s)))%nat →
  op {| ctx := setSteps (alter (markRunning 0) i) (ctx s); world := world s |}
    = (Ok r, s1) →
  (i < length (steps (ctx s1)))%nat →
  executeStep asResult i op 0 s
    = (Ok r, {| ctx := setSteps (alter (markCompleted (asResult r)) i) (ctx s1);
                world := world s1 |}).
Proof.
  intros Hi Hop Hi1. rewrite executeStep_unfold by lia.
  rewrite bind_run, updateStep_run by done. unfold tryCatch.
  rewrite bind_run, Hop, bind_run, updateStep_run by done. reflexivity.
Qed.

Lemma pipeline_succeeds (userPrompt : string) (analysis : ComponentAnalysis)
    (cs : list UIComponent) (w : World) :
  (∀ w0, ∃ w1, analyzeComponents userPrompt w0 = (Ok analysis, w1)) →
  (∀ n, n ∈ requiredComponents analysis
            ++ flat_map co_components (compositeComponents analysis) →
        isComponentAvailable n = true) →
  (∀ input w0, ∃ raw w1,
     invoke (codeGeneratorChain input) w0 = (Ok raw, w1) ∧
     JSON_parse_components (AiParsers.extractJson raw) = Ok cs) →
  JSON_parse_components (JSON_stringify_components cs) = Ok cs →
  ∃ s',
    pipeline userPrompt {| ctx := initialContext userPrompt; world := w |} = (Ok cs, s') ∧
    generatedCode (ctx s') = JSON_stringify_components cs ∧
    analyzedComponents (ctx s') = Some analysis ∧
    map status (steps (ctx s')) = [completed; completed; completed; completed; completed] ∧
    map retryCount (steps (ctx s')) = [Some 0; Some 0; None; Some 0; Some 0] ∧
    (steps (ctx s') !! 2%nat) ≫= result = Some (RText "No components to fetch") ∧
    (steps (ctx s') !! 4%nat) ≫= result = Some (RComponents cs).
Proof.
  intros Han Hav Hgen Hround.
  set (names := requiredComponents analysis
                ++ flat_map co_components (compositeComponents analysis)) in *.
  destruct (Han w) as [w1 Hw1].
  set (s1 := {| ctx := setSteps (alter (markCompleted (RAnalysis analysis)) 0%nat)
                         (setAnalyzedComponents analysis
                            (setSteps (alter (markRunning 0) 0%nat)
                               (initialContext userPrompt)));
                world := w1 |}).
  pose proof (availabilityOperation_run
                {| ctx := setSteps (alter (markRunning 0) 1%nat) (ctx s1);
                   world := world s1 |} analysis eq_refl) as Hrun.
  cbv zeta in Hrun. fold names in Hrun.
  assert (Hnone : List.filter (λ comp, negb (isComponentAvailable comp)) (unique names) = []).
  { apply List_filter_none. intros n Hn. apply negb_false_iff, Hav.
    by apply (proj2 (uniqueFrom_spec [] names)) in Hn as [Hn _]. }
  rewrite Hnone in Hrun.
  set (available := List.filter isComponentAvailable (unique names)) in *.
  destruct (Hgen {| ci_userPrompt := userPrompt;
                    ci_componentAnalysis := analysis;
                    ci_availableComponents := available |} w1) as (raw & w4 & Hraw & Hparse).
  eexists. split.
  - unfold pipeline.
    (* stage 1 *)
    rewrite bind_run.
    rewrite (executeStep_first_try RAnalysis 0 (analyzeOperation userPrompt) _ analysis
               {| ctx := setAnalyzedComponents analysis
                           (setSteps (alter (markRunning 0) 0%nat)
                              (initialContext userPrompt));
                  world := w1 |});
      [ | simpl; lia
        | unfold analyzeOperation, inWorld, updateContext, bind, modify, ret; simpl;
          by rewrite Hw1
        | simpl; lia ].
    (* stage 2 *)
    rewrite bind_run.
    match goal with |- context [executeStep _ 1 availabilityOperation 0 ?s] =>
      change s with s1 end.
    rewrite (executeStep_first_try (λ r, RAvailability r.1 r.2) 1 availabilityOperation s1
               (available, []) _ ltac:(simpl; lia) Hrun ltac:(simpl; lia)).
    (* stage 3 is skipped *)
    rewrite !bind_run. with_strategy opaque [executeStep] simpl.
    rewrite bind_run. unfold ret at 1. cbv beta iota.
    change (0 <? Z.of_nat (length (@nil string))) with false. cbv iota.
    rewrite bind_run, updateStep_run by (simpl; lia). rewrite bind_run.
    (* stage 4 *)
    match goal with |- context [executeStep RText 3 codeOperation 0 ?s] =>
      set (s3 := s) end.
    rewrite (executeStep_first_try RText 3 codeOperation s3 (JSON_stringify_components cs)
               {| ctx := setGeneratedCode (JSON_stringify_components cs)
                           (setSteps (alter (markRunning 0) 3%nat) (ctx s3));
                  world := w4 |});
      [ | simpl; lia
        | unfold codeOperation, generateComponentCode, generateCode, runChain, getContext,
            inWorld, updateContext, tryCatch, bind, get, modify, ret; simpl;
          rewrite Hraw, Hparse; reflexivity
        | simpl; lia ].
    (* stage 5 *)
    rewrite bind_run.
    match goal with |- context [executeStep RComponents 4 assembleComponents 0 ?s] =>
      set (s4 := s) end.
    rewrite (executeStep_first_try RComponents 4 assembleComponents s4 cs
               {| ctx := setSteps (alter (markRunning 0) 4%nat) (ctx s4); world := w4 |});
      [ | simpl; lia
        | unfold assembleComponents, getContext, bind, get, ret; simpl;
          rewrite Hround; reflexivity
        | simpl; lia ].
    reflexivity.
  - simpl. done.
Qed.

(** X24: the run that goes well.  When the analyzer answers, every name
    of the analysis is available, the code generator's answer parses
    after cleaning, and [JSON.parse] reads back what [JSON.stringify]
    printed, [generateUI] succeeds with exactly the parsed components:
    every stage is completed at its first attempt, nothing is fetched,
    and the context keeps the printed components as the generated
    code. *)
Theorem generateUI_succeeds (userPrompt : string) (analysis : ComponentAnalysis)
    (cs : list UIComponent) (w : World) :
  (∀ w0, ∃ w1, analyzeComponents userPrompt w0 = (Ok analysis, w1)) →
  (∀ n, n ∈ requiredComponents analysis
            ++ flat_map co_components (compositeComponents analysis) →
        isComponentAvailable n = true) →
  (∀ input w0, ∃ raw w1,
     invoke (codeGeneratorChain input) w0 = (Ok raw, w1) ∧
     JSON_parse_components (AiParsers.extractJson raw) = Ok cs) →
  JSON_parse_components (JSON_stringify_components cs) = Ok cs →
  let out := (generateUI userPrompt w).1 in
  success out = true ∧
  components out = cs ∧
  generatedCode (context out) = JSON_stringify_components cs ∧
  analyzedComponents (context out) = Some analysis ∧
  map status (steps (context out)) = [completed; completed; completed; completed; completed] ∧
  map retryCount (steps (context out)) = [Some 0; Some 0; None; Some 0; Some 0] ∧
  (steps (context out) !! 2%nat) ≫= result = Some (RText "No components to fetch") ∧
  (steps (context out) !! 4%nat) ≫= result = Some (RComponents cs).
Proof.
  intros Han Hav Hgen Hround. cbv zeta.
  destruct (pipeline_succeeds userPrompt analysis cs w Han Hav Hgen Hround)
    as (s' & Hrun & Hcode & Han' & Hst & Hrc & Hskip & Hres).
  unfold generateUI. rewrite Hrun. simpl. by split_and!.
Qed.
End Generator.

(** ** The generator on the concrete environment *)
Section GeneratorExamples.
Import MultiAgentGenerator Samples Keeping.

Lemma generateUI_succeeds_witness :
  components (generateUI (Env := env false) "make a form" ∅).1 = [card "generated-1"].
Proof.
  apply (generateUI_succeeds (Env := env false) "make a form" analysis
           [card "generated-1"] ∅).
  - intros w0. by exists w0.
  - done.
  - intros input w0. exists "Here it is: ```json [card] ```", w0. split; [done | by vm_compute].
  - done.
Defined.

Lemma availabilityOperation_partition_witness :
  ∃ available unavailable,
    (availabilityOperation (Env := env false)
       (mkRunState (Env := env false)
          (setAnalyzedComponents analysis (initialContext "make a form")) ∅)).1
    = Ok (available, unavailable) ∧
    ∀ n, n ∈ available ++ unavailable ↔ n ∈ ["button"; "input"; "button"].
Proof.
  destruct (availabilityOperation_partition (Env := env false)
              (mkRunState (Env := env false)
                 (setAnalyzedComponents analysis (initialContext "make a form")) ∅)
              analysis eq_refl) as (available & unavailable & Hrun & _ & Hmem & _).
  exists available, unavailable. by rewrite Hrun.
Defined.
End GeneratorExamples.

(** ** More on the patch queue *)
Section PatchesMore.
Import AppStore PatchService.
Context `{Env : Environment}.


Lemma processQueueFrom_frame queue s :
  appState (processQueueFrom queue s) = appState s ∧
  patchLog s `prefix_of` patchLog (processQueueFrom queue s).
Proof.
  revert s. induction queue as [|request rest IH]; intros s; [done|].
  simpl. destruct (findComponent _ _).
  - simpl. split; [done|]. by apply prefix_app_r.
  - match goal with |- context [processQueueFrom rest ?s0] =>
      destruct (IH s0) as [Hst Hlog] end.
    simpl in *. split; [done|]. etrans; [|exact Hlog].
    rewrite <- app_assoc. by apply prefix_app_r.
Qed.

Lemma processQueue_frame s :
  appState (processQueue s) = appState s ∧
  patchLog s `prefix_of` patchLog (processQueue s).
Proof.
  unfold processQueue. destruct (isProcessing s); [done|].
  apply processQueueFrom_frame.
Qed.

(** X26: what an arriving fix does to the store: a text that parses is
    merged by [updateComponent], which looks at the top level only, and
    anything else leaves the store as it is; the calls for the requests
    that follow do not touch it.  So the fix for a component that sits
    inside another one is dropped, the store staying as it was, while
    the operation is logged as successful. *)
Theorem resume_store (request : PatchRequest) (fixedComponentString : option string)
    (s : Service) :
  let s' := resume request fixedComponentString s in
  appState s' =
    match fixedComponentString with
    | Some text =>
        if truthy text then
          match JSON_parse_component text with
          | Ok patchedComponent =>
              updateComponent (componentId request) patchedComponent (appState s)
          | Throw _ => appState s
          end
        else appState s
    | None => appState s
    end ∧
  ((∀ c, c ∈ currentComponents (appState s) → id c ≠ componentId request) →
   appState s' = appState s ∧
   ∀ text, fixedComponentString = Some text → truthy text = true →
           LEnd (componentId request) true ∈ patchLog s').
Proof.
  cbv zeta. unfold resume.
  match goal with |- context [processQueue ?s0] =>
    destruct (processQueue_frame s0) as [Hst Hlog]; set (s1 := s0) in * end.
  assert (Hstore : appState (processQueue s1) =
    match fixedComponentString with
    | Some text =>
        if truthy text then
          match JSON_parse_component text with
          | Ok patchedComponent =>
              updateComponent (componentId request) patchedComponent (appState s)
          | Throw _ => appState s
          end
        else appState s
    | None => appState s
    end).
  { rewrite Hst. subst s1. simpl. by repeat case_match. }
  split; [exact Hstore|]. intros Habs. split.
  - rewrite Hstore. repeat case_match; try done.
    unfold updateComponent. rewrite map_id_when.
    + by destruct (appState s).
    + intros c Hc. apply bool_decide_eq_false_2. by apply Habs.
  - intros text -> Htext. eapply elem_of_prefix; [|exact Hlog].
    subst s1. simpl. rewrite Htext. apply elem_of_app. right. by left.
Qed.



End PatchesMore.

(** ** The patch queue on a concrete store *)
Section PatchExamples.
Import AppStore PatchService Samples Keeping.


Lemma resume_store_witness :
  let s := run (Env := env false) [Queue "inner" "e1"] (initial (emptyState boxed)) in
  awaiting s = [mkRequest "inner" "e1"] ∧
  appState (react (Env := env false) s (Fixed 0 (Some "{patch}"))) = emptyState boxed ∧
  LEnd "inner" true ∈ patchLog (react (Env := env false) s (Fixed 0 (Some "{patch}"))).
Proof.
  cbv zeta. split; [reflexivity|].
  destruct (resume_store (Env := env false) (mkRequest "inner" "e1") (Some "{patch}")
              (setAwaiting []
                 (run (Env := env false) [Queue "inner" "e1"] (initial (emptyState boxed)))))
    as [_ Hnested].
  destruct Hnested as [Hsame Hlog].
  - intros c Hc. apply list_elem_of_singleton in Hc. by subst c.
  - split; [exact Hsame | by apply (Hlog "{patch}")].
Defined.

End PatchExamples.

(** ** Error fixes *)
Section ErrorFixes.
Import ErrorPatchService.

Lemma getProp_setProp (key key' : string) (value : JSON) (members : list (string * JSON)) :
  getProp key (setProp key' value members) =
    if bool_decide (key = key') then Some value else getProp key members.
Proof.
  induction members as [|[k v] rest IH]; simpl.
  - repeat case_bool_decide; congruence.
  - destruct (bool_decide_reflect (k = key')) as [->|Hk]; simpl.
    + repeat case_bool_decide; congruence.
    + rewrite IH. repeat case_bool_decide; congruence.
Qed.

Lemma getProp_deleteProp (key key' : string) (members : list (string * JSON)) :
  getProp key (deleteProp key' members) =
    if bool_decide (key = key') then None else getProp key members.
Proof.
  unfold deleteProp. induction members as [|[k v] rest IH]; simpl.
  - by case_bool_decide.
  - destruct (bool_decide_reflect (k = key')) as [->|Hk]; simpl.
    + rewrite IH. repeat case_bool_decide; congruence.
    + rewrite IH. repeat case_bool_decide; congruence.
Qed.

(** One turn of the loop, seen through the reads of the properties. *)
Lemma fixProp_reads (acc : list (string * JSON) * bool) (wrong correct key : string) :
  getProp key (fixProp acc (wrong, correct)).1 =
    match getProp wrong acc.1 with
    | Some value =>
        if bool_decide (key = wrong) then None
        else if bool_decide (key = correct) then Some value
        else getProp key acc.1
    | None => getProp key acc.1
    end ∧
  (fixProp acc (wrong, correct)).2 = (acc.2 || bool_decide (is_Some (getProp wrong acc.1))).
Proof.
  unfold fixProp. destruct (getProp wrong acc.1) as [value|] eqn:Hw; simpl.
  - rewrite getProp_deleteProp, getProp_setProp. split; [done|].
    by rewrite orb_true_r.
  - split; [done|]. by rewrite orb_false_r.
Qed.

(** The loop over any table whose wrong names are pairwise different,
    whose correct names are pairwise different, and in which no correct
    name is a wrong name. *)
Lemma fold_fixProp (table : list (string * string)) (acc : list (string * JSON) * bool) :
  NoDup (table.*1) → NoDup (table.*2) →
  (∀ w c, w ∈ table.*1 → c ∈ table.*2 → w ≠ c) →
  let final := foldl fixProp acc table in
  (∀ w, w ∈ table.*1 → getProp w final.1 = None) ∧
  (∀ w c v, (w, c) ∈ table → getProp w acc.1 = Some v → getProp c final.1 = Some v) ∧
  (∀ k, k ∉ table.*1 → k ∉ table.*2 → getProp k final.1 = getProp k acc.1) ∧
  (final.2 = true ↔
   acc.2 = true ∨ ∃ w, w ∈ table.*1 ∧ is_Some (getProp w acc.1)).
Proof.
  cbv zeta. revert acc. induction table as [|[w0 c0] table IH]; intros acc Hw Hc Hwc.
  - simpl. split_and!; try done.
    + intros w Hw'. by apply elem_of_nil in Hw'.
    + intros w c v Hin. by apply elem_of_nil in Hin.
    + split; [by left|]. intros [?|(w & Hw' & _)]; [done|]. by apply elem_of_nil in Hw'.
  - simpl in Hw, Hc. apply NoDup_cons in Hw as [Hw0 Hw]. apply NoDup_cons in Hc as [Hc0 Hc].
    assert (Hwc' : ∀ w c, w ∈ table.*1 → c ∈ table.*2 → w ≠ c).
    { intros w c Hw' Hc'. apply Hwc; simpl; by right. }
    destruct (IH (fixProp acc (w0, c0)) Hw Hc Hwc') as (Hgone & Hmoved & Hkept & Hflag).
    assert (Hw0c0 : w0 ≠ c0) by (apply Hwc; simpl; by left).
    simpl foldl. split_and!.
    + intros w Hin. simpl in Hin. apply elem_of_cons in Hin as [->|Hin]; [|by apply Hgone].
      destruct (decide (w0 ∈ table.*2)) as [Hbad|Hok].
      { exfalso. apply (Hwc w0 w0); [simpl; by left | simpl; by right | done]. }
      rewrite Hkept by done.
      destruct (fixProp_reads acc w0 c0 w0) as [-> _].
      destruct (getProp w0 acc.1) eqn:Hg; [by rewrite bool_decide_eq_true_2 | done].
    + intros w c v Hin Hv. apply elem_of_cons in Hin as [[= -> ->]|Hin].
      * assert (Hc0w : c0 ∉ table.*1).
        { intros Hbad. apply (Hwc c0 c0); [simpl; by right | simpl; by left | done]. }
        rewrite Hkept by done.
        destruct (fixProp_reads acc w0 c0 c0) as [-> _]. rewrite Hv.
        rewrite bool_decide_eq_false_2 by done. by rewrite bool_decide_eq_true_2.
      * apply (Hmoved w c v Hin).
        assert (Hw1 : w ∈ table.*1) by (by apply (list_elem_of_fmap_2 fst) in Hin).
        destruct (fixProp_reads acc w0 c0 w) as [-> _].
        destruct (getProp w0 acc.1); [|done].
        rewrite bool_decide_eq_false_2 by (intros ->; done).
        rewrite bool_decide_eq_false_2; [done|].
        intros ->. apply (Hwc c0 c0); [simpl; by right | simpl; by left | done].
    + intros k Hk1 Hk2. simpl in Hk1, Hk2.
      apply not_elem_of_cons in Hk1 as [Hk0 Hk1]. apply not_elem_of_cons in Hk2 as [Hk0' Hk2].
      rewrite Hkept by done.
      destruct (fixProp_reads acc w0 c0 k) as [-> _].
      destruct (getProp w0 acc.1); [|done].
      by rewrite !bool_decide_eq_false_2.
    + rewrite Hflag. destruct (fixProp_reads acc w0 c0 w0) as [_ ->].
      rewrite orb_true_iff, bool_decide_eq_true. split.
      * intros [[Hacc|Hhere]|(w & Hin & Hsome)]; [by left | |].
        { right. exists w0. split; [simpl; by left | done]. }
        right. exists w. split; [simpl; by right|].
        destruct (fixProp_reads acc w0 c0 w) as [Hr _]. rewrite Hr in Hsome.
        destruct (getProp w0 acc.1); [|done].
        destruct (decide (w = w0)) as [->|Hne].
        { rewrite bool_decide_eq_true_2 in Hsome by done. by destruct Hsome. }
        rewrite bool_decide_eq_false_2 in Hsome by done.
        rewrite bool_decide_eq_false_2 in Hsome; [done|].
        apply Hwc; simpl; [by right | by left].
      * intros [Hacc|(w & Hin & Hsome)]; [by left; left|].
        simpl in Hin. apply elem_of_cons in Hin as [->|Hin]; [by left; right|].
        destruct (getProp w0 acc.1) as [v0|] eqn:Hg0; [left; right; eauto|].
        right. exists w. split; [done|].
        destruct (fixProp_reads acc w0 c0 w) as [-> _]. by rewrite Hg0.
Qed.

Lemma propFixes_wellformed :
  NoDup (propFixes.*1) ∧ NoDup (propFixes.*2) ∧
  ∀ w c, w ∈ propFixes.*1 → c ∈ propFixes.*2 → w ≠ c.
Proof.
  split_and!.
  - apply (bool_decide_unpack _). by vm_compute.
  - apply (bool_decide_unpack _). by vm_compute.
  - intros w c Hw Hc ->.
    assert (H : Forall (λ w, w ∉ propFixes.*2) (propFixes.*1))
      by (apply (bool_decide_unpack _); by vm_compute).
    rewrite Forall_forall in H. by apply (H c).
Qed.

(** X28: what the quick fix does to the properties of a component: none
    of the twenty misspelt names is left; the value of each misspelt name
    is found under its proper name, in place of the value that may have
    been there; every property with another name is as it was; and the
    fix reports a change exactly when a misspelt name was there. *)
Theorem fixProps_renames (props : list (string * JSON)) :
  let '(props', fixed) := fixProps props in
  (∀ wrong, wrong ∈ propFixes.*1 → getProp wrong props' = None) ∧
  (∀ wrong correct value,
     (wrong, correct) ∈ propFixes → getProp wrong props = Some value →
     getProp correct props' = Some value) ∧
  (∀ key, key ∉ propFixes.*1 → key ∉ propFixes.*2 →
          getProp key props' = getProp key props) ∧
  (fixed = true ↔ ∃ wrong, wrong ∈ propFixes.*1 ∧ is_Some (getProp wrong props)).
Proof.
  destruct propFixes_wellformed as (Hw & Hc & Hwc).
  destruct (fold_fixProp propFixes (props, false) Hw Hc Hwc)
    as (Hgone & Hmoved & Hkept & Hflag).
  unfold fixProps. destruct (foldl fixProp (props, false) propFixes) as [props' fixed].
  simpl in *. split_and!; try done.
  rewrite Hflag. split; [by intros [?|?] | by right].
Qed.

Lemma fixProps_renames_witness :
  getProp "className"
    (fixProps [("class", JString "old"); ("id", JString "x"); ("className", JString "new")]).1
  = Some (JString "old").
Proof.
  pose proof (fixProps_renames
                [("class", JString "old"); ("id", JString "x"); ("className", JString "new")])
    as Hfix.
  destruct (fixProps _) as [props' fixed].
  destruct Hfix as (_ & Hmoved & _).
  apply (Hmoved "class" "className" (JString "old")); [|reflexivity].
  apply elem_of_cons. right. apply elem_of_cons. by left.
Defined.

Section WithCollaborators.
Context {W : Type}.
Variable JSON_parse : string → Outcome JSON.
Variable JSON_stringify : JSON → string.
Variable now : W → string * W.
Variable aiFix : string → string → string → M W JSON.

(** The model's fix either fails, [null] being returned and cache and
    store left as they were, or is printed, returned and recorded
    under the error message. *)
Lemma fixByModel_outcomes (error componentCode componentId : string)
    (s : FixState (W := W)) :
  ∃ s', (fixByModel JSON_parse JSON_stringify now aiFix error componentCode componentId s
           = (Ok None, s') ∧
         fixCache s' = fixCache s ∧ knownFixes s' = knownFixes s) ∨
        (∃ fixedCode,
           fixByModel JSON_parse JSON_stringify now aiFix error componentCode componentId s
             = (Ok (Some fixedCode), s') ∧
           fixCache s' = <[error := fixedCode]> (fixCache s) ∧
           (fixCode <$> knownFixes s' !! error) = Some fixedCode).
Proof.
  unfold ErrorPatchService.fixByModel, tryCatch, bind, ret, throw, modify, inOutside.
  destruct (typeOfComponent JSON_parse componentCode) as [t|e]; simpl.
  - destruct (now (outside s)) as [timestamp w1]. simpl.
    destruct (aiFix _ _ _ w1) as [[fixedComponent|e] w2]; simpl.
    + destruct (now w2) as [lastUsed w3]. simpl. eexists. right. eexists.
      split; [reflexivity|]. simpl. split; [done|]. by rewrite lookup_insert_eq.
    + eexists. left. by split.
  - eexists. left. by split.
Qed.

(** X29: [attemptFix] never throws, and the fix of the model is kept
    under the error message alone: once the model has fixed one
    component, a request with that message for any other component, if
    no quick fix applies to it, is answered with the same text, the
    model not being asked again. *)
Theorem attemptFix_reuses_fix (error componentCode componentId : string)
    (s : FixState (W := W)) :
  ∃ answer s',
    attemptFix JSON_parse JSON_stringify now aiFix error componentCode componentId s
      = (Ok answer, s') ∧
    (attemptQuickFix JSON_parse JSON_stringify error componentCode = None →
     fixCache s !! error = None →
     ∀ fixedCode, answer = Some fixedCode →
       fixCache s' !! error = Some fixedCode ∧
       ∀ componentCode' componentId',
         attemptQuickFix JSON_parse JSON_stringify error componentCode' = None →
         attemptFix JSON_parse JSON_stringify now aiFix error componentCode' componentId' s'
           = (Ok (Some fixedCode), s')).
Proof.
  assert (Hafter : ∀ code,
            attemptQuickFix JSON_parse JSON_stringify error code = None ∨
            (∃ q, attemptQuickFix JSON_parse JSON_stringify error code = Some q ∧
                  truthy q = false) →
            attemptFix JSON_parse JSON_stringify now aiFix error code componentId s =
              match fixCache s !! error with
              | Some cachedFix => (Ok (Some cachedFix), s)
              | None => fixByModel JSON_parse JSON_stringify now aiFix error code componentId s
              end).
  { intros code [Hq|(q & Hq & Hfalsy)]; unfold ErrorPatchService.attemptFix;
      rewrite Hq, ?Hfalsy; unfold bind, get, ret; simpl;
      by destruct (fixCache s !! error). }
  destruct (attemptQuickFix JSON_parse JSON_stringify error componentCode) as [q|] eqn:Hquick.
  - destruct (truthy q) eqn:Htruthy.
    + exists (Some q), s. split; [|done].
      unfold ErrorPatchService.attemptFix. by rewrite Hquick, Htruthy.
    + rewrite (Hafter componentCode) by (right; eauto).
      destruct (fixCache s !! error) as [cached|] eqn:Hcache.
      * exists (Some cached), s. by split.
      * destruct (fixByModel_outcomes error componentCode componentId s)
          as [s' [(-> & _)|(fixedCode & -> & _)]]; eexists _, _; by split.
  - rewrite (Hafter componentCode) by (by left).
    destruct (fixCache s !! error) as [cached|] eqn:Hcache.
    + exists (Some cached), s. by split.
    + destruct (fixByModel_outcomes error componentCode componentId s)
        as [s' [(-> & _)|(fixedCode & -> & Hc & _)]].
      * exists None, s'. split; [done|]. by intros _ _ fixedCode.
      * exists (Some fixedCode), s'. split; [done|].
        intros _ _ fixedCode' [= <-].
        assert (Hhit : fixCache s' !! error = Some fixedCode)
          by (by rewrite Hc, lookup_insert_eq).
        split; [done|]. intros code' id' Hq'.
        unfold ErrorPatchService.attemptFix. rewrite Hq'.
        unfold bind, get, ret. simpl. by rewrite Hhit.
Qed.
End WithCollaborators.

Lemma attemptFix_reuses_fix_witness :
  ∃ s1,
    attemptFix FixDemo.JSON_parse FixDemo.JSON_stringify FixDemo.now FixDemo.aiFix
      "boom" "{card}" "card-1" FixDemo.start = (Ok (Some "{fixed}"), s1) ∧
    attemptFix FixDemo.JSON_parse FixDemo.JSON_stringify FixDemo.now FixDemo.aiFix
      "boom" "{button}" "button-7" s1 = (Ok (Some "{fixed}"), s1) ∧
    outside s1 = 1%nat.
Proof.
  destruct (attemptFix_reuses_fix FixDemo.JSON_parse FixDemo.JSON_stringify FixDemo.now
              FixDemo.aiFix "boom" "{card}" "card-1" FixDemo.start)
    as (answer & s1 & Hrun & Hreuse).
  assert (Hfirst : attemptFix FixDemo.JSON_parse FixDemo.JSON_stringify FixDemo.now
                     FixDemo.aiFix "boom" "{card}" "card-1" FixDemo.start
                   = (Ok (Some "{fixed}"),
                      mkFixState {[ "boom" := "{fixed}" ]}
                        {[ "boom" := mkErrorFix "boom" "{fixed}" 8
                                       "2025-01-01T00:00:00.000Z" 1 0 ]} 1%nat))
    by reflexivity.
  rewrite Hfirst in Hrun. injection Hrun as <- <-.
  destruct (Hreuse eq_refl eq_refl "{fixed}" eq_refl) as [_ Hsecond].
  eexists. split; [reflexivity|]. split; [|reflexivity].
  by apply Hsecond.
Defined.
End ErrorFixes.

(** ** The storage manager *)
Section StorageVersions.
Import Storage.

Lemma snapshotKey_inj (id : string) (k k' : Z) :
  snapshotKey id k = snapshotKey id k' → k = k'.
Proof.
  unfold snapshotKey. intros H.
  apply (String.app_inj id) in H. apply (String.app_inj "_v") in H.
  by apply (inj pretty) in H.
Qed.

Lemma saveUIState_versioned (id now snapshotTime : string) (state : NewUIState)
    (stores : Stores) :
  Versioned id 1 (saveUIState id now snapshotTime state stores).2.
Proof.
  unfold Versioned, saveUIState, createVersionSnapshot, setState. simpl. split.
  - eexists. by rewrite lookup_insert_eq.
  - intros k Hk. assert (k = 1) as -> by lia.
    eexists. by rewrite lookup_insert_eq.
Qed.

Lemma updateUIState_versioned (id : string) (n : Z) (updates : UIStateUpdates)
    (now snapshotTime : string) (stores : Stores) :
  u_id updates = None → Versioned id n stores →
  Versioned id (n + 1) (updateUIState id updates now snapshotTime stores).2.
Proof.
  intros Hid [(state & Hstate & Hn & Hsame) Hsnaps].
  unfold updateUIState. rewrite Hstate.
  unfold Versioned, createVersionSnapshot, setState. simpl. rewrite Hid, Hsame, Hn. simpl.
  split.
  - eexists. by rewrite lookup_insert_eq.
  - intros k Hk. destruct (decide (k = n + 1)) as [->|Hne].
    + eexists. by rewrite lookup_insert_eq.
    + rewrite lookup_insert_ne by (intros Heq; by apply snapshotKey_inj in Heq).
      apply Hsnaps. lia.
Qed.

Lemma updatedStores_versioned (id : string) (n : Z)
    (updates : list (UIStateUpdates * string * string)) (stores : Stores) :
  (∀ u now snapshotTime, (u, now, snapshotTime) ∈ updates → u_id u = None) →
  Versioned id n stores →
  Versioned id (n + Z.of_nat (length updates)) (updatedStores id updates stores).
Proof.
  revert n stores. induction updates as [|[[u t1] t2] updates IH]; intros n stores Hids Hv.
  - simpl. by rewrite Z.add_0_r.
  - unfold updatedStores. simpl foldl. fold (updatedStores id updates).
    replace (n + Z.of_nat (length ((u, t1, t2) :: updates)))
      with ((n + 1) + Z.of_nat (length updates)) by (simpl length; lia).
    apply IH.
    + intros u' t1' t2' Hin. apply (Hids u' t1' t2'). by right.
    + apply updateUIState_versioned; [|done]. apply (Hids u t1 t2). by left.
Qed.

(** X30: versions are counted and kept.  After a state is saved and
    then updated any number of times without being renamed, its version
    is one more than the number of updates, and the versions store holds
    a snapshot of every version from the first on, none overwritten by a
    later one.  Rolling back to any of them returns the components of
    that snapshot as a new version, one above the current, stored as the
    current state and snapshot in its turn; an update or a rollback for
    an identifier or version that is not stored returns [null] and
    changes nothing. *)
Theorem storage_versions (id now snapshotTime : string) (state : NewUIState)
    (updates : list (UIStateUpdates * string * string)) (stores0 : Stores) :
  (∀ u t1 t2, (u, t1, t2) ∈ updates → u_id u = None) →
  let stores := updatedStores id updates (saveUIState id now snapshotTime state stores0).2 in
  let n := 1 + Z.of_nat (length updates) in
  Versioned id n stores ∧
  (∀ k t1 t2, 1 <= k <= n →
     ∃ snapshot rolledBack stores',
       versionsStore stores !! snapshotKey id k = Some snapshot ∧
       rollbackToVersion id k t1 t2 stores = (Some rolledBack, stores') ∧
       us_components rolledBack = us_components snapshot ∧
       us_version rolledBack = n + 1 ∧
       us_parent_version rolledBack = Some id ∧
       Versioned id (n + 1) stores') ∧
  (∀ other u t1 t2, statesStore stores !! other = None →
     updateUIState other u t1 t2 stores = (None, stores)) ∧
  (∀ other k t1 t2, versionsStore stores !! snapshotKey other k = None →
     rollbackToVersion other k t1 t2 stores = (None, stores)).
Proof.
  intros Hids. cbv zeta.
  pose proof (updatedStores_versioned id 1 updates _ Hids
                (saveUIState_versioned id now snapshotTime state stores0)) as Hv.
  set (stores := updatedStores id updates
                   (saveUIState id now snapshotTime state stores0).2) in *.
  set (n := 1 + Z.of_nat (length updates)) in *.
  split; [exact Hv|]. split; [|split].
  - intros k t1 t2 Hk. destruct Hv as [(current & Hcur & Hn & Hsame) Hsnaps].
    destruct (Hsnaps k Hk) as (snapshot & Hsnap & Hversion & Hsid).
    unfold rollbackToVersion, getUIState. rewrite Hsnap, Hcur, Hn.
    eexists _, _, _. split; [reflexivity|]. split; [reflexivity|]. simpl.
    split; [done|]. split; [done|]. split; [done|].
    unfold Versioned, createVersionSnapshot, setState. simpl. rewrite Hsid. split.
    + eexists. by rewrite lookup_insert_eq.
    + intros j Hj. destruct (decide (j = n + 1)) as [->|Hne].
      * eexists. by rewrite lookup_insert_eq.
      * rewrite lookup_insert_ne by (intros Heq; by apply snapshotKey_inj in Heq).
        apply Hsnaps. lia.
  - intros other u t1 t2 Hnone. unfold updateUIState. by rewrite Hnone.
  - intros other k t1 t2 Hnone. unfold rollbackToVersion. by rewrite Hnone.
Qed.

Lemma storage_versions_witness :
  let stores :=
    updatedStores "s1"
      [ (mkUpdates None (Some "renamed") None (Some [Samples.card "b"]) None None None None
           None, "t3", "t4") ]
      (saveUIState "s1" "t1" "t2" (mkNewUIState "first" None [Samples.card "a"] None None)
         (mkStores ∅ ∅)).2 in
  ∃ rolledBack stores',
    rollbackToVersion "s1" 1 "t5" "t6" stores = (Some rolledBack, stores') ∧
    us_components rolledBack = [Samples.card "a"] ∧
    us_version rolledBack = 3.
Proof.
  cbv zeta.
  destruct (storage_versions "s1" "t1" "t2"
              (mkNewUIState "first" None [Samples.card "a"] None None)
              [ (mkUpdates None (Some "renamed") None (Some [Samples.card "b"]) None None None
                   None None, "t3", "t4") ]
              (mkStores ∅ ∅)) as (_ & Hroll & _).
  - intros u t1 t2 Hin. apply list_elem_of_singleton in Hin. by injection Hin as -> _ _.
  - destruct (Hroll 1 "t5" "t6" ltac:(simpl; lia))
      as (snapshot & rolledBack & stores' & Hsnap & Hrun & Hcomp & Hver & _).
    exists rolledBack, stores'. split; [exact Hrun|]. split; [|exact Hver].
    rewrite Hcomp. vm_compute in Hsnap. by injection Hsnap as <-.
Defined.
End StorageVersions.
